(** * dscollections: the containers and their contracts

    A shallow embedding of the [dscollections] package and the properties
    proved about it.  The linked and tree-structured containers
    ([BinarySearchTree] of [tree.py], [Trie] and [DisjointSet] of
    [advanced.py], [SinglyLinkedList] and [DoublyLinkedList] of
    [linear.py]) are embedded in full; of the array-backed containers, the
    maps, the heaps and the graph ([linear.py], [map.py], [heap.py],
    [graph.py]) the methods that write or raise.

    Conventions of the embedding:
    - Python [int] values are [Z]; the generic element type [T] is
      instantiated at [Z] (a totally ordered, hashable type);
    - a [dict] is a [gmap], a [set] a [gset]; a [str] is a [list ascii],
      iterated character by character;
    - tree-shaped, single-owner object graphs (BST nodes, trie nodes) are
      inductive values, and in-place mutation is the rebuilt value;
    - list nodes, which are aliased ([_head], [_tail], [prev], [next]), live
      in an explicit store addressed by locations;
    - a method that can raise runs in a state monad that keeps the state
      reached at the point of the [raise];
    - a generator is what consuming it gives: the values it yields and the
      exception that ends it, if any; the recursive generators take the
      recursion depth the interpreter has left as a parameter. *)

From Stdlib Require Import ZArith Ascii.
From stdpp Require Import gmap strings pretty list fin_maps sorting.

#[local] Open Scope Z_scope.
#[local] Set Warnings "-register-all,-clear-no-such-hyp".

(* ===================================================================== *)
(** * Part I: the embedding                                              *)
(* ===================================================================== *)

(** ** Python calls that can raise *)

Module Py.

(** The exceptions of the package: the four classes of its [raise]
    statements with their argument ([KeyError] is also what a lookup of an
    absent key in a [dict] or a removal from a [set] raises), and the other
    exceptions of built-in operations ([IndexError] of list indexing,
    [ValueError] of [list.remove], [OverflowError] of [list.insert],
    [ZeroDivisionError], and the interpreter's [RecursionError]), by
    class name. *)
Inductive exn : Type :=
| IndexError (msg : string)
| KeyError (key : Z)
| KeyErrorMsg (msg : string)
| ValueError (msg : string)
| OverflowError (msg : string)
| Builtin (class : string).

(** The error kinds of the design document. *)
Inductive error_kind : Type :=
| EmptyContainer | KeyNotFound | InvalidArgument | CapacityExceeded.

(** How the [raise] statements of the package realise the error kinds:
    each [IndexError] is raised by a pop, peek, get or dequeue on an empty
    container, each [KeyError] for an absent key or vertex, the
    [ValueError] for a capacity that is not positive, the [OverflowError]
    by [enqueue] on a full queue. *)
Definition kind_of (e : exn) : option error_kind :=
  match e with
  | IndexError _ => Some EmptyContainer
  | KeyError _ | KeyErrorMsg _ => Some KeyNotFound
  | ValueError _ => Some InvalidArgument
  | OverflowError _ => Some CapacityExceeded
  | Builtin _ => None
  end.

(** The outcome of a method call on an object whose state has type [S]:
    it returns [a] leaving state [s], or raises [e] with the object in the
    state [s] it had reached when the exception left the method.  [Stuck]
    is a read through a location that is not in the store (no Python
    behaviour), [OutOfFuel] a recursion cut off by the fuel of the
    model. *)
Inductive outcome (S A : Type) : Type :=
| Ok (a : A) (s : S)
| Raise (e : exn) (s : S)
| Stuck
| OutOfFuel.
Arguments Ok {S A} a s.
Arguments Raise {S A} e s.
Arguments Stuck {S A}.
Arguments OutOfFuel {S A}.

Definition M (S A : Type) : Type := S → outcome S A.

Definition ret {S A} (a : A) : M S A := λ s, Ok a s.

Definition bind {S A B} (m : M S A) (k : A → M S B) : M S B :=
  λ s, match m s with
       | Ok a s' => k a s'
       | Raise e s' => Raise e s'
       | Stuck => Stuck
       | OutOfFuel => OutOfFuel
       end.

Definition raise {S A} (e : exn) : M S A := λ s, Raise e s.
Definition get {S} : M S S := λ s, Ok s s.
Definition put {S} (s : S) : M S unit := λ _, Ok tt s.
Definition stuck {S A} : M S A := λ _, Stuck.
Definition out_of_fuel {S A} : M S A := λ _, OutOfFuel.

(** The state a call leaves the object in; a call without behaviour
    leaves it as it was. *)
Definition state_after {S A} (o : outcome S A) (before : S) : S :=
  match o with
  | Ok _ s | Raise _ s => s
  | Stuck | OutOfFuel => before
  end.

(** What consuming a generator to its end gives: the values it yielded,
    in order, and the exception that ended it, if one did. *)
Definition gen (A : Type) : Type := list A * option exn.

(** [yield v] *)
Definition yield {A} (v : A) : gen A := ([v], None).

(** One part of a generator body followed by the rest of the body
    ([yield from g] and then [rest]): an exception in [g] ends the
    generator, and the rest does not run. *)
Definition gen_seq {A} (g rest : gen A) : gen A :=
  match g with
  | (ys, None) => let '(zs, e) := rest in (ys ++ zs, e)
  | (ys, Some e) => (ys, Some e)
  end.

(** The interpreter refuses to enter a frame beyond
    [sys.getrecursionlimit()]. *)
Definition RecursionError : exn := Builtin "RecursionError".

End Py.

(** Sequencing of statements that act on the same object. *)
Notation "'let*' x := m 'in' k" := (Py.bind m (λ x, k))
  (at level 10, x binder, m at level 100, k at level 200, only parsing).
Notation "m ;;; k" := (Py.bind m (λ _, k))
  (at level 100, k at level 200, right associativity, only parsing).

(** ** tree.py: [BinarySearchTree] *)

Module BinarySearchTree.

(** [_BSTNode[T] | None]: [Nil] is [None]. *)
Inductive tree : Type :=
| Nil
| BSTNode (value : Z) (left right : tree).

Record t : Type := mk { _root : tree; _size : Z }.

(** [__init__] *)
Definition empty : t := {| _root := Nil; _size := 0 |}.

(** The descent of [insert], started at [current].  The result is the
    subtree after the call and whether a node was created (the paths on
    which [_size] is incremented).  An absent subtree is where the new
    [_BSTNode(value)] is attached; this covers both the empty-root test
    and the [current.left is None] / [current.right is None] tests. *)
Fixpoint insert_walk (value : Z) (current : tree) : tree * bool :=
  match current with
  | Nil => (BSTNode value Nil Nil, true)
  | BSTNode v l r =>
      if decide (value < v) then
        let '(l', created) := insert_walk value l in (BSTNode v l' r, created)
      else if decide (value > v) then
        let '(r', created) := insert_walk value r in (BSTNode v l r', created)
      else (current, false)
  end.

Definition insert (self : t) (value : Z) : t :=
  let '(root', created) := insert_walk value (_root self) in
  {| _root := root'; _size := if created then _size self + 1 else _size self |}.

Fixpoint contains_walk (value : Z) (cur : tree) : bool :=
  match cur with
  | Nil => false
  | BSTNode v l r =>
      if decide (value < v) then contains_walk value l
      else if decide (value > v) then contains_walk value r
      else true
  end.

Definition contains (self : t) (value : Z) : bool :=
  contains_walk value (_root self).

(** The values of a subtree: from left to right, root first, and root
    last. *)
Fixpoint in_order_values (node : tree) : list Z :=
  match node with
  | Nil => []
  | BSTNode v l r => in_order_values l ++ v :: in_order_values r
  end.

Fixpoint pre_order_values (node : tree) : list Z :=
  match node with
  | Nil => []
  | BSTNode v l r => v :: pre_order_values l ++ pre_order_values r
  end.

Fixpoint post_order_values (node : tree) : list Z :=
  match node with
  | Nil => []
  | BSTNode v l r => post_order_values l ++ post_order_values r ++ [v]
  end.

(** The number of nodes on the longest path from [node] down. *)
Fixpoint height (node : tree) : nat :=
  match node with
  | Nil => 0
  | BSTNode _ l r => S (Nat.max (height l) (height r))
  end.

(** The three generators.  Each [walk(node)] is a generator of its own,
    run through [yield from]: its frame is entered when it is resumed, one
    frame deeper than the generator that delegates to it, also for
    [walk(None)].  [frames] is the number of frames the interpreter can
    still enter before it reaches its recursion limit; with none left,
    entering the frame raises [RecursionError], which ends every
    generator on the way up. *)
Fixpoint in_order_walk (frames : nat) (node : tree) : Py.gen Z :=
  match frames with
  | O => ([], Some Py.RecursionError)
  | S frames =>
      match node with
      | Nil => ([], None)
      | BSTNode v l r =>
          Py.gen_seq (in_order_walk frames l)
            (Py.gen_seq (Py.yield v) (in_order_walk frames r))
      end
  end.

Fixpoint pre_order_walk (frames : nat) (node : tree) : Py.gen Z :=
  match frames with
  | O => ([], Some Py.RecursionError)
  | S frames =>
      match node with
      | Nil => ([], None)
      | BSTNode v l r =>
          Py.gen_seq (Py.yield v)
            (Py.gen_seq (pre_order_walk frames l) (pre_order_walk frames r))
      end
  end.

Fixpoint post_order_walk (frames : nat) (node : tree) : Py.gen Z :=
  match frames with
  | O => ([], Some Py.RecursionError)
  | S frames =>
      match node with
      | Nil => ([], None)
      | BSTNode v l r =>
          Py.gen_seq (post_order_walk frames l)
            (Py.gen_seq (post_order_walk frames r) (Py.yield v))
      end
  end.

(** [in_order], [pre_order] and [post_order] are generators themselves:
    [yield from walk(self._root)] runs in their own frame. *)
Definition in_order (frames : nat) (self : t) : Py.gen Z :=
  match frames with
  | O => ([], Some Py.RecursionError)
  | S frames => in_order_walk frames (_root self)
  end.

Definition pre_order (frames : nat) (self : t) : Py.gen Z :=
  match frames with
  | O => ([], Some Py.RecursionError)
  | S frames => pre_order_walk frames (_root self)
  end.

Definition post_order (frames : nat) (self : t) : Py.gen Z :=
  match frames with
  | O => ([], Some Py.RecursionError)
  | S frames => post_order_walk frames (_root self)
  end.

(** [__len__] *)
Definition len (self : t) : Z := _size self.

(** A client inserting [values] one after the other. *)
Definition insert_all (self : t) (values : list Z) : t :=
  foldl insert self values.

(** The public methods as calls on the object.  A traversal is consumed
    to its end ([list(self.in_order())]): it returns the values yielded,
    or raises what ended the generator.  The generators read the tree and
    assign nothing. *)
Inductive op : Type :=
| Insert (value : Z) | Contains (value : Z)
| InOrder | PreOrder | PostOrder | Len.

Inductive result : Type :=
| RNone | RBool (b : bool) | RInt (n : Z) | RList (values : list Z).

Definition consume (g : Py.gen Z) : Py.M t result :=
  match g with
  | (ys, None) => Py.ret (RList ys)
  | (_, Some e) => Py.raise e
  end.

Definition call (frames : nat) (o : op) : Py.M t result :=
  let* self := Py.get in
  match o with
  | Insert value => Py.put (insert self value) ;;; Py.ret RNone
  | Contains value => Py.ret (RBool (contains self value))
  | InOrder => consume (in_order frames self)
  | PreOrder => consume (pre_order frames self)
  | PostOrder => consume (post_order frames self)
  | Len => Py.ret (RInt (len self))
  end.

(** The search-tree ordering of §3: everything on the left is smaller,
    everything on the right is larger. *)
Fixpoint ordered (node : tree) : Prop :=
  match node with
  | Nil => True
  | BSTNode v l r =>
      Forall (λ x, x < v) (in_order_values l) ∧
      Forall (λ x, v < x) (in_order_values r) ∧
      ordered l ∧ ordered r
  end.

(** What a tree built by inserting [values] satisfies. *)
Definition built_from (self : t) (values : list Z) : Prop :=
  ordered (_root self) ∧
  (∀ x, x ∈ in_order_values (_root self) ↔ x ∈ values) ∧
  _size self = Z.of_nat (length (in_order_values (_root self))).

End BinarySearchTree.

Module BST := BinarySearchTree.


(** ** advanced.py: [Trie] *)

Module Trie.

(** [_TrieNode]: a [dict] from one-character strings to owned children
    and the end-of-word flag. *)
Inductive _TrieNode : Type :=
  mkNode { children : gmap ascii _TrieNode; is_end : bool }.

Record t : Type := mk { _root : _TrieNode; _size : Z }.

(** [_TrieNode()] with its default fields. *)
Definition new_node : _TrieNode := {| children := ∅; is_end := false |}.

(** [__init__] *)
Definition empty : t := {| _root := new_node; _size := 0 |}.

(** The [for ch in word] loop of [insert] followed by the marking of the
    final node, started at [node].  [setdefault] returns the child that
    is there or stores a new one; the Boolean is whether [is_end]
    was newly set (the path on which [_size] is incremented). *)
Fixpoint insert_walk (word : list ascii) (node : _TrieNode) : _TrieNode * bool :=
  match word with
  | [] =>
      if is_end node then (node, false)
      else ({| children := children node; is_end := true |}, true)
  | ch :: rest =>
      let child := default new_node (children node !! ch) in
      let '(child', marked) := insert_walk rest child in
      ({| children := <[ch := child']> (children node); is_end := is_end node |},
       marked)
  end.

Definition insert (self : t) (word : list ascii) : t :=
  let '(root', marked) := insert_walk word (_root self) in
  {| _root := root'; _size := if marked then _size self + 1 else _size self |}.

Fixpoint search_walk (word : list ascii) (node : _TrieNode) : bool :=
  match word with
  | [] => is_end node
  | ch :: rest =>
      match children node !! ch with
      | None => false
      | Some child => search_walk rest child
      end
  end.

Definition search (self : t) (word : list ascii) : bool :=
  search_walk word (_root self).

Fixpoint starts_with_walk (prefix : list ascii) (node : _TrieNode) : bool :=
  match prefix with
  | [] => true
  | ch :: rest =>
      match children node !! ch with
      | None => false
      | Some child => starts_with_walk rest child
      end
  end.

Definition starts_with (self : t) (prefix : list ascii) : bool :=
  starts_with_walk prefix (_root self).

(** [__len__] *)
Definition len (self : t) : Z := _size self.

(** A client inserting [words] one after the other. *)
Definition insert_all (self : t) (words : list (list ascii)) : t :=
  foldl insert self words.

(** A string literal as the sequence of its characters. *)
Definition str (s : string) : list ascii := String.list_ascii_of_string s.

End Trie.


(** ** advanced.py: [DisjointSet] *)

Module DisjointSet.
Import Py.

Record t : Type := mk { _parent : gmap Z Z; _rank : gmap Z Z }.

(** [__init__] *)
Definition empty : t := {| _parent := ∅; _rank := ∅ |}.

(** [item in self._parent] *)
Definition known (item : Z) : M t bool :=
  let* self := get in ret (bool_decide (is_Some (_parent self !! item))).

(** [self._parent[item]] and [self._rank[item]], which raise [KeyError]
    on an absent key. *)
Definition parent_at (item : Z) : M t Z :=
  let* self := get in
  match _parent self !! item with
  | Some p => ret p
  | None => raise (KeyError item)
  end.

Definition rank_at (item : Z) : M t Z :=
  let* self := get in
  match _rank self !! item with
  | Some r => ret r
  | None => raise (KeyError item)
  end.

(** [self._parent[item] = p] and [self._rank[item] = r] *)
Definition set_parent (item p : Z) : M t unit :=
  let* self := get in
  put {| _parent := <[item := p]> (_parent self); _rank := _rank self |}.

Definition set_rank (item r : Z) : M t unit :=
  let* self := get in
  put {| _parent := _parent self; _rank := <[item := r]> (_rank self) |}.

Definition make_set (item : Z) : M t unit :=
  let* k := known item in
  if k then ret tt
  else (set_parent item item ;;; set_rank item 0).

(** [find] is recursive on the parent chain; [fuel] bounds the depth of
    the recursion. *)
Fixpoint find (fuel : nat) (item : Z) : M t Z :=
  match fuel with
  | O => out_of_fuel
  | S fuel' =>
      let* k := known item in
      (if k then ret tt else make_set item) ;;;
      let* parent := parent_at item in
      (if decide (parent ≠ item) then
         let* r := find fuel' parent in set_parent item r
       else ret tt) ;;;
      parent_at item
  end.

Definition union (fuel : nat) (a b : Z) : M t unit :=
  let* ra := find fuel a in
  let* rb := find fuel b in
  if decide (ra = rb) then ret tt
  else
    let* rka := rank_at ra in
    let* rkb := rank_at rb in
    if decide (rka < rkb) then set_parent ra rb
    else
      let* rka := rank_at ra in
      let* rkb := rank_at rb in
      if decide (rka > rkb) then set_parent rb ra
      else
        set_parent rb ra ;;;
        let* rka := rank_at ra in
        set_rank ra (rka + 1).

Definition connected (fuel : nat) (a b : Z) : M t bool :=
  let* ra := find fuel a in
  let* rb := find fuel b in
  ret (bool_decide (ra = rb)).

(** The states a client can bring a [DisjointSet] into: the public
    methods, any number of times, from the empty structure.  ([__repr__]
    only calls [find].) *)
Inductive reachable : t → Prop :=
| reach_init : reachable empty
| reach_make_set self item u self' :
    reachable self → make_set item self = Ok u self' → reachable self'
| reach_find self fuel item r self' :
    reachable self → find fuel item self = Ok r self' → reachable self'
| reach_union self fuel a b u self' :
    reachable self → union fuel a b self = Ok u self' → reachable self'
| reach_connected self fuel a b c self' :
    reachable self → connected fuel a b self = Ok c self' → reachable self'.

(** The state after the auto-registration of [item]: [item] is its own
    parent with rank 0 if it was unknown. *)
Definition registered (self : t) (item : Z) : t :=
  match _parent self !! item with
  | Some _ => self
  | None => {| _parent := <[item := item]> (_parent self);
               _rank := <[item := 0]> (_rank self) |}
  end.

(** [root_of self x r]: following the parent links from [x] ends in the
    self-parented [r]. *)
Inductive root_of (self : t) : Z → Z → Prop :=
| root_here x : _parent self !! x = Some x → root_of self x x
| root_up x p r :
    _parent self !! x = Some p → p ≠ x → root_of self p r → root_of self x r.

(** [on_chain self x y]: [y] is one of the nodes met when following the
    parent links from [x] up to the root, [x] and the root included. *)
Inductive on_chain (self : t) : Z → Z → Prop :=
| chain_here x : on_chain self x x
| chain_up x p y :
    _parent self !! x = Some p → p ≠ x → on_chain self p y → on_chain self x y.

(** The forest invariant: the two dictionaries have the same keys, and
    the rank strictly increases from a node to its parent. *)
Definition wf (self : t) : Prop :=
  (∀ x, is_Some (_parent self !! x) ↔ is_Some (_rank self !! x)) ∧
  (∀ x p, _parent self !! x = Some p → p ≠ x →
     ∃ rx rp, _rank self !! x = Some rx ∧ _rank self !! p = Some rp ∧ rx < rp).

(** The scenario of §8 continued: [union(1, 2)], [union(3, 4)] and
    [union(1, 3)] on a new structure, which leaves the chain 4 → 3 → 1. *)
Definition example1 : t := state_after (union 3 1 2 empty) empty.
Definition example2 : t := state_after (union 3 3 4 example1) example1.
Definition example : t := state_after (union 3 1 3 example2) example2.

End DisjointSet.

Module DSU := DisjointSet.

(** ** linear.py: [SinglyLinkedList] *)

Module SinglyLinkedList.
Import Py.

(** The identity of a node object. *)
Definition loc : Type := positive.

(** [_SNode]; [next] holds a reference or [None]. *)
Record _SNode : Type := mkNode { value : Z; next : option loc }.

(** A list object and the node objects allocated for it. *)
Record t : Type := mk {
  store : gmap loc _SNode;
  _head : option loc;
  _tail : option loc;
  _size : Z
}.

(** [__init__] without values *)
Definition empty : t :=
  {| store := ∅; _head := None; _tail := None; _size := 0 |}.

(** [_SNode(value=v, next=nxt)]: a new object, distinct from all
    others. *)
Definition new_node (v : Z) (nxt : option loc) : M t loc :=
  let* self := get in
  let l := fresh (dom (store self)) in
  put {| store := <[l := mkNode v nxt]> (store self); _head := _head self;
         _tail := _tail self; _size := _size self |} ;;;
  ret l.

(** [node.next], [node.value] and [node.next = nxt] *)
Definition get_next (node : loc) : M t (option loc) :=
  let* self := get in
  match store self !! node with
  | Some n => ret (next n)
  | None => stuck
  end.

Definition get_value (node : loc) : M t Z :=
  let* self := get in
  match store self !! node with
  | Some n => ret (value n)
  | None => stuck
  end.

Definition set_next (node : loc) (nxt : option loc) : M t unit :=
  let* self := get in
  match store self !! node with
  | Some n =>
      put {| store := <[node := mkNode (value n) nxt]> (store self);
             _head := _head self; _tail := _tail self; _size := _size self |}
  | None => stuck
  end.

(** Reads and writes of the attributes of the list object. *)
Definition get_head : M t (option loc) := let* self := get in ret (_head self).
Definition get_tail : M t (option loc) := let* self := get in ret (_tail self).
Definition get_size : M t Z := let* self := get in ret (_size self).

Definition set_head (h : option loc) : M t unit :=
  let* self := get in
  put {| store := store self; _head := h; _tail := _tail self;
         _size := _size self |}.

Definition set_tail (tl : option loc) : M t unit :=
  let* self := get in
  put {| store := store self; _head := _head self; _tail := tl;
         _size := _size self |}.

Definition set_size (n : Z) : M t unit :=
  let* self := get in
  put {| store := store self; _head := _head self; _tail := _tail self;
         _size := n |}.

Definition prepend (v : Z) : M t unit :=
  let* h := get_head in
  let* node := new_node v h in
  set_head (Some node) ;;;
  let* tl := get_tail in
  (if tl is None then set_tail (Some node) else ret tt) ;;;
  let* n := get_size in
  set_size (n + 1).

Definition append (v : Z) : M t unit :=
  let* node := new_node v None in
  let* tl := get_tail in
  match tl with
  | None => set_head (Some node) ;;; set_tail (Some node)
  | Some last_node => set_next last_node (Some node) ;;; set_tail (Some node)
  end ;;;
  let* n := get_size in
  set_size (n + 1).

Definition pop_front : M t Z :=
  let* h := get_head in
  match h with
  | None => raise (IndexError "pop_front from empty SinglyLinkedList")
  | Some node =>
      let* nxt := get_next node in
      set_head nxt ;;;
      let* h' := get_head in
      (if h' is None then set_tail None else ret tt) ;;;
      let* n := get_size in
      set_size (n - 1) ;;;
      get_value node
  end.

(** [__len__] *)
Definition len (self : t) : Z := _size self.

(** The walk of [__iter__]: the nodes met from [cur] on by following
    [next] until [None].  [fuel] bounds the number of steps. *)
Fixpoint nodes_from (st : gmap loc _SNode) (fuel : nat) (cur : option loc)
  : option (list loc) :=
  match cur with
  | None => Some []
  | Some l =>
      match fuel with
      | O => None
      | S fuel' =>
          match st !! l with
          | None => None
          | Some n => (l ::.) <$> nodes_from st fuel' (next n)
          end
      end
  end.

(** The values [__iter__] yields, in order. *)
Definition iter (fuel : nat) (self : t) : option (list Z) :=
  ls ← nodes_from (store self) fuel (_head self);
  mapM (λ l, value <$> store self !! l) ls.

(** The mutating public methods.  [__init__] with values is a sequence
    of [append]s. *)
Inductive op : Type := Prepend (v : Z) | Append (v : Z) | PopFront.

Definition call (o : op) : M t (option Z) :=
  match o with
  | Prepend v => prepend v ;;; ret None
  | Append v => append v ;;; ret None
  | PopFront => let* v := pop_front in ret (Some v)
  end.

(** A client making the calls [ops] one after the other on [self],
    going on after a call that raised. *)
Definition run (self : t) (ops : list op) : t :=
  foldl (λ s o, state_after (call o s) s) self ops.

(** [rep self ls]: the list object consists of exactly the nodes [ls],
    in this order. *)
Definition rep (self : t) (ls : list loc) : Prop :=
  NoDup ls ∧
  _head self = head ls ∧
  _tail self = last ls ∧
  _size self = Z.of_nat (length ls) ∧
  ∀ i l, ls !! i = Some l →
    ∃ v, store self !! l = Some (mkNode v (ls !! S i)).

(** The structural invariant of §3. *)
Definition structural_invariant (self : t) : Prop :=
  (_size self = 0 ↔ _head self = None ∧ _tail self = None) ∧
  (_size self = 1 → _head self = _tail self) ∧
  ∃ ls,
    (∀ fuel, (length ls < fuel)%nat →
       nodes_from (store self) fuel (_head self) = Some ls) ∧
    Z.of_nat (length ls) = _size self ∧
    last ls = _tail self.

End SinglyLinkedList.

Module SLL := SinglyLinkedList.

(** ** linear.py: [DoublyLinkedList] *)

Module DoublyLinkedList.
Import Py.

Definition loc : Type := positive.

(** [_DNode]; [prev] and [next] hold a reference or [None]. *)
Record _DNode : Type :=
  mkNode { value : Z; prev : option loc; next : option loc }.

Record t : Type := mk {
  store : gmap loc _DNode;
  _head : option loc;
  _tail : option loc;
  _size : Z
}.

(** [__init__] without values *)
Definition empty : t :=
  {| store := ∅; _head := None; _tail := None; _size := 0 |}.

(** [_DNode(v)]: a new object with both links [None]. *)
Definition new_node (v : Z) : M t loc :=
  let* self := get in
  let l := fresh (dom (store self)) in
  put {| store := <[l := mkNode v None None]> (store self);
         _head := _head self; _tail := _tail self; _size := _size self |} ;;;
  ret l.

(** Reads and writes of the attributes of a node object. *)
Definition get_node (node : loc) : M t _DNode :=
  let* self := get in
  match store self !! node with
  | Some n => ret n
  | None => stuck
  end.

Definition put_node (node : loc) (n : _DNode) : M t unit :=
  let* self := get in
  put {| store := <[node := n]> (store self); _head := _head self;
         _tail := _tail self; _size := _size self |}.

Definition get_prev (node : loc) : M t (option loc) :=
  let* n := get_node node in ret (prev n).
Definition get_next (node : loc) : M t (option loc) :=
  let* n := get_node node in ret (next n).
Definition get_value (node : loc) : M t Z :=
  let* n := get_node node in ret (value n).

Definition set_prev (node : loc) (p : option loc) : M t unit :=
  let* n := get_node node in put_node node (mkNode (value n) p (next n)).
Definition set_next (node : loc) (nxt : option loc) : M t unit :=
  let* n := get_node node in put_node node (mkNode (value n) (prev n) nxt).

(** Reads and writes of the attributes of the list object. *)
Definition get_head : M t (option loc) := let* self := get in ret (_head self).
Definition get_tail : M t (option loc) := let* self := get in ret (_tail self).
Definition get_size : M t Z := let* self := get in ret (_size self).

Definition set_head (h : option loc) : M t unit :=
  let* self := get in
  put {| store := store self; _head := h; _tail := _tail self;
         _size := _size self |}.

Definition set_tail (tl : option loc) : M t unit :=
  let* self := get in
  put {| store := store self; _head := _head self; _tail := tl;
         _size := _size self |}.

Definition set_size (n : Z) : M t unit :=
  let* self := get in
  put {| store := store self; _head := _head self; _tail := _tail self;
         _size := n |}.

Definition append (v : Z) : M t unit :=
  let* node := new_node v in
  let* tl := get_tail in
  match tl with
  | None => set_head (Some node) ;;; set_tail (Some node)
  | Some last_node =>
      set_prev node (Some last_node) ;;;
      set_next last_node (Some node) ;;;
      set_tail (Some node)
  end ;;;
  let* n := get_size in
  set_size (n + 1).

Definition prepend (v : Z) : M t unit :=
  let* node := new_node v in
  let* h := get_head in
  match h with
  | None => set_head (Some node) ;;; set_tail (Some node)
  | Some first_node =>
      set_next node (Some first_node) ;;;
      set_prev first_node (Some node) ;;;
      set_head (Some node)
  end ;;;
  let* n := get_size in
  set_size (n + 1).

Definition pop_front : M t Z :=
  let* h := get_head in
  match h with
  | None => raise (IndexError "pop_front from empty DoublyLinkedList")
  | Some node =>
      let* nxt := get_next node in
      set_head nxt ;;;
      let* h' := get_head in
      match h' with
      | None => set_tail None
      | Some first_node => set_prev first_node None
      end ;;;
      let* n := get_size in
      set_size (n - 1) ;;;
      get_value node
  end.

Definition pop_back : M t Z :=
  let* tl := get_tail in
  match tl with
  | None => raise (IndexError "pop_back from empty DoublyLinkedList")
  | Some node =>
      let* p := get_prev node in
      set_tail p ;;;
      let* tl' := get_tail in
      match tl' with
      | None => set_head None
      | Some last_node => set_next last_node None
      end ;;;
      let* n := get_size in
      set_size (n - 1) ;;;
      get_value node
  end.

(** [__len__] *)
Definition len (self : t) : Z := _size self.

(** The walk of [__iter__]: the nodes met from [cur] on by following
    [next] until [None].  [fuel] bounds the number of steps. *)
Fixpoint nodes_from (st : gmap loc _DNode) (fuel : nat) (cur : option loc)
  : option (list loc) :=
  match cur with
  | None => Some []
  | Some l =>
      match fuel with
      | O => None
      | S fuel' =>
          match st !! l with
          | None => None
          | Some n => (l ::.) <$> nodes_from st fuel' (next n)
          end
      end
  end.

(** The values [__iter__] yields, in order. *)
Definition iter (fuel : nat) (self : t) : option (list Z) :=
  ls ← nodes_from (store self) fuel (_head self);
  mapM (λ l, value <$> store self !! l) ls.

(** The mutating public methods.  [__init__] with values is a sequence
    of [append]s. *)
Inductive op : Type :=
| Append (v : Z) | Prepend (v : Z) | PopFront | PopBack.

Definition call (o : op) : M t (option Z) :=
  match o with
  | Append v => append v ;;; ret None
  | Prepend v => prepend v ;;; ret None
  | PopFront => let* v := pop_front in ret (Some v)
  | PopBack => let* v := pop_back in ret (Some v)
  end.

(** A client making the calls [ops] one after the other on [self],
    going on after a call that raised. *)
Definition run (self : t) (ops : list op) : t :=
  foldl (λ s o, state_after (call o s) s) self ops.

(** The node before position [i] of [ls]. *)
Definition before (ls : list loc) (i : nat) : option loc :=
  match i with
  | O => None
  | S j => ls !! j
  end.

(** [rep self ls]: the list object consists of exactly the nodes [ls],
    in this order, linked in both directions. *)
Definition rep (self : t) (ls : list loc) : Prop :=
  NoDup ls ∧
  _head self = head ls ∧
  _tail self = last ls ∧
  _size self = Z.of_nat (length ls) ∧
  ∀ i l, ls !! i = Some l →
    ∃ v, store self !! l = Some (mkNode v (before ls i) (ls !! S i)).

(** The structural invariant of §3. *)
Definition structural_invariant (self : t) : Prop :=
  (_size self = 0 ↔ _head self = None ∧ _tail self = None) ∧
  (_size self = 1 → _head self = _tail self) ∧
  ∃ ls,
    (∀ fuel, (length ls < fuel)%nat →
       nodes_from (store self) fuel (_head self) = Some ls) ∧
    Z.of_nat (length ls) = _size self ∧
    last ls = _tail self.

(** The symmetric-linkage invariant of §3, over the nodes [ls] of the
    list (those the walk from [_head] meets): the [next] of a node points
    to a node whose [prev] points back, and the outward links of the two
    ends are [None]. *)
Definition symmetric_linkage (self : t) : Prop :=
  ∃ ls,
    (∀ fuel, (length ls < fuel)%nat →
       nodes_from (store self) fuel (_head self) = Some ls) ∧
    (∀ a b na, a ∈ ls → store self !! a = Some na → next na = Some b →
       ∃ nb, store self !! b = Some nb ∧ prev nb = Some a) ∧
    (∀ h, _head self = Some h →
       ∃ nh, store self !! h = Some nh ∧ prev nh = None) ∧
    (∀ tl, _tail self = Some tl →
       ∃ ntl, store self !! tl = Some ntl ∧ next ntl = None).

End DoublyLinkedList.

Module DLL := DoublyLinkedList.


(** ** linear.py: the array-backed containers *)

(** Built-in list operations that can raise. *)
Module PyList.
Import Py.

(** The position a Python index denotes in a list of length [n]: negative
    indices count from the end. *)
Definition position (n : nat) (i : Z) : option nat :=
  let j := if decide (i < 0) then i + Z.of_nat n else i in
  if decide (0 ≤ j < Z.of_nat n) then Some (Z.to_nat j) else None.

(** [l[i]] *)
Definition getitem {S A} (l : list A) (i : Z) : M S A :=
  match position (length l) i ≫= (l !!.) with
  | Some x => ret x
  | None => raise (Builtin "IndexError")
  end.

(** [l[i] = x], as the list after the assignment *)
Definition setitem {S A} (l : list A) (i : Z) (x : A) : M S (list A) :=
  match position (length l) i with
  | Some j => ret (<[j := x]> l)
  | None => raise (Builtin "IndexError")
  end.

(** The largest [Py_ssize_t] (of a 64-bit build). *)
Definition PY_SSIZE_T_MAX : Z := 2 ^ 63 - 1.

(** [l.insert(i, x)], as the list after the call: the index is converted
    to a [Py_ssize_t], which raises [OverflowError] when it does not fit,
    and is then clamped to the list. *)
Definition insert {S A} (l : list A) (i : Z) (x : A) : M S (list A) :=
  if decide (- PY_SSIZE_T_MAX - 1 ≤ i ≤ PY_SSIZE_T_MAX) then
    let n := Z.of_nat (length l) in
    let j := if decide (i < 0) then Z.max 0 (i + n) else Z.min i n in
    ret (take (Z.to_nat j) l ++ x :: drop (Z.to_nat j) l)
  else raise (Builtin "OverflowError").

(** [l.remove(x)]: the list without the first occurrence of [x]. *)
Fixpoint remove_first (l : list Z) (x : Z) : option (list Z) :=
  match l with
  | [] => None
  | y :: l' =>
      if decide (y = x) then Some l'
      else (y ::.) <$> remove_first l' x
  end.

Definition remove {S} (l : list Z) (x : Z) : M S (list Z) :=
  match remove_first l x with
  | Some l' => ret l'
  | None => raise (Builtin "ValueError")
  end.

(** [a % b] on integers *)
Definition modulo {S} (a b : Z) : M S Z :=
  if decide (b = 0) then raise (Builtin "ZeroDivisionError")
  else ret (a `mod` b).

End PyList.

Module DynamicArray.

Record t : Type := mk { _data : list Z }.

(** [__init__]: [list(values)], or [[]] without values *)
Definition init (values : option (list Z)) : t :=
  {| _data := default [] values |}.

Definition append (value : Z) : Py.M t unit :=
  let* self := Py.get in Py.put {| _data := _data self ++ [value] |}.

Definition pop : Py.M t Z :=
  let* self := Py.get in
  match last (_data self) with
  | None => Py.raise (Py.IndexError "pop from empty DynamicArray")
  | Some v => Py.put {| _data := removelast (_data self) |} ;;; Py.ret v
  end.

Definition insert (index value : Z) : Py.M t unit :=
  let* self := Py.get in
  let* data := PyList.insert (_data self) index value in
  Py.put {| _data := data |}.

Definition remove (value : Z) : Py.M t unit :=
  let* self := Py.get in
  let* data := PyList.remove (_data self) value in
  Py.put {| _data := data |}.

Definition get (index : Z) : Py.M t Z :=
  let* self := Py.get in PyList.getitem (_data self) index.

Definition set (index value : Z) : Py.M t unit :=
  let* self := Py.get in
  let* data := PyList.setitem (_data self) index value in
  Py.put {| _data := data |}.

Definition to_list (self : t) : list Z := _data self.

(** [__len__] *)
Definition len (self : t) : Z := Z.of_nat (length (_data self)).

Inductive op : Type :=
| Append (v : Z) | Pop | Insert (i v : Z) | Remove (v : Z)
| Get (i : Z) | Set_ (i v : Z).

Definition call (o : op) : Py.M t (option Z) :=
  match o with
  | Append v => append v ;;; Py.ret None
  | Pop => let* v := pop in Py.ret (Some v)
  | Insert i v => insert i v ;;; Py.ret None
  | Remove v => remove v ;;; Py.ret None
  | Get i => let* v := get i in Py.ret (Some v)
  | Set_ i v => set i v ;;; Py.ret None
  end.

End DynamicArray.

Module Stack.
Import Py.

Record t : Type := mk { _items : list Z }.

Definition init (values : option (list Z)) : t :=
  {| _items := default [] values |}.

Definition push (value : Z) : M t unit :=
  let* self := get in put {| _items := _items self ++ [value] |}.

Definition pop : M t Z :=
  let* self := get in
  match last (_items self) with
  | None => raise (IndexError "pop from empty Stack")
  | Some v => put {| _items := removelast (_items self) |} ;;; ret v
  end.

Definition peek : M t Z :=
  let* self := get in
  match last (_items self) with
  | None => raise (IndexError "peek from empty Stack")
  | Some v => ret v
  end.

Definition is_empty (self : t) : bool := bool_decide (_items self = []).

Definition len (self : t) : Z := Z.of_nat (length (_items self)).

Inductive op : Type := Push (v : Z) | Pop | Peek.

Definition call (o : op) : M t (option Z) :=
  match o with
  | Push v => push v ;;; ret None
  | Pop => let* v := pop in ret (Some v)
  | Peek => let* v := peek in ret (Some v)
  end.

End Stack.

Module Queue.
Import Py.

(** The [deque] of items, front first. *)
Record t : Type := mk { _items : list Z }.

Definition init (values : option (list Z)) : t :=
  {| _items := default [] values |}.

Definition enqueue (value : Z) : M t unit :=
  let* self := get in put {| _items := _items self ++ [value] |}.

Definition dequeue : M t Z :=
  let* self := get in
  match _items self with
  | [] => raise (IndexError "dequeue from empty Queue")
  | v :: rest => put {| _items := rest |} ;;; ret v
  end.

Definition peek : M t Z :=
  let* self := get in
  match _items self with
  | [] => raise (IndexError "peek from empty Queue")
  | v :: _ => ret v
  end.

Definition is_empty (self : t) : bool := bool_decide (_items self = []).

Definition len (self : t) : Z := Z.of_nat (length (_items self)).

Inductive op : Type := Enqueue (v : Z) | Dequeue | Peek.

Definition call (o : op) : M t (option Z) :=
  match o with
  | Enqueue v => enqueue v ;;; ret None
  | Dequeue => let* v := dequeue in ret (Some v)
  | Peek => let* v := peek in ret (Some v)
  end.

End Queue.

Module Deque.
Import Py.

(** The [deque] of items, left first. *)
Record t : Type := mk { _items : list Z }.

Definition init (values : option (list Z)) : t :=
  {| _items := default [] values |}.

Definition append_left (value : Z) : M t unit :=
  let* self := get in put {| _items := value :: _items self |}.

Definition append_right (value : Z) : M t unit :=
  let* self := get in put {| _items := _items self ++ [value] |}.

Definition pop_left : M t Z :=
  let* self := get in
  match _items self with
  | [] => raise (IndexError "pop_left from empty Deque")
  | v :: rest => put {| _items := rest |} ;;; ret v
  end.

Definition pop_right : M t Z :=
  let* self := get in
  match last (_items self) with
  | None => raise (IndexError "pop_right from empty Deque")
  | Some v => put {| _items := removelast (_items self) |} ;;; ret v
  end.

Definition len (self : t) : Z := Z.of_nat (length (_items self)).

Inductive op : Type :=
| AppendLeft (v : Z) | AppendRight (v : Z) | PopLeft | PopRight.

Definition call (o : op) : M t (option Z) :=
  match o with
  | AppendLeft v => append_left v ;;; ret None
  | AppendRight v => append_right v ;;; ret None
  | PopLeft => let* v := pop_left in ret (Some v)
  | PopRight => let* v := pop_right in ret (Some v)
  end.

End Deque.

Module CircularQueue.
Import Py.

(** The slots hold a value or [None]. *)
Record t : Type := mk {
  _capacity : Z;
  _data : list (option Z);
  _front : Z;
  _size : Z
}.

(** [__init__]: the new object, or the exception of the constructor. *)
Definition init (capacity : Z) : exn + t :=
  if decide (capacity ≤ 0) then inl (ValueError "capacity must be > 0")
  else inr {| _capacity := capacity;
              _data := replicate (Z.to_nat capacity) None;
              _front := 0; _size := 0 |}.

Definition set_data (data : list (option Z)) : M t unit :=
  let* self := get in
  put {| _capacity := _capacity self; _data := data; _front := _front self;
         _size := _size self |}.

Definition set_front (front : Z) : M t unit :=
  let* self := get in
  put {| _capacity := _capacity self; _data := _data self; _front := front;
         _size := _size self |}.

Definition set_size (size : Z) : M t unit :=
  let* self := get in
  put {| _capacity := _capacity self; _data := _data self;
         _front := _front self; _size := size |}.

Definition enqueue (value : Z) : M t unit :=
  let* self := get in
  if decide (_size self = _capacity self) then
    raise (OverflowError "enqueue to full CircularQueue")
  else
    let* idx := PyList.modulo (_front self + _size self) (_capacity self) in
    let* data := PyList.setitem (_data self) idx (Some value) in
    set_data data ;;;
    let* self := get in
    set_size (_size self + 1).

Definition dequeue : M t (option Z) :=
  let* self := get in
  if decide (_size self = 0) then
    raise (IndexError "dequeue from empty CircularQueue")
  else
    let* value := PyList.getitem (_data self) (_front self) in
    let* data := PyList.setitem (_data self) (_front self) None in
    set_data data ;;;
    let* self := get in
    let* front := PyList.modulo (_front self + 1) (_capacity self) in
    set_front front ;;;
    let* self := get in
    set_size (_size self - 1) ;;;
    ret value.

Definition len (self : t) : Z := _size self.

Inductive op : Type := Enqueue (v : Z) | Dequeue.

Definition call (o : op) : M t (option Z) :=
  match o with
  | Enqueue v => enqueue v ;;; ret None
  | Dequeue => dequeue
  end.

Definition run (self : t) (ops : list op) : t :=
  foldl (λ s o, state_after (call o s) s) self ops.

End CircularQueue.

(** ** map.py: [HashMap] and [HashSet] *)

Module HashMap.

Record t : Type := mk { _data : gmap Z Z }.

Definition empty : t := {| _data := ∅ |}.

Definition put (key value : Z) : Py.M t unit :=
  let* self := Py.get in Py.put {| _data := <[key := value]> (_data self) |}.

Definition get (key : Z) : Py.M t Z :=
  let* self := Py.get in
  match _data self !! key with
  | None => Py.raise (Py.KeyError key)
  | Some v => Py.ret v
  end.

Definition remove (key : Z) : Py.M t Z :=
  let* self := Py.get in
  match _data self !! key with
  | None => Py.raise (Py.KeyError key)
  | Some v => Py.put {| _data := delete key (_data self) |} ;;; Py.ret v
  end.

Definition len (self : t) : Z := Z.of_nat (size (_data self)).

Inductive op : Type := Put (k v : Z) | Get (k : Z) | Remove (k : Z).

Definition call (o : op) : Py.M t (option Z) :=
  match o with
  | Put k v => put k v ;;; Py.ret None
  | Get k => let* v := get k in Py.ret (Some v)
  | Remove k => let* v := remove k in Py.ret (Some v)
  end.

End HashMap.

Module HashSet.
Import Py.

Record t : Type := mk { _data : gset Z }.

Definition empty : t := {| _data := ∅ |}.

Definition add (value : Z) : M t unit :=
  let* self := get in put {| _data := {[value]} ∪ _data self |}.

(** [set.remove] raises [KeyError] for an absent element. *)
Definition remove (value : Z) : M t unit :=
  let* self := get in
  if decide (value ∈ _data self) then put {| _data := _data self ∖ {[value]} |}
  else raise (KeyError value).

Definition contains (self : t) (value : Z) : bool :=
  bool_decide (value ∈ _data self).

Definition len (self : t) : Z := Z.of_nat (size (_data self)).

Inductive op : Type := Add (v : Z) | Remove (v : Z).

Definition call (o : op) : M t unit :=
  match o with
  | Add v => add v
  | Remove v => remove v
  end.

End HashSet.

(** ** heap.py: [MinHeap], [MaxHeap] and [PriorityQueue]

    The heaps keep their list in the order of the standard [heapq] module,
    whose functions are parameters here: [heapify], [heappush] and
    [heappop] on a list of elements of type [A], [heappop] returning the
    smallest element and the remaining heap. *)

Module MinHeap.
Section heapq.
Variable heapify : list Z → list Z.
Variable heappush : list Z → Z → list Z.
Variable heappop : list Z → Z * list Z.

Record t : Type := mk { _heap : list Z }.

Definition init (values : option (list Z)) : t :=
  {| _heap := heapify (default [] values) |}.

Definition push (value : Z) : Py.M t unit :=
  let* self := Py.get in Py.put {| _heap := heappush (_heap self) value |}.

Definition pop : Py.M t Z :=
  let* self := Py.get in
  match _heap self with
  | [] => Py.raise (Py.IndexError "pop from empty MinHeap")
  | _ :: _ =>
      let '(v, heap) := heappop (_heap self) in
      Py.put {| _heap := heap |} ;;; Py.ret v
  end.

Definition peek : Py.M t Z :=
  let* self := Py.get in
  match _heap self with
  | [] => Py.raise (Py.IndexError "peek from empty MinHeap")
  | v :: _ => Py.ret v
  end.

Definition len (self : t) : Z := Z.of_nat (length (_heap self)).

Inductive op : Type := Push (v : Z) | Pop | Peek.

Definition call (o : op) : Py.M t (option Z) :=
  match o with
  | Push v => push v ;;; Py.ret None
  | Pop => let* v := pop in Py.ret (Some v)
  | Peek => let* v := peek in Py.ret (Some v)
  end.

End heapq.
End MinHeap.

Module MaxHeap.
Section heapq.
Variable heappush : list (Z * Z) → Z * Z → list (Z * Z).
Variable heappop : list (Z * Z) → (Z * Z) * list (Z * Z).

(** The pairs [(-value, value)]. *)
Record t : Type := mk { _heap : list (Z * Z) }.

Definition empty : t := {| _heap := [] |}.

Definition push (value : Z) : Py.M t unit :=
  let* self := Py.get in
  Py.put {| _heap := heappush (_heap self) (- value, value) |}.

Definition pop : Py.M t Z :=
  let* self := Py.get in
  match _heap self with
  | [] => Py.raise (Py.IndexError "pop from empty MaxHeap")
  | _ :: _ =>
      let '(item, heap) := heappop (_heap self) in
      Py.put {| _heap := heap |} ;;; Py.ret item.2
  end.

Definition peek : Py.M t Z :=
  let* self := Py.get in
  match _heap self with
  | [] => Py.raise (Py.IndexError "peek from empty MaxHeap")
  | item :: _ => Py.ret item.2
  end.

Definition len (self : t) : Z := Z.of_nat (length (_heap self)).

Inductive op : Type := Push (v : Z) | Pop | Peek.

Definition call (o : op) : Py.M t (option Z) :=
  match o with
  | Push v => push v ;;; Py.ret None
  | Pop => let* v := pop in Py.ret (Some v)
  | Peek => let* v := peek in Py.ret (Some v)
  end.

End heapq.
End MaxHeap.

Module PriorityQueue.
Section heapq.
Variable heappush : list (Z * Z * Z) → Z * Z * Z → list (Z * Z * Z).
Variable heappop : list (Z * Z * Z) → (Z * Z * Z) * list (Z * Z * Z).

(** The triples [(priority, seq, item)] and the counter [_seq]. *)
Record t : Type := mk { _heap : list (Z * Z * Z); _seq : Z }.

Definition empty : t := {| _heap := []; _seq := 0 |}.

Definition put (item priority : Z) : Py.M t unit :=
  (let* self := Py.get in
   Py.put {| _heap := _heap self; _seq := _seq self + 1 |}) ;;;
  let* self := Py.get in
  Py.put {| _heap := heappush (_heap self) (priority, _seq self, item);
            _seq := _seq self |}.

Definition get : Py.M t Z :=
  let* self := Py.get in
  match _heap self with
  | [] => Py.raise (Py.IndexError "get from empty PriorityQueue")
  | _ :: _ =>
      let '(entry, heap) := heappop (_heap self) in
      Py.put {| _heap := heap; _seq := _seq self |} ;;; Py.ret entry.2
  end.

Definition len (self : t) : Z := Z.of_nat (length (_heap self)).

Inductive op : Type := Put (item priority : Z) | Get.

Definition call (o : op) : Py.M t (option Z) :=
  match o with
  | Put item priority => put item priority ;;; Py.ret None
  | Get => let* v := get in Py.ret (Some v)
  end.

End heapq.
End PriorityQueue.

(** ** graph.py: [Graph] *)

Module Graph.
Import Py.

Record t : Type := mk { _adjacency : gmap Z (gset Z); _directed : bool }.

Definition init (directed : bool) : t :=
  {| _adjacency := ∅; _directed := directed |}.

Definition set_adjacency (adjacency : gmap Z (gset Z)) : M t unit :=
  let* self := get in
  put {| _adjacency := adjacency; _directed := _directed self |}.

(** [self._adjacency.setdefault(vertex, set())] *)
Definition add_vertex (vertex : Z) : M t unit :=
  let* self := get in
  match _adjacency self !! vertex with
  | Some _ => ret tt
  | None => set_adjacency (<[vertex := ∅]> (_adjacency self))
  end.

(** [self._adjacency[u].add(v)] *)
Definition add_neighbor (u v : Z) : M t unit :=
  let* self := get in
  match _adjacency self !! u with
  | Some ns => set_adjacency (<[u := {[v]} ∪ ns]> (_adjacency self))
  | None => raise (KeyError u)
  end.

Definition add_edge (source destination : Z) : M t unit :=
  add_vertex source ;;;
  add_vertex destination ;;;
  add_neighbor source destination ;;;
  let* self := get in
  if _directed self then ret tt else add_neighbor destination source.

Definition neighbors (vertex : Z) : M t (gset Z) :=
  let* self := get in
  match _adjacency self !! vertex with
  | None => raise (KeyErrorMsg ("vertex " +:+ pretty vertex +:+ " does not exist"))
  | Some ns => ret ns
  end.

Definition len (self : t) : Z := Z.of_nat (size (_adjacency self)).

Inductive op : Type :=
| AddVertex (v : Z) | AddEdge (s d : Z) | Neighbors (v : Z).

Definition call (o : op) : M t (option (gset Z)) :=
  match o with
  | AddVertex v => add_vertex v ;;; ret None
  | AddEdge s d => add_edge s d ;;; ret None
  | Neighbors v => let* ns := neighbors v in ret (Some ns)
  end.

End Graph.

(* ===================================================================== *)
(** * Part I, continued: definitions for the further properties          *)
(* ===================================================================== *)

(** ** BinarySearchTree: shape of the tree *)

Module BSTShape.

(** The tree in which every node has only a right child, holding [values]
    from the root down. *)
Definition right_spine (values : list Z) : BST.tree :=
  foldr (λ v below, BST.BSTNode v BST.Nil below) BST.Nil values.

End BSTShape.

(** ** The linked lists as sequences *)

Module SLLSeq.

(** [SinglyLinkedList.__init__]: with values that are neither [None] nor
    empty, one [append] per value. *)
Definition init (values : option (list Z)) : SLL.t :=
  match values with
  | None | Some [] => SLL.empty
  | Some vs => foldl (λ s v, Py.state_after (SLL.append v s) s) SLL.empty vs
  end.

(** What a method does to the sequence of the values of the list. *)
Definition step (vs : list Z) (o : SLL.op) : list Z :=
  match o with
  | SLL.Prepend v => v :: vs
  | SLL.Append v => vs ++ [v]
  | SLL.PopFront => tail vs
  end.

(** [holds self ls vs]: the list object consists of the nodes [ls], which
    hold the values [vs]. *)
Definition holds (self : SLL.t) (ls : list SLL.loc) (vs : list Z) : Prop :=
  SLL.rep self ls ∧
  Forall2 (λ l v, SLL.value <$> SLL.store self !! l = Some v) ls vs.

End SLLSeq.

Module DLLSeq.

(** [DoublyLinkedList.__init__] *)
Definition init (values : option (list Z)) : DLL.t :=
  match values with
  | None | Some [] => DLL.empty
  | Some vs => foldl (λ s v, Py.state_after (DLL.append v s) s) DLL.empty vs
  end.

Definition step (vs : list Z) (o : DLL.op) : list Z :=
  match o with
  | DLL.Append v => vs ++ [v]
  | DLL.Prepend v => v :: vs
  | DLL.PopFront => tail vs
  | DLL.PopBack => removelast vs
  end.

Definition holds (self : DLL.t) (ls : list DLL.loc) (vs : list Z) : Prop :=
  DLL.rep self ls ∧
  Forall2 (λ l v, DLL.value <$> DLL.store self !! l = Some v) ls vs.

End DLLSeq.

(** ** CircularQueue as a bounded sequence *)

Module CQSeq.
Import Py.

(** The list built by [CircularQueue.__repr__]:
    [[self._data[(self._front + i) % self._capacity]
      for i in range(self._size)]]. *)
Definition item_at (self : CircularQueue.t) (i : Z) : M CircularQueue.t (option Z) :=
  let* k := PyList.modulo (CircularQueue._front self + i)
                          (CircularQueue._capacity self) in
  PyList.getitem (CircularQueue._data self) k.

Fixpoint collect {S A} (f : Z → M S A) (indices : list Z) : M S (list A) :=
  match indices with
  | [] => ret []
  | i :: rest =>
      let* x := f i in
      let* xs := collect f rest in
      ret (x :: xs)
  end.

Definition items : M CircularQueue.t (list (option Z)) :=
  let* self := get in
  collect (item_at self) (seqZ 0 (CircularQueue._size self)).

(** What a call does to the sequence of queued values, in a queue of the
    given capacity: [enqueue] on a full queue adds nothing. *)
Definition step (capacity : Z) (q : list Z) (o : CircularQueue.op) : list Z :=
  match o with
  | CircularQueue.Enqueue v =>
      if decide (Z.of_nat (length q) = capacity) then q else q ++ [v]
  | CircularQueue.Dequeue => tail q
  end.

(** [holds self q]: the ring buffer stores the values [q], oldest first,
    in the slots from [_front] on, wrapping around at [_capacity]. *)
Definition holds (self : CircularQueue.t) (q : list Z) : Prop :=
  0 < CircularQueue._capacity self ∧
  Z.of_nat (length (CircularQueue._data self)) = CircularQueue._capacity self ∧
  0 ≤ CircularQueue._front self < CircularQueue._capacity self ∧
  CircularQueue._size self = Z.of_nat (length q) ∧
  CircularQueue._size self ≤ CircularQueue._capacity self ∧
  ∀ (i : nat) v, q !! i = Some v →
    CircularQueue._data self
      !! Z.to_nat ((CircularQueue._front self + Z.of_nat i)
                   `mod` CircularQueue._capacity self) = Some (Some v).

End CQSeq.

(** ** Graph: vertices and edges *)

Module GraphInv.

(** A client making the calls [ops] one after the other. *)
Definition run (self : Graph.t) (ops : list Graph.op) : Graph.t :=
  foldl (λ s o, Py.state_after (Graph.call o s) s) self ops.

(** Every neighbour is itself a vertex. *)
Definition closed (self : Graph.t) : Prop :=
  ∀ u ns v, Graph._adjacency self !! u = Some ns → v ∈ ns →
            is_Some (Graph._adjacency self !! v).

(** Every edge is stored in both directions. *)
Definition symmetric (self : Graph.t) : Prop :=
  ∀ u ns v, Graph._adjacency self !! u = Some ns → v ∈ ns →
            ∃ ns', Graph._adjacency self !! v = Some ns' ∧ u ∈ ns'.

End GraphInv.
(* ===================================================================== *)
(** * Part II: properties                                                *)
(* ===================================================================== *)

(** ** BinarySearchTree *)

Example bst_scenario :
  let s := BST.insert_all BST.empty [10; 5; 15; 12; 18; 5] in
  BST.in_order 1000 s = ([5; 10; 12; 15; 18], None) ∧
  BST.pre_order 1000 s = ([10; 5; 15; 12; 18], None) ∧
  BST.post_order 1000 s = ([5; 12; 18; 15; 10], None) ∧
  BST.in_order 4 s = ([5; 10], Some Py.RecursionError) ∧
  BST.len s = 5.
Proof. vm_compute. done. Qed.

Lemma bst_insert_walk_elem_of value node x :
  x ∈ BST.in_order_values (BST.insert_walk value node).1 ↔
  x = value ∨ x ∈ BST.in_order_values node.
Proof.
  induction node as [|v l IHl r IHr]; simpl.
  - set_solver.
  - repeat case_decide.
    + destruct (BST.insert_walk value l) as [l' c]; simpl in *. set_solver.
    + destruct (BST.insert_walk value r) as [r' c]; simpl in *. set_solver.
    + assert (value = v) by lia. simpl. set_solver.
Qed.

Lemma bst_insert_walk_ordered value node :
  BST.ordered node → BST.ordered (BST.insert_walk value node).1.
Proof.
  induction node as [|v l IHl r IHr]; simpl.
  - intros _. repeat split; constructor.
  - intros (Hl & Hr & Ol & Or). repeat case_decide.
    + pose proof (bst_insert_walk_elem_of value l) as He.
      destruct (BST.insert_walk value l) as [l' c]; simpl in *.
      repeat split; auto. apply Forall_forall. intros x Hx.
      apply He in Hx as [->|Hx]; [done|]. by eapply Forall_forall in Hl.
    + pose proof (bst_insert_walk_elem_of value r) as He.
      destruct (BST.insert_walk value r) as [r' c]; simpl in *.
      repeat split; auto. apply Forall_forall. intros x Hx.
      apply He in Hx as [->|Hx]; [lia|]. by eapply Forall_forall in Hr.
    + simpl. auto.
Qed.

Lemma bst_ordered_sorted node :
  BST.ordered node → StronglySorted Z.lt (BST.in_order_values node).
Proof.
  induction node as [|v l IHl r IHr]; simpl.
  - constructor.
  - intros (Hl & Hr & Ol & Or). apply StronglySorted_app_2; auto.
    + intros x1 x2 H1 H2. eapply Forall_forall in Hl; [|done].
      apply elem_of_cons in H2 as [->|H2]; [done|].
      eapply Forall_forall in Hr; [|done]. lia.
    + constructor; auto.
Qed.

Lemma bst_insert_walk_length value node :
  length (BST.in_order_values (BST.insert_walk value node).1) =
  (length (BST.in_order_values node) +
     if (BST.insert_walk value node).2 then 1 else 0)%nat.
Proof.
  induction node as [|v l IHl r IHr]; simpl; [done|].
  repeat case_decide.
  - destruct (BST.insert_walk value l) as [l' c]; simpl in *.
    rewrite !length_app, IHl. simpl. lia.
  - destruct (BST.insert_walk value r) as [r' c]; simpl in *.
    rewrite !length_app. simpl. rewrite IHr. lia.
  - simpl. lia.
Qed.

Lemma bst_insert_built self values value :
  BST.built_from self values → BST.built_from (BST.insert self value) (values ++ [value]).
Proof.
  intros (Ho & He & Hs). unfold BST.insert in *.
  pose proof (bst_insert_walk_ordered value (BST._root self) Ho) as Ho'.
  pose proof (bst_insert_walk_elem_of value (BST._root self)) as He'.
  pose proof (bst_insert_walk_length value (BST._root self)) as Hl'.
  destruct (BST.insert_walk value (BST._root self)) as [root' c]; simpl in *.
  split_and!; [done| |].
  - intros x. rewrite He', He. set_solver.
  - simpl. rewrite Hl', Hs. destruct c; lia.
Qed.

Lemma bst_insert_all_built self values more :
  BST.built_from self values → BST.built_from (BST.insert_all self more) (values ++ more).
Proof.
  revert self values. induction more as [|v more IH]; intros self values H; simpl.
  - by rewrite app_nil_r.
  - replace (values ++ v :: more) with ((values ++ [v]) ++ more)
      by (by rewrite <- app_assoc).
    apply IH. by apply bst_insert_built.
Qed.

Lemma bst_empty_built : BST.built_from BST.empty [].
Proof. split_and!; simpl; [done| |done]. intros x. set_solver. Qed.

Lemma bst_in_order_strict (values : list Z) :
  StronglySorted Z.lt (BST.in_order_values (BST._root (BST.insert_all BST.empty values))).
Proof.
  destruct (bst_insert_all_built BST.empty [] values bst_empty_built) as (Ho & _).
  by apply bst_ordered_sorted.
Qed.

Lemma StronglySorted_lt_NoDup (l : list Z) : StronglySorted Z.lt l → NoDup l.
Proof.
  induction 1 as [|x l Hs IH Hx]; constructor; auto.
  intros Hin. eapply Forall_forall in Hx; [|done]. lia.
Qed.

(** The generators against the values of the tree: a walk that finds
    enough frames yields them all, and one that does not raises
    [RecursionError] after a part of them. *)
Lemma bst_in_order_walk_complete (frames : nat) (node : BST.tree) :
  (BST.height node < frames)%nat →
  BST.in_order_walk frames node = (BST.in_order_values node, None).
Proof.
  revert frames. induction node as [|v l IHl r IHr]; intros [|frames] H;
    simpl in *; try lia; [done|].
  rewrite IHl, IHr by lia. done.
Qed.

Lemma bst_in_order_walk_raises (frames : nat) (node : BST.tree) :
  (frames ≤ BST.height node)%nat →
  ∃ ys, BST.in_order_walk frames node = (ys, Some Py.RecursionError) ∧
        ys `prefix_of` BST.in_order_values node ∧
        (node ≠ BST.Nil →
         (length ys < length (BST.in_order_values node))%nat).
Proof.
  revert frames. induction node as [|v l IHl r IHr]; intros [|frames] H;
    simpl in *; try lia.
  - exists []. split_and!; [done|apply prefix_nil|done].
  - exists []. split_and!; [done|apply prefix_nil|].
    intros _. rewrite length_app. simpl. lia.
  - destruct (decide (frames ≤ BST.height l)%nat) as [Hl|Hl].
    + destruct (IHl frames Hl) as (ys & -> & Hp & _).
      exists ys. split_and!; [done|by apply prefix_app_r|].
      intros _. apply prefix_length in Hp. rewrite length_app. simpl. lia.
    + rewrite bst_in_order_walk_complete by lia.
      destruct (IHr frames ltac:(lia)) as (ys & Hr & Hp & Hlt).
      simpl. rewrite Hr.
      exists (BST.in_order_values l ++ v :: ys). split_and!; [done| |].
      * by apply prefix_app, prefix_cons.
      * intros _. rewrite !length_app. simpl.
        assert (r ≠ BST.Nil) as Hnil by (intros ->; simpl in *; lia).
        specialize (Hlt Hnil). lia.
Qed.

(** C1, as amended: for every finite sequence of inserted values, [len()]
    is the number of distinct values inserted, and what [in_order] yields
    is strictly ascending and was inserted.  When the interpreter can
    still enter more frames than the height of the tree plus one, that is
    every distinct value inserted; on a deeper tree the generator ends in
    [RecursionError] with some value not yielded. *)
Theorem bst_in_order_sorted_distinct (values : list Z) (frames : nat) :
  let self := BST.insert_all BST.empty values in
  ∃ out e,
    BST.in_order frames self = (out, e) ∧
    StronglySorted Z.le out ∧ NoDup out ∧ (∀ x, x ∈ out → x ∈ values) ∧
    BST.len self = Z.of_nat (length (remove_dups values)) ∧
    ((BST.height (BST._root self) + 1 < frames)%nat →
     e = None ∧ length out = length (remove_dups values)) ∧
    ((frames ≤ BST.height (BST._root self) + 1)%nat →
     e = Some Py.RecursionError ∧
     (values ≠ [] → (length out < length (remove_dups values))%nat)).
Proof.
  intros self.
  destruct (bst_insert_all_built BST.empty [] values bst_empty_built)
    as (Ho & He & Hs). fold self in Ho, He, Hs. simpl in He.
  pose proof (bst_in_order_strict values) as Hlt. fold self in Hlt.
  assert (length (BST.in_order_values (BST._root self))
          = length (remove_dups values)) as Hlen.
  { apply Permutation_length, NoDup_Permutation.
    - by apply StronglySorted_lt_NoDup.
    - apply NoDup_remove_dups.
    - intros x. by rewrite He, elem_of_remove_dups. }
  assert (∀ out, out `prefix_of` BST.in_order_values (BST._root self) →
            StronglySorted Z.le out ∧ NoDup out ∧
            (∀ x, x ∈ out → x ∈ values)) as Hpre.
  { intros out [k Hk].
    assert (StronglySorted Z.lt out) as Hout.
    { rewrite Hk in Hlt. by apply StronglySorted_app_1_l in Hlt. }
    split_and!.
    - clear -Hout. induction Hout as [|x l Hs IH Hx]; constructor; [done|].
      eapply Forall_impl; [done|]. simpl. lia.
    - by apply StronglySorted_lt_NoDup.
    - intros x Hx. apply He. rewrite Hk. set_solver. }
  assert (BST.len self = Z.of_nat (length (remove_dups values))) as Hsize.
  { unfold BST.len. by rewrite Hs, Hlen. }
  destruct frames as [|frames].
  { exists [], (Some Py.RecursionError).
    destruct (Hpre []) as (? & ? & ?); [apply prefix_nil|].
    split_and!; try done; [lia|].
    intros _. split; [done|]. intros Hv. rewrite <- Hlen. simpl.
    destruct (BST.in_order_values (BST._root self)) eqn:E; [|simpl; lia].
    destruct values as [|v values]; [done|].
    specialize (He v). set_solver. }
  destruct (decide (BST.height (BST._root self) < frames)%nat) as [Hh|Hh].
  - exists (BST.in_order_values (BST._root self)), None.
    destruct (Hpre (BST.in_order_values (BST._root self))) as (? & ? & ?);
      [done|].
    split_and!; try done.
    + simpl. by apply bst_in_order_walk_complete.
    + lia.
  - destruct (bst_in_order_walk_raises frames (BST._root self))
      as (ys & Hrun & Hp & Hshort); [lia|].
    exists ys, (Some Py.RecursionError).
    destruct (Hpre ys Hp) as (? & ? & ?).
    split_and!; try done; [lia|].
    intros _. split; [done|]. intros Hv. rewrite <- Hlen. apply Hshort.
    intros Hnil. rewrite Hnil in He. simpl in He.
    destruct values as [|v values]; [done|]. specialize (He v). set_solver.
Qed.

(** The complete branch of C1 on the tree of [bst_scenario]. *)
Lemma bst_in_order_sorted_distinct_witness :
  ∃ out,
    BST.in_order 1000 (BST.insert_all BST.empty [10; 5; 15; 12; 18; 5])
    = (out, None) ∧
    length out = 5%nat.
Proof.
  destruct (bst_in_order_sorted_distinct [10; 5; 15; 12; 18; 5] 1000)
    as (out & e & Hrun & _ & _ & _ & _ & Hdone & _).
  destruct Hdone as [-> Hlen]; [vm_compute; lia|].
  exists out. split; [exact Hrun|exact Hlen].
Defined.

(** C1 as the design document states it fails on a deep tree: after
    inserting 1, 2, ..., 1200 in this order [len()] is 1200, but with 998
    frames left (a recursion limit of 1000 and a consumer two frames
    deep) [in_order] yields 1, ..., 996 and ends in [RecursionError]. *)
Lemma bst_in_order_deep_tree_raises :
  let values := seqZ 1 1200 in
  let self := BST.insert_all BST.empty values in
  BST.len self = 1200 ∧
  BST.in_order 998 self = (seqZ 1 996, Some Py.RecursionError) ∧
  ¬ ∃ out, BST.in_order 998 self = (out, None) ∧
           length out = length (remove_dups values).
Proof.
  intros values self.
  assert (BST.in_order 998 self = (seqZ 1 996, Some Py.RecursionError))
    as Hrun by (vm_compute; reflexivity).
  split_and!; [vm_compute; reflexivity|exact Hrun|].
  intros (out & Hout & _). rewrite Hrun in Hout. discriminate.
Qed.

Lemma bst_contains_walk_insert value node :
  BST.contains_walk value (BST.insert_walk value node).1 = true.
Proof.
  induction node as [|v l IHl r IHr]; simpl.
  - repeat case_decide; (lia || done).
  - repeat case_decide.
    + destruct (BST.insert_walk value l) as [l' c]; simpl in *.
      by rewrite decide_True.
    + destruct (BST.insert_walk value r) as [r' c]; simpl in *.
      by rewrite decide_False, decide_True.
    + simpl. by rewrite !decide_False.
Qed.

Lemma bst_contains_walk_mono value x node :
  BST.contains_walk value node = true →
  BST.contains_walk value (BST.insert_walk x node).1 = true.
Proof.
  induction node as [|v l IHl r IHr]; simpl; [done|]. intros Hc.
  destruct (decide (x < v)); [|destruct (decide (x > v))].
  - destruct (BST.insert_walk x l) as [l' c]; simpl in *.
    repeat case_decide; auto.
  - destruct (BST.insert_walk x r) as [r' c]; simpl in *.
    repeat case_decide; auto.
  - simpl. done.
Qed.

Lemma bst_insert_walk_present value node :
  BST.contains_walk value node = true →
  BST.insert_walk value node = (node, false).
Proof.
  induction node as [|v l IHl r IHr]; simpl; [done|]. intros Hc.
  repeat case_decide; [by rewrite IHl|by rewrite IHr|done].
Qed.

Lemma bst_insert_present self value :
  BST.contains self value = true → BST.insert self value = self.
Proof.
  unfold BST.contains, BST.insert. intros Hc.
  rewrite bst_insert_walk_present by done. by destruct self.
Qed.

Lemma bst_contains_insert_all self value more :
  BST.contains self value = true →
  BST.contains (BST.insert_all self more) value = true.
Proof.
  revert self. induction more as [|x more IH]; intros self Hc; simpl; [done|].
  apply IH. unfold BST.contains, BST.insert in *.
  pose proof (bst_contains_walk_mono value x _ Hc) as Hm.
  by destruct (BST.insert_walk x (BST._root self)).
Qed.

Lemma bst_contains_insert self value :
  BST.contains (BST.insert self value) value = true.
Proof.
  unfold BST.contains, BST.insert.
  pose proof (bst_contains_walk_insert value (BST._root self)) as Hm.
  by destruct (BST.insert_walk value (BST._root self)).
Qed.

(** A value that has been inserted is skipped by every later [insert]:
    the whole state, not only what is observed of it, stays the same. *)
Lemma bst_reinsert_noop self value more :
  let s1 := BST.insert_all (BST.insert self value) more in
  BST.insert s1 value = s1.
Proof.
  intros s1. apply bst_insert_present, bst_contains_insert_all,
    bst_contains_insert.
Qed.

(** ** Trie *)

Example trie_scenario :
  let s := Trie.insert_all Trie.empty [Trie.str "apple"; Trie.str "app"] in
  Trie.search s (Trie.str "app") = true ∧
  Trie.search s (Trie.str "appl") = false ∧
  Trie.starts_with s (Trie.str "ap") = true ∧ Trie.len s = 2.
Proof. vm_compute. done. Qed.

Lemma trie_search_walk_new word : Trie.search_walk word Trie.new_node = false.
Proof. by destruct word. Qed.

Lemma trie_starts_with_walk_new prefix :
  Trie.starts_with_walk prefix Trie.new_node = true → prefix = [].
Proof. by destruct prefix. Qed.

Lemma trie_search_walk_insert word p node :
  Trie.search_walk p (Trie.insert_walk word node).1 =
  bool_decide (p = word) || Trie.search_walk p node.
Proof.
  revert p node. induction word as [|ch rest IH]; intros p node; simpl.
  - destruct (Trie.is_end node) eqn:He; destruct p; simpl; auto.
  - specialize (IH (tail p) (default Trie.new_node (Trie.children node !! ch))).
    destruct (Trie.insert_walk rest _) as [child' m]; simpl in *.
    destruct p as [|c p']; simpl in *; [done|].
    destruct (decide (ch = c)) as [->|Hne].
    + rewrite lookup_insert_eq, IH.
      destruct (Trie.children node !! c); simpl.
      * f_equal. apply bool_decide_ext. naive_solver.
      * rewrite trie_search_walk_new, !orb_false_r.
        apply bool_decide_ext. naive_solver.
    + rewrite lookup_insert_ne by done.
      rewrite bool_decide_eq_false_2 by naive_solver. done.
Qed.

Lemma trie_starts_with_walk_insert word p node :
  Trie.starts_with_walk p (Trie.insert_walk word node).1 =
  bool_decide (p `prefix_of` word) || Trie.starts_with_walk p node.
Proof.
  revert p node. induction word as [|ch rest IH]; intros p node; simpl.
  - destruct p as [|c p']; simpl.
    + by destruct (Trie.is_end node).
    + by destruct (Trie.is_end node).
  - specialize (IH (tail p) (default Trie.new_node (Trie.children node !! ch))).
    destruct (Trie.insert_walk rest _) as [child' m]; simpl in *.
    destruct p as [|c p']; simpl in *; [done|].
    destruct (decide (ch = c)) as [->|Hne].
    + rewrite lookup_insert_eq, IH.
      assert (bool_decide ((c :: p') `prefix_of` (c :: rest)) =
              bool_decide (p' `prefix_of` rest)) as ->.
      { apply bool_decide_ext. split; [apply prefix_cons_inv_2|apply prefix_cons]. }
      destruct (Trie.children node !! c); simpl; [done|].
      rewrite orb_false_r. destruct (bool_decide (p' `prefix_of` rest)) eqn:Hp;
        simpl; [done|].
      destruct (Trie.starts_with_walk p' Trie.new_node) eqn:Hs; [|done].
      apply trie_starts_with_walk_new in Hs as ->.
      apply bool_decide_eq_false in Hp. destruct Hp. apply prefix_nil.
    + rewrite lookup_insert_ne by done.
      rewrite bool_decide_eq_false_2; [done|].
      intros Hp. by apply prefix_cons_inv_1 in Hp.
Qed.

Lemma trie_search_insert self word p :
  Trie.search (Trie.insert self word) p =
  bool_decide (p = word) || Trie.search self p.
Proof.
  unfold Trie.search, Trie.insert.
  pose proof (trie_search_walk_insert word p (Trie._root self)) as H.
  by destruct (Trie.insert_walk word (Trie._root self)).
Qed.

Lemma trie_starts_with_insert self word p :
  Trie.starts_with (Trie.insert self word) p =
  bool_decide (p `prefix_of` word) || Trie.starts_with self p.
Proof.
  unfold Trie.starts_with, Trie.insert.
  pose proof (trie_starts_with_walk_insert word p (Trie._root self)) as H.
  by destruct (Trie.insert_walk word (Trie._root self)).
Qed.

Lemma trie_search_insert_all self words p :
  Trie.search (Trie.insert_all self words) p = true ↔
  p ∈ words ∨ Trie.search self p = true.
Proof.
  revert self. induction words as [|w words IH]; intros self; simpl.
  - set_solver.
  - rewrite IH, trie_search_insert, orb_true_iff, bool_decide_eq_true.
    set_solver.
Qed.

Lemma trie_starts_with_insert_all self words p :
  Trie.starts_with (Trie.insert_all self words) p = true ↔
  (∃ w, w ∈ words ∧ p `prefix_of` w) ∨ Trie.starts_with self p = true.
Proof.
  revert self. induction words as [|w words IH]; intros self; simpl.
  - set_solver.
  - rewrite IH, trie_starts_with_insert, orb_true_iff, bool_decide_eq_true.
    set_solver.
Qed.

(** C5: in a trie built by any sequence of [insert] calls, [starts_with]
    accepts every prefix of every inserted word (the word itself included),
    and [search] accepts exactly the words that were inserted, so a proper
    prefix of a stored word that was not inserted itself is rejected. *)
Theorem trie_prefix_law (words : list (list ascii)) :
  let self := Trie.insert_all Trie.empty words in
  (∀ w p, w ∈ words → p `prefix_of` w → Trie.starts_with self p = true) ∧
  (∀ p, Trie.search self p = true ↔ p ∈ words).
Proof.
  intros self. split.
  - intros w p Hw Hp. apply trie_starts_with_insert_all. eauto.
  - intros p. unfold self. rewrite trie_search_insert_all.
    unfold Trie.search; simpl. rewrite trie_search_walk_new. naive_solver.
Qed.

Lemma trie_insert_walk_present word node :
  Trie.search_walk word node = true → Trie.insert_walk word node = (node, false).
Proof.
  revert node. induction word as [|ch rest IH]; intros node; simpl.
  - by intros ->.
  - destruct (Trie.children node !! ch) as [child|] eqn:Hc; [|done].
    intros Hs. simpl. rewrite (IH child Hs), insert_id by done. by destruct node.
Qed.

Lemma trie_insert_present self word :
  Trie.search self word = true → Trie.insert self word = self.
Proof.
  unfold Trie.search, Trie.insert. intros Hs.
  rewrite trie_insert_walk_present by done. by destruct self.
Qed.

(** A word that has been inserted is skipped by every later [insert]. *)
Lemma trie_reinsert_noop self word more :
  let s1 := Trie.insert_all (Trie.insert self word) more in
  Trie.insert s1 word = s1.
Proof.
  intros s1. apply trie_insert_present, trie_search_insert_all. right.
  rewrite trie_search_insert, bool_decide_eq_true_2; done.
Qed.

(** C6: inserting into a [BinarySearchTree] a value that was inserted
    before, or into a [Trie] a word that was inserted before, changes
    neither the size nor the result of any traversal ([in_order],
    [pre_order], [post_order], whatever recursion depth they are given)
    or query ([contains], [search], [starts_with]).  [more] are the
    insertions made between the two; with [more = []] the second insertion
    follows the first directly. *)
Theorem insert_twice_idempotent :
  (∀ (self : BST.t) (value : Z) (more : list Z),
     let s1 := BST.insert_all (BST.insert self value) more in
     let s2 := BST.insert s1 value in
     BST.len s2 = BST.len s1 ∧
     (∀ frames, BST.in_order frames s2 = BST.in_order frames s1) ∧
     (∀ frames, BST.pre_order frames s2 = BST.pre_order frames s1) ∧
     (∀ frames, BST.post_order frames s2 = BST.post_order frames s1) ∧
     ∀ x, BST.contains s2 x = BST.contains s1 x) ∧
  (∀ (self : Trie.t) (word : list ascii) (more : list (list ascii)),
     let s1 := Trie.insert_all (Trie.insert self word) more in
     let s2 := Trie.insert s1 word in
     Trie.len s2 = Trie.len s1 ∧
     (∀ p, Trie.search s2 p = Trie.search s1 p) ∧
     (∀ p, Trie.starts_with s2 p = Trie.starts_with s1 p)).
Proof.
  split.
  - intros self value more s1 s2. unfold s2, s1.
    by rewrite bst_reinsert_noop.
  - intros self word more s1 s2. unfold s2, s1.
    by rewrite trie_reinsert_noop.
Qed.

(** C10: [starts_with] of the empty prefix is true in every trie state,
    the freshly constructed one included; [search] of the empty string is
    true exactly when the empty string was inserted, hence false on a
    fresh trie. *)
Theorem trie_empty_string :
  (∀ self : Trie.t, Trie.starts_with self [] = true) ∧
  (∀ words : list (list ascii),
     Trie.search (Trie.insert_all Trie.empty words) [] = true ↔ [] ∈ words) ∧
  Trie.starts_with Trie.empty (Trie.str "") = true ∧
  Trie.search Trie.empty (Trie.str "") = false.
Proof.
  split_and!; [done| |done|done].
  intros words. rewrite trie_search_insert_all. naive_solver.
Qed.

(** ** DisjointSet *)

Ltac dsu_unfold :=
  unfold DSU.make_set, DSU.known, DSU.parent_at, DSU.rank_at, DSU.set_parent,
    DSU.set_rank, Py.bind, Py.get, Py.put, Py.ret, Py.raise; simpl.

Lemma dsu_registered_known self item :
  ∃ p, DSU._parent (DSU.registered self item) !! item = Some p.
Proof.
  unfold DSU.registered.
  destruct (DSU._parent self !! item) as [p|] eqn:Hp; simpl; eauto.
  exists item. by rewrite lookup_insert_eq.
Qed.

Lemma dsu_make_set_registered self item :
  DSU.make_set item self = Py.Ok tt (DSU.registered self item).
Proof.
  unfold DSU.registered. dsu_unfold.
  destruct (DSU._parent self !! item) as [p|] eqn:Hp; simpl.
  - done.
  - done.
Qed.

(** One unfolding of [find]: register [item] if needed, then either
    return it (a root) or resolve its parent and store the answer. *)
Lemma dsu_find_S fuel item self :
  ∃ p, DSU._parent (DSU.registered self item) !! item = Some p ∧
    DSU.find (S fuel) item self =
    if decide (p ≠ item) then
      match DSU.find fuel p (DSU.registered self item) with
      | Py.Ok r s1 =>
          Py.Ok r {| DSU._parent := <[item := r]> (DSU._parent s1);
                     DSU._rank := DSU._rank s1 |}
      | Py.Raise e s => Py.Raise e s
      | Py.Stuck => Py.Stuck
      | Py.OutOfFuel => Py.OutOfFuel
      end
    else Py.Ok p (DSU.registered self item).
Proof.
  destruct (dsu_registered_known self item) as [p Hp]. exists p. split; [done|].
  revert Hp. unfold DSU.registered. simpl. dsu_unfold.
  destruct (DSU._parent self !! item) as [q|] eqn:Hq; simpl.
  - intros Hp. assert (q = p) as -> by congruence. clear Hp.
    rewrite Hq. simpl. case_decide; simpl; [|by rewrite Hq].
    destruct (DSU.find fuel p self); simpl; try done.
    by rewrite lookup_insert_eq.
  - rewrite lookup_insert_eq. intros [= <-]. rewrite Hq. simpl.
    rewrite lookup_insert_eq. simpl. rewrite !decide_False by naive_solver.
    simpl. by rewrite lookup_insert_eq.
Qed.

Lemma dsu_registered_id self item p :
  DSU._parent self !! item = Some p → DSU.registered self item = self.
Proof. unfold DSU.registered. by intros ->. Qed.

(** More fuel does not change a result. *)
Lemma dsu_find_mono fuel item self r self' :
  DSU.find fuel item self = Py.Ok r self' →
  ∀ more, (fuel ≤ more)%nat → DSU.find more item self = Py.Ok r self'.
Proof.
  revert item self r self'.
  induction fuel as [|fuel IH]; intros item self r self' Hf more Hm; [done|].
  destruct more as [|more]; [lia|].
  destruct (dsu_find_S fuel item self) as (p & Hp & E).
  destruct (dsu_find_S more item self) as (p' & Hp' & E').
  rewrite Hp in Hp'. simplify_eq. rewrite E in Hf. rewrite E'.
  case_decide; [|done].
  destruct (DSU.find fuel p' _) as [r1 s1| | |] eqn:Hrec; try done.
  rewrite (IH _ _ _ _ Hrec more) by lia. done.
Qed.

Lemma dsu_find_registered fuel item self :
  DSU.find fuel item self = DSU.find fuel item (DSU.registered self item).
Proof.
  destruct fuel as [|fuel]; [done|].
  destruct (dsu_find_S fuel item self) as (p & Hp & ->).
  destruct (dsu_find_S fuel item (DSU.registered self item)) as (p' & Hp' & ->).
  rewrite (dsu_registered_id _ _ _ Hp) in *. by simplify_eq.
Qed.

Lemma dsu_rank_bounded (m : gmap Z Z) : ∃ B, ∀ x r, m !! x = Some r → r ≤ B.
Proof.
  induction m as [|i v m Hi _ [B HB]] using map_first_key_ind.
  - exists 0. intros x r. by rewrite lookup_empty.
  - exists (Z.max B v). intros x r. rewrite lookup_insert.
    case_decide; [intros [= <-]; lia|]. intros Hx. apply HB in Hx. lia.
Qed.

Lemma dsu_root_of_root self x r :
  DSU.root_of self x r → DSU._parent self !! r = Some r.
Proof. by induction 1. Qed.

Lemma dsu_root_of_on_chain self x r :
  DSU.root_of self x r → DSU.on_chain self x r.
Proof. induction 1; [constructor|by econstructor]. Qed.

Lemma dsu_root_of_det self x r r' :
  DSU.root_of self x r → DSU.root_of self x r' → r = r'.
Proof.
  induction 1 as [x Hx|x p r Hx Hne _ IH]; inversion 1; simplify_eq; auto.
Qed.

(** A self-parented node met on the chain from [x] is the root of [x]. *)
Lemma dsu_on_chain_root self x y r :
  DSU.on_chain self x y → DSU._parent self !! y = Some y →
  DSU.root_of self x r → y = r.
Proof.
  induction 1 as [x|x p y Hx Hne _ IH]; intros Hy Hr.
  - inversion Hr; simplify_eq; done.
  - inversion Hr; simplify_eq; auto.
Qed.

Lemma dsu_root_of_rank self x r rx :
  DSU.wf self → DSU.root_of self x r → DSU._rank self !! x = Some rx →
  ∃ rr, DSU._rank self !! r = Some rr ∧ rx ≤ rr.
Proof.
  intros [_ Hwf] Hr. revert rx.
  induction Hr as [x Hx|x p r Hx Hne _ IH]; intros rx Hrx.
  - exists rx. split; [done|lia].
  - destruct (Hwf _ _ Hx Hne) as (rx' & rp & Hx' & Hp & Hlt).
    destruct (IH _ Hp) as (rr & Hrr & Hle). exists rr. split; [done|].
    simplify_eq. lia.
Qed.

Lemma dsu_registered_wf self item : DSU.wf self → DSU.wf (DSU.registered self item).
Proof.
  intros [Hdom Hrk]. unfold DSU.registered.
  destruct (DSU._parent self !! item) as [p|] eqn:Hp; [done|].
  assert (DSU._rank self !! item = None) as Hr.
  { apply eq_None_not_Some. rewrite <- Hdom, Hp. by intros [? ?]. }
  split; simpl.
  - intros x. rewrite !lookup_insert. case_decide; [|apply Hdom].
    split; eauto.
  - intros x p'. rewrite !lookup_insert. case_decide; [naive_solver|].
    intros Hx Hne. destruct (Hrk _ _ Hx Hne) as (rx & rp & Hx' & Hp' & Hlt).
    exists rx, rp. split_and!; [done| |done].
    case_decide; [|done]. simplify_eq.
Qed.

(** The recursion of [find] on a known item: it returns the root, with
    every node of the chain re-parented to it and nothing else changed.
    [B] bounds the ranks; the chain from a node of rank [rk] has at most
    [B - rk + 1] nodes, as ranks strictly increase along it. *)
Lemma dsu_find_chain self B :
  DSU.wf self → (∀ x r, DSU._rank self !! x = Some r → r ≤ B) →
  ∀ k item rk,
    DSU._rank self !! item = Some rk → (Z.to_nat (B - rk) < k)%nat →
    ∃ r self',
      (∀ n, (k ≤ n)%nat → DSU.find n item self = Py.Ok r self') ∧
      DSU.root_of self item r ∧ DSU.wf self' ∧
      DSU._rank self' = DSU._rank self ∧
      (∀ y, DSU.on_chain self item y → DSU._parent self' !! y = Some r) ∧
      (∀ y, ¬ DSU.on_chain self item y →
            DSU._parent self' !! y = DSU._parent self !! y) ∧
      (∀ y, DSU.on_chain self item y ∨ ¬ DSU.on_chain self item y).
Proof.
  intros Hwf HB. induction k as [|k IH]; intros item rk Hrk Hk; [lia|].
  destruct (proj1 Hwf item) as [_ [p Hp]]; [eauto|].
  destruct (decide (p = item)) as [->|Hne].
  - exists item, self. split_and!; auto.
    + intros [|n] Hn; [lia|].
      destruct (dsu_find_S n item self) as (p & Hp' & ->).
      rewrite (dsu_registered_id _ _ _ Hp) in *. simplify_eq.
      by rewrite decide_False by naive_solver.
    + by constructor.
    + intros y Hy. inversion Hy; simplify_eq; done.
    + intros y. destruct (decide (y = item)) as [->|Hy]; [left; constructor|].
      right. inversion 1; simplify_eq.
  - destruct (proj2 Hwf _ _ Hp Hne) as (rx & rp & Hrx & Hrp & Hlt).
    simplify_eq. pose proof (HB _ _ Hrp) as Hle.
    destruct (IH p rp Hrp)
      as (r & s1 & Hfind & Hroot & Hwf1 & Hrank1 & Hon & Hoff & Hdec); [lia|].
    exists r, {| DSU._parent := <[item := r]> (DSU._parent s1);
                 DSU._rank := DSU._rank s1 |}.
    split_and!; simpl; auto.
    + intros [|n] Hn; [lia|].
      destruct (dsu_find_S n item self) as (p' & Hp' & ->).
      rewrite (dsu_registered_id _ _ _ Hp) in *. simplify_eq.
      rewrite decide_True by done. rewrite Hfind by lia. done.
    + by econstructor.
    + destruct Hwf1 as [Hdom1 Hrk1]. split; simpl.
      * intros x. rewrite lookup_insert. case_decide; [|apply Hdom1].
        subst x. rewrite Hrank1, Hrk. split; eauto.
      * intros x p'. rewrite lookup_insert. case_decide; [|apply Hrk1].
        intros [= <-] Hne'. subst x.
        destruct (dsu_root_of_rank _ _ _ _ Hwf Hroot Hrp) as (rr & Hrr & Hge).
        exists rk, rr. rewrite Hrank1. split_and!; [done|done|lia].
    + intros y Hy. rewrite lookup_insert. case_decide; [done|].
      apply Hon. inversion Hy; simplify_eq; done.
    + intros y Hy. rewrite lookup_insert. case_decide.
      * subst y. destruct Hy. constructor.
      * apply Hoff. intros Hc. apply Hy. by econstructor.
    + intros y. destruct (decide (y = item)) as [->|Hy]; [left; constructor|].
      destruct (Hdec y) as [Hc|Hc]; [left; by econstructor|].
      right. inversion 1; simplify_eq.
Qed.

(** [find] on any well-formed state, known item or not. *)
Lemma dsu_find_spec self item :
  DSU.wf self →
  let self0 := DSU.registered self item in
  ∃ r self' n0,
    (∀ n, (n0 ≤ n)%nat → DSU.find n item self = Py.Ok r self') ∧
    DSU.root_of self0 item r ∧ DSU.wf self' ∧
    DSU._rank self' = DSU._rank self0 ∧
    (∀ y, DSU.on_chain self0 item y → DSU._parent self' !! y = Some r) ∧
    (∀ y, ¬ DSU.on_chain self0 item y →
          DSU._parent self' !! y = DSU._parent self0 !! y) ∧
    (∀ y, DSU.on_chain self0 item y ∨ ¬ DSU.on_chain self0 item y).
Proof.
  intros Hwf self0.
  pose proof (dsu_registered_wf self item Hwf) as Hwf0. fold self0 in Hwf0.
  destruct (dsu_registered_known self item) as [p Hp]. fold self0 in Hp.
  destruct (proj1 (proj1 Hwf0 item)) as [rk Hrk]; [eauto|].
  destruct (dsu_rank_bounded (DSU._rank self0)) as [B HB].
  destruct (dsu_find_chain self0 B Hwf0 HB (S (Z.to_nat (B - rk))) item rk Hrk)
    as (r & self' & Hfind & H); [lia|].
  exists r, self', (S (Z.to_nat (B - rk))). split; [|done].
  intros n Hn. rewrite dsu_find_registered. by apply Hfind.
Qed.

(** Whatever the fuel, a call of [find] that returns has the result and
    the effect described by [dsu_find_spec]. *)
Lemma dsu_find_result self fuel item r self' :
  DSU.wf self → DSU.find fuel item self = Py.Ok r self' →
  let self0 := DSU.registered self item in
  DSU.root_of self0 item r ∧ DSU.wf self' ∧
  DSU._rank self' = DSU._rank self0 ∧
  (∀ y, DSU.on_chain self0 item y → DSU._parent self' !! y = Some r) ∧
  (∀ y, ¬ DSU.on_chain self0 item y →
        DSU._parent self' !! y = DSU._parent self0 !! y) ∧
  (∀ y, DSU.on_chain self0 item y ∨ ¬ DSU.on_chain self0 item y).
Proof.
  intros Hwf Hf self0.
  destruct (dsu_find_spec self item Hwf) as (r0 & s0 & n0 & Hf0 & H).
  pose proof (dsu_find_mono _ _ _ _ _ Hf (Nat.max n0 fuel)) as H1.
  rewrite Hf0 in H1 by lia. specialize (H1 ltac:(lia)). by simplify_eq.
Qed.

Lemma dsu_registered_parent self item x p :
  DSU._parent self !! x = Some p →
  DSU._parent (DSU.registered self item) !! x = Some p.
Proof.
  unfold DSU.registered. intros Hx.
  destruct (DSU._parent self !! item) eqn:Hi; [done|]. simpl.
  rewrite lookup_insert_ne; [done|]. intros ->. congruence.
Qed.

(** [find] keeps every root a root, and its result is one. *)
Lemma dsu_find_roots self fuel item r self' :
  DSU.wf self → DSU.find fuel item self = Py.Ok r self' →
  DSU._parent self' !! r = Some r ∧
  ∀ x, DSU._parent self !! x = Some x → DSU._parent self' !! x = Some x.
Proof.
  intros Hwf Hf.
  destruct (dsu_find_result _ _ _ _ _ Hwf Hf)
    as (Hroot & _ & _ & Hon & Hoff & Hdec).
  split.
  - apply Hon. by apply dsu_root_of_on_chain.
  - intros x Hx. apply (dsu_registered_parent _ item) in Hx.
    destruct (Hdec x) as [Hc|Hc].
    + rewrite (Hon _ Hc). f_equal. symmetry.
      by eapply dsu_on_chain_root.
    + by rewrite (Hoff _ Hc).
Qed.

(** [union] once the two calls of [find] and the two rank lookups are
    known: the four paths of the method. *)
Lemma dsu_union_eval fuel a b self ra s1 rb s2 rka rkb :
  DSU.find fuel a self = Py.Ok ra s1 → DSU.find fuel b s1 = Py.Ok rb s2 →
  DSU._rank s2 !! ra = Some rka → DSU._rank s2 !! rb = Some rkb →
  DSU.union fuel a b self =
  Py.Ok tt
    (if decide (ra = rb) then s2
     else if decide (rka < rkb) then
       {| DSU._parent := <[ra := rb]> (DSU._parent s2); DSU._rank := DSU._rank s2 |}
     else if decide (rka > rkb) then
       {| DSU._parent := <[rb := ra]> (DSU._parent s2); DSU._rank := DSU._rank s2 |}
     else
       {| DSU._parent := <[rb := ra]> (DSU._parent s2);
          DSU._rank := <[ra := rka + 1]> (DSU._rank s2) |}).
Proof.
  intros Ha Hb Hra Hrb. unfold DSU.union, Py.bind at 1. rewrite Ha.
  unfold Py.bind at 1. rewrite Hb. case_decide; [done|].
  dsu_unfold. rewrite Hra, Hrb. simpl. case_decide; [done|].
  rewrite Hra, Hrb. simpl. case_decide; [done|]. by rewrite Hra.
Qed.

(** The results of the two calls of [find] in [union]. *)
Lemma dsu_union_finds self fuel a b ra s1 rb s2 :
  DSU.wf self →
  DSU.find fuel a self = Py.Ok ra s1 → DSU.find fuel b s1 = Py.Ok rb s2 →
  DSU.wf s2 ∧
  DSU._parent s2 !! ra = Some ra ∧ DSU._parent s2 !! rb = Some rb ∧
  ∃ rka rkb, DSU._rank s2 !! ra = Some rka ∧ DSU._rank s2 !! rb = Some rkb.
Proof.
  intros Hwf Ha Hb.
  destruct (dsu_find_result _ _ _ _ _ Hwf Ha) as (_ & Hwf1 & _).
  destruct (dsu_find_result _ _ _ _ _ Hwf1 Hb) as (_ & Hwf2 & _).
  destruct (dsu_find_roots _ _ _ _ _ Hwf Ha) as [Hra1 _].
  destruct (dsu_find_roots _ _ _ _ _ Hwf1 Hb) as [Hrb2 Hkeep].
  pose proof (Hkeep _ Hra1) as Hra2.
  destruct (proj1 (proj1 Hwf2 ra)) as [rka Hrka]; [eauto|].
  destruct (proj1 (proj1 Hwf2 rb)) as [rkb Hrkb]; [eauto|].
  split_and!; eauto.
Qed.

(** Attaching one root under another keeps the forest invariant on each
    of the three linking paths of [union]. *)
Lemma dsu_link_wf s2 ra rb rka rkb :
  DSU.wf s2 → ra ≠ rb →
  DSU._parent s2 !! ra = Some ra → DSU._parent s2 !! rb = Some rb →
  DSU._rank s2 !! ra = Some rka → DSU._rank s2 !! rb = Some rkb →
  (rka < rkb →
   DSU.wf {| DSU._parent := <[ra := rb]> (DSU._parent s2);
             DSU._rank := DSU._rank s2 |}) ∧
  (rka > rkb →
   DSU.wf {| DSU._parent := <[rb := ra]> (DSU._parent s2);
             DSU._rank := DSU._rank s2 |}) ∧
  (rka = rkb →
   DSU.wf {| DSU._parent := <[rb := ra]> (DSU._parent s2);
             DSU._rank := <[ra := rka + 1]> (DSU._rank s2) |}).
Proof.
  intros [Hdom Hrk] Hne Hpa Hpb Hra Hrb. split_and!; intros Hcmp; split; simpl.
  - intros x. rewrite lookup_insert. case_decide; [|apply Hdom].
    subst x. rewrite Hra. split; eauto.
  - intros x p. rewrite lookup_insert. case_decide; [|apply Hrk].
    intros [= <-] _. subst x. eauto.
  - intros x. rewrite lookup_insert. case_decide; [|apply Hdom].
    subst x. rewrite Hrb. split; eauto.
  - intros x p. rewrite lookup_insert. case_decide; [|apply Hrk].
    intros [= <-] _. subst x. exists rkb, rka. split_and!; [done|done|lia].
  - intros x. destruct (decide (x = rb)) as [->|Hxb].
    + rewrite lookup_insert_eq, lookup_insert_ne, Hrb by done. split; eauto.
    + rewrite lookup_insert_ne by done.
      destruct (decide (x = ra)) as [->|Hxa].
      * rewrite lookup_insert_eq, Hpa. split; eauto.
      * rewrite lookup_insert_ne by done. apply Hdom.
  - subst rka. intros x p. rewrite !lookup_insert. case_decide.
    + intros [= <-] _. subst x. rewrite decide_False by done.
      rewrite decide_True by done. exists rkb, (rkb + 1).
      split_and!; [done|done|lia].
    + intros Hx Hnx. destruct (decide (ra = x)) as [<-|Hax]; [congruence|].
      destruct (Hrk _ _ Hx Hnx) as (rx & rp & Hx' & Hp' & Hlt).
      case_decide.
      * subst p. exists rx, (rkb + 1). simplify_eq.
        split_and!; [done|done|lia].
      * exists rx, rp. done.
Qed.

Lemma dsu_union_wf self fuel a b u self' :
  DSU.wf self → DSU.union fuel a b self = Py.Ok u self' → DSU.wf self'.
Proof.
  intros Hwf Hu. pose proof Hu as Hu'. unfold DSU.union, Py.bind at 1 in Hu'.
  destruct (DSU.find fuel a self) as [ra s1| | |] eqn:Ha; try done.
  unfold Py.bind at 1 in Hu'.
  destruct (DSU.find fuel b s1) as [rb s2| | |] eqn:Hb; try done. clear Hu'.
  destruct (dsu_union_finds _ _ _ _ _ _ _ _ Hwf Ha Hb)
    as (Hwf2 & Hpa & Hpb & rka & rkb & Hra & Hrb).
  rewrite (dsu_union_eval _ _ _ _ _ _ _ _ _ _ Ha Hb Hra Hrb) in Hu.
  injection Hu as _ Hu. subst self'. case_decide; [done|].
  destruct (dsu_link_wf _ _ _ _ _ Hwf2 ltac:(done) Hpa Hpb Hra Hrb)
    as (H1 & H2 & H3).
  repeat case_decide; [by apply H1|by apply H2|apply H3; lia].
Qed.

Lemma dsu_empty_wf : DSU.wf DSU.empty.
Proof.
  split; simpl.
  - intros x. by rewrite !lookup_empty.
  - intros x p. by rewrite lookup_empty.
Qed.

(** Every state a client can reach is a well-formed forest. *)
Lemma dsu_reachable_wf self : DSU.reachable self → DSU.wf self.
Proof.
  induction 1 as [|self item u self' _ IH Hm|self fuel item r self' _ IH Hf
                  |self fuel a b u self' _ IH Hu|self fuel a b c self' _ IH Hc].
  - apply dsu_empty_wf.
  - rewrite dsu_make_set_registered in Hm. injection Hm as Hm. subst self'.
    by apply dsu_registered_wf.
  - by destruct (dsu_find_result _ _ _ _ _ IH Hf) as (_ & ? & _).
  - by eapply dsu_union_wf.
  - unfold DSU.connected, Py.bind at 1 in Hc.
    destruct (DSU.find fuel a self) as [ra s1| | |] eqn:Ha; try done.
    unfold Py.bind at 1 in Hc.
    destruct (DSU.find fuel b s1) as [rb s2| | |] eqn:Hb; try done.
    injection Hc as _ Hc. subst self'.
    by destruct (dsu_union_finds _ _ _ _ _ _ _ _ IH Ha Hb) as (? & _).
Qed.

Example dsu_scenario :
  let s1 := Py.state_after (DSU.union 3 1 2 DSU.empty) DSU.empty in
  let s2 := Py.state_after (DSU.union 3 2 3 s1) s1 in
  (∃ s, DSU.connected 3 1 3 s2 = Py.Ok true s) ∧
  (∃ s, DSU.connected 3 1 4 s2 = Py.Ok false s).
Proof. split; eexists; vm_compute; reflexivity. Qed.

Example dsu_example_state :
  DSU._parent DSU.example = {[1 := 1; 2 := 1; 3 := 1; 4 := 3]} ∧
  DSU._rank DSU.example = {[1 := 2; 2 := 0; 3 := 1; 4 := 0]}.
Proof. split; vm_compute; reflexivity. Qed.

(** The three calls that build [DSU.example]. *)
Ltac dsu_example_reachable :=
  apply (DSU.reach_union DSU.example2 3 1 3 tt); [|vm_compute; reflexivity];
  apply (DSU.reach_union DSU.example1 3 3 4 tt); [|vm_compute; reflexivity];
  apply (DSU.reach_union DSU.empty 3 1 2 tt); [|vm_compute; reflexivity];
  apply DSU.reach_init.

(** [union] on a well-formed state: both calls of [find] return, the
    rank lookups succeed, and the method ends on one of its four paths. *)
Lemma dsu_union_spec self a b :
  DSU.wf self →
  ∃ ra s1 rb s2 rka rkb n0,
    (∀ n, (n0 ≤ n)%nat →
       DSU.find n a self = Py.Ok ra s1 ∧ DSU.find n b s1 = Py.Ok rb s2 ∧
       DSU.union n a b self =
       Py.Ok tt
         (if decide (ra = rb) then s2
          else if decide (rka < rkb) then
            {| DSU._parent := <[ra := rb]> (DSU._parent s2);
               DSU._rank := DSU._rank s2 |}
          else if decide (rka > rkb) then
            {| DSU._parent := <[rb := ra]> (DSU._parent s2);
               DSU._rank := DSU._rank s2 |}
          else
            {| DSU._parent := <[rb := ra]> (DSU._parent s2);
               DSU._rank := <[ra := rka + 1]> (DSU._rank s2) |})) ∧
    DSU._parent s2 !! ra = Some ra ∧ DSU._parent s2 !! rb = Some rb ∧
    DSU._rank s2 !! ra = Some rka ∧ DSU._rank s2 !! rb = Some rkb.
Proof.
  intros Hwf.
  destruct (dsu_find_spec self a Hwf) as (ra & s1 & na & Ha & _ & Hwf1 & _).
  destruct (dsu_find_spec s1 b Hwf1) as (rb & s2 & nb & Hb & _).
  destruct (dsu_union_finds self (Nat.max na nb) a b ra s1 rb s2 Hwf)
    as (Hwf2 & Hpa & Hpb & rka & rkb & Hra & Hrb); [apply Ha; lia|apply Hb; lia|].
  exists ra, s1, rb, s2, rka, rkb, (Nat.max na nb). split_and!; try done.
  intros n Hn. split_and!; [apply Ha; lia|apply Hb; lia|].
  apply (dsu_union_eval n a b self ra s1 rb s2 rka rkb);
    [apply Ha; lia|apply Hb; lia|done|done].
Qed.

(** C3: in every state of a [DisjointSet], [find(item)] returns; an
    unknown item is first registered as its own parent with rank 0 (no
    earlier [make_set] is needed); and the call compresses the path: the
    result [r] is the root of [item], and afterwards [item] and every node
    on the chain from [item] to the root have [r] as parent.  Nothing else
    changes. *)
Theorem dsu_find_registers_and_compresses self item :
  DSU.reachable self →
  let self0 := DSU.registered self item in
  ∃ r self',
    (∃ n0, ∀ n, (n0 ≤ n)%nat → DSU.find n item self = Py.Ok r self') ∧
    (DSU._parent self !! item = None →
       r = item ∧
       DSU._parent self' = <[item := item]> (DSU._parent self) ∧
       DSU._rank self' = <[item := 0]> (DSU._rank self)) ∧
    (is_Some (DSU._parent self !! item) → self0 = self) ∧
    DSU.root_of self0 item r ∧
    DSU._parent self' !! r = Some r ∧
    DSU._parent self' !! item = Some r ∧
    (∀ y, DSU.on_chain self0 item y → DSU._parent self' !! y = Some r) ∧
    (∀ y, ¬ DSU.on_chain self0 item y →
          DSU._parent self' !! y = DSU._parent self0 !! y) ∧
    DSU._rank self' = DSU._rank self0.
Proof.
  intros Hreach self0. apply dsu_reachable_wf in Hreach as Hwf.
  destruct (dsu_find_spec self item Hwf)
    as (r & self' & n0 & Hf & Hroot & Hwf' & Hrank & Hon & Hoff & Hdec).
  fold self0 in Hroot, Hrank, Hon, Hoff, Hdec.
  exists r, self'. split_and!; eauto.
  - intros Hnone. unfold self0, DSU.registered in *. rewrite Hnone in *.
    simpl in *. assert (r = item) as ->.
    { eapply dsu_root_of_det; [done|]. constructor. simpl.
      by rewrite lookup_insert_eq. }
    split_and!; [done| |done]. apply map_eq. intros y.
    destruct (Hdec y) as [Hc|Hc]; [|by apply Hoff].
    rewrite (Hon _ Hc). inversion Hc as [|x p y' Hx Hne Hc']; subst.
    + by rewrite lookup_insert_eq.
    + simpl in Hx. rewrite lookup_insert_eq in Hx. congruence.
  - intros [p Hp]. by eapply dsu_registered_id.
  - apply Hon. by apply dsu_root_of_on_chain.
  - apply Hon. constructor.
Qed.

Lemma dsu_find_registers_and_compresses_witness :
  ∃ r self',
    (∃ n0, ∀ n, (n0 ≤ n)%nat → DSU.find n 4 DSU.example = Py.Ok r self') ∧
    (DSU._parent DSU.example !! 4 = None →
       r = 4 ∧
       DSU._parent self' = <[4 := 4]> (DSU._parent DSU.example) ∧
       DSU._rank self' = <[4 := 0]> (DSU._rank DSU.example)) ∧
    (is_Some (DSU._parent DSU.example !! 4) →
       DSU.registered DSU.example 4 = DSU.example) ∧
    DSU.root_of (DSU.registered DSU.example 4) 4 r ∧
    DSU._parent self' !! r = Some r ∧
    DSU._parent self' !! 4 = Some r ∧
    (∀ y, DSU.on_chain (DSU.registered DSU.example 4) 4 y →
          DSU._parent self' !! y = Some r) ∧
    (∀ y, ¬ DSU.on_chain (DSU.registered DSU.example 4) 4 y →
          DSU._parent self' !! y =
          DSU._parent (DSU.registered DSU.example 4) !! y) ∧
    DSU._rank self' = DSU._rank (DSU.registered DSU.example 4).
Proof.
  apply (dsu_find_registers_and_compresses DSU.example 4).
  dsu_example_reachable.
Defined.

Example dsu_find_compresses_example :
  ∃ s, DSU.find 3 4 DSU.example = Py.Ok 1 s ∧
       DSU._parent s = {[1 := 1; 2 := 1; 3 := 1; 4 := 1]}.
Proof. eexists. split; vm_compute; reflexivity. Qed.

(** C4: in every state of a [DisjointSet], [union(a, b)] returns after
    the two calls of [find], which leave the state [s2] with roots [ra]
    and [rb] of ranks [rka] and [rkb].  If the roots are equal nothing
    more changes; if the ranks differ the root of lower rank gets the
    other root as parent and no rank changes; on a tie one root gets the
    other as parent and the rank of the new root grows by exactly one. *)
Theorem dsu_union_by_rank self a b :
  DSU.reachable self →
  ∃ ra s1 rb s2 rka rkb self',
    (∃ n0, ∀ n, (n0 ≤ n)%nat →
       DSU.find n a self = Py.Ok ra s1 ∧ DSU.find n b s1 = Py.Ok rb s2 ∧
       DSU.union n a b self = Py.Ok tt self') ∧
    DSU._parent s2 !! ra = Some ra ∧ DSU._parent s2 !! rb = Some rb ∧
    DSU._rank s2 !! ra = Some rka ∧ DSU._rank s2 !! rb = Some rkb ∧
    (ra = rb → self' = s2) ∧
    (ra ≠ rb → rka < rkb →
       DSU._parent self' = <[ra := rb]> (DSU._parent s2) ∧
       DSU._rank self' = DSU._rank s2) ∧
    (ra ≠ rb → rkb < rka →
       DSU._parent self' = <[rb := ra]> (DSU._parent s2) ∧
       DSU._rank self' = DSU._rank s2) ∧
    (ra ≠ rb → rka = rkb →
       (DSU._parent self' = <[rb := ra]> (DSU._parent s2) ∨
        DSU._parent self' = <[ra := rb]> (DSU._parent s2)) ∧
       ∃ root, DSU._parent self' !! root = Some root ∧
               (root = ra ∨ root = rb) ∧
               DSU._rank self' = <[root := rka + 1]> (DSU._rank s2)).
Proof.
  intros Hreach. apply dsu_reachable_wf in Hreach as Hwf.
  destruct (dsu_union_spec self a b Hwf)
    as (ra & s1 & rb & s2 & rka & rkb & n0 & Hrun & Hpa & Hpb & Hra & Hrb).
  lazymatch type of Hrun with
  | context [DSU.union _ _ _ _ = Py.Ok tt ?final] =>
      exists ra, s1, rb, s2, rka, rkb, final
  end.
  split_and!; try done.
  - exists n0. intros n Hn. apply Hrun, Hn.
  - intros ->. by rewrite decide_True.
  - intros Hne Hlt. by rewrite decide_False, decide_True.
  - intros Hne Hlt. rewrite decide_False, decide_False, decide_True by lia.
    done.
  - intros Hne ->. rewrite !decide_False by (done || lia). simpl.
    split; [by left|]. exists ra. split_and!; [|by left|done].
    by rewrite lookup_insert_ne.
Qed.

Lemma dsu_union_by_rank_witness :
  ∃ ra s1 rb s2 rka rkb self',
    (∃ n0, ∀ n, (n0 ≤ n)%nat →
       DSU.find n 4 DSU.example = Py.Ok ra s1 ∧
       DSU.find n 5 s1 = Py.Ok rb s2 ∧
       DSU.union n 4 5 DSU.example = Py.Ok tt self') ∧
    DSU._parent s2 !! ra = Some ra ∧ DSU._parent s2 !! rb = Some rb ∧
    DSU._rank s2 !! ra = Some rka ∧ DSU._rank s2 !! rb = Some rkb ∧
    (ra = rb → self' = s2) ∧
    (ra ≠ rb → rka < rkb →
       DSU._parent self' = <[ra := rb]> (DSU._parent s2) ∧
       DSU._rank self' = DSU._rank s2) ∧
    (ra ≠ rb → rkb < rka →
       DSU._parent self' = <[rb := ra]> (DSU._parent s2) ∧
       DSU._rank self' = DSU._rank s2) ∧
    (ra ≠ rb → rka = rkb →
       (DSU._parent self' = <[rb := ra]> (DSU._parent s2) ∨
        DSU._parent self' = <[ra := rb]> (DSU._parent s2)) ∧
       ∃ root, DSU._parent self' !! root = Some root ∧
               (root = ra ∨ root = rb) ∧
               DSU._rank self' = <[root := rka + 1]> (DSU._rank s2)).
Proof.
  apply (dsu_union_by_rank DSU.example 4 5).
  dsu_example_reachable.
Defined.

Example dsu_union_rank_example :
  (∃ s, DSU.union 3 4 5 DSU.example = Py.Ok tt s ∧
        DSU._parent s = {[1 := 1; 2 := 1; 3 := 1; 4 := 1; 5 := 1]} ∧
        DSU._rank s = {[1 := 2; 2 := 0; 3 := 1; 4 := 0; 5 := 0]}) ∧
  (∃ s, DSU.union 3 5 4 DSU.example = Py.Ok tt s ∧
        DSU._parent s = {[1 := 1; 2 := 1; 3 := 1; 4 := 1; 5 := 1]} ∧
        DSU._rank s = {[1 := 2; 2 := 0; 3 := 1; 4 := 0; 5 := 0]}).
Proof. split; eexists; split_and!; vm_compute; reflexivity. Qed.

(** C9: when [union(a, b)] finds two different roots of equal rank, the
    root of [a] always becomes the new root: the root of [b] gets it as
    parent, it stays its own parent, and its rank is the one incremented.
    The root of [b] is never chosen. *)
Theorem dsu_union_tie_first_root self a b :
  DSU.reachable self →
  ∃ ra s1 rb s2 rk self',
    (∃ n0, ∀ n, (n0 ≤ n)%nat →
       DSU.find n a self = Py.Ok ra s1 ∧ DSU.find n b s1 = Py.Ok rb s2 ∧
       DSU.union n a b self = Py.Ok tt self') ∧
    DSU._rank s2 !! ra = Some rk ∧
    (ra ≠ rb → DSU._rank s2 !! rb = Some rk →
       DSU._parent self' !! rb = Some ra ∧
       DSU._parent self' !! ra = Some ra ∧
       DSU._parent self' !! ra ≠ Some rb ∧
       DSU._rank self' !! ra = Some (rk + 1) ∧
       DSU._rank self' !! rb = Some rk).
Proof.
  intros Hreach. apply dsu_reachable_wf in Hreach as Hwf.
  destruct (dsu_union_spec self a b Hwf)
    as (ra & s1 & rb & s2 & rka & rkb & n0 & Hrun & Hpa & Hpb & Hra & Hrb).
  lazymatch type of Hrun with
  | context [DSU.union _ _ _ _ = Py.Ok tt ?final] =>
      exists ra, s1, rb, s2, rka, final
  end.
  split_and!; try done.
  - exists n0. intros n Hn. apply Hrun, Hn.
  - intros Hne Heq. assert (rkb = rka) as -> by congruence.
    rewrite !decide_False by (done || lia). simpl.
    rewrite lookup_insert_eq, lookup_insert_ne, lookup_insert_eq,
      lookup_insert_ne by done.
    split_and!; try done. rewrite Hpa. congruence.
Qed.

Lemma dsu_union_tie_first_root_witness :
  ∃ ra s1 rb s2 rk self',
    (∃ n0, ∀ n, (n0 ≤ n)%nat →
       DSU.find n 4 DSU.example2 = Py.Ok ra s1 ∧
       DSU.find n 2 s1 = Py.Ok rb s2 ∧
       DSU.union n 4 2 DSU.example2 = Py.Ok tt self') ∧
    DSU._rank s2 !! ra = Some rk ∧
    (ra ≠ rb → DSU._rank s2 !! rb = Some rk →
       DSU._parent self' !! rb = Some ra ∧
       DSU._parent self' !! ra = Some ra ∧
       DSU._parent self' !! ra ≠ Some rb ∧
       DSU._rank self' !! ra = Some (rk + 1) ∧
       DSU._rank self' !! rb = Some rk).
Proof.
  apply (dsu_union_tie_first_root DSU.example2 4 2).
  apply (DSU.reach_union DSU.example1 3 3 4 tt); [|vm_compute; reflexivity].
  apply (DSU.reach_union DSU.empty 3 1 2 tt); [|vm_compute; reflexivity].
  apply DSU.reach_init.
Defined.

Example dsu_union_tie_example :
  ∃ s, DSU.union 3 4 2 DSU.example2 = Py.Ok tt s ∧
       DSU._parent s = {[1 := 3; 2 := 1; 3 := 3; 4 := 3]} ∧
       DSU._rank s = {[1 := 1; 2 := 0; 3 := 2; 4 := 0]}.
Proof. eexists; split_and!; vm_compute; reflexivity. Qed.





(** ** SinglyLinkedList *)

Ltac sll_unfold :=
  unfold SLL.prepend, SLL.append, SLL.pop_front, SLL.new_node, SLL.get_next,
    SLL.get_value, SLL.set_next, SLL.get_head, SLL.get_tail, SLL.get_size,
    SLL.set_head, SLL.set_tail, SLL.set_size,
    Py.bind, Py.get, Py.put, Py.ret, Py.raise, Py.stuck; simpl.

Example sll_scenario :
  let s := SLL.run SLL.empty [SLL.Append 2; SLL.Append 3; SLL.Prepend 1; SLL.Append 4] in
  SLL.iter 5 s = Some [1; 2; 3; 4] ∧ SLL.len s = 4.
Proof. vm_compute. done. Qed.

Lemma sll_rep_in_store self ls l :
  SLL.rep self ls → l ∈ ls → is_Some (SLL.store self !! l).
Proof.
  intros (_ & _ & _ & _ & Hc) Hl. apply list_elem_of_lookup in Hl as [i Hi].
  destruct (Hc _ _ Hi) as [v Hv]. eauto.
Qed.

Lemma sll_fresh_not_in self ls :
  SLL.rep self ls → fresh (dom (SLL.store self)) ∉ ls.
Proof.
  intros Hrep Hin. apply (sll_rep_in_store _ _ _ Hrep) in Hin.
  apply elem_of_dom in Hin. by apply is_fresh in Hin.
Qed.

Lemma sll_empty_rep : SLL.rep SLL.empty [].
Proof. split_and!; try done. constructor. Qed.

(** The three methods in closed form. *)
Lemma sll_prepend_eval self v :
  let l := fresh (dom (SLL.store self)) in
  SLL.prepend v self =
  Py.Ok tt
    {| SLL.store := <[l := SLL.mkNode v (SLL._head self)]> (SLL.store self);
       SLL._head := Some l;
       SLL._tail := if SLL._tail self is None then Some l else SLL._tail self;
       SLL._size := SLL._size self + 1 |}.
Proof. sll_unfold. by destruct (SLL._tail self). Qed.

Lemma sll_append_eval self v :
  let l := fresh (dom (SLL.store self)) in
  SLL.append v self =
  match SLL._tail self with
  | None =>
      Py.Ok tt
        {| SLL.store := <[l := SLL.mkNode v None]> (SLL.store self);
           SLL._head := Some l; SLL._tail := Some l;
           SLL._size := SLL._size self + 1 |}
  | Some tl =>
      let store1 := <[l := SLL.mkNode v None]> (SLL.store self) in
      match store1 !! tl with
      | Some n =>
          Py.Ok tt
            {| SLL.store := <[tl := SLL.mkNode (SLL.value n) (Some l)]> store1;
               SLL._head := SLL._head self; SLL._tail := Some l;
               SLL._size := SLL._size self + 1 |}
      | None => Py.Stuck
      end
  end.
Proof.
  sll_unfold. destruct (SLL._tail self) as [tl|]; simpl; [|done].
  by destruct (<[_ := _]> (SLL.store self) !! tl).
Qed.

Lemma sll_pop_front_eval self :
  SLL.pop_front self =
  match SLL._head self with
  | None => Py.Raise (Py.IndexError "pop_front from empty SinglyLinkedList") self
  | Some node =>
      match SLL.store self !! node with
      | Some n =>
          Py.Ok (SLL.value n)
            {| SLL.store := SLL.store self;
               SLL._head := SLL.next n;
               SLL._tail := if SLL.next n is None then None else SLL._tail self;
               SLL._size := SLL._size self - 1 |}
      | None => Py.Stuck
      end
  end.
Proof.
  sll_unfold. destruct (SLL._head self) as [node|]; simpl; [|done].
  destruct (SLL.store self !! node) as [n|] eqn:Hn; simpl; [|done].
  destruct (SLL.next n); simpl; by rewrite Hn.
Qed.

Lemma sll_prepend_rep self ls v :
  SLL.rep self ls →
  ∃ self', SLL.prepend v self = Py.Ok tt self' ∧
           SLL.rep self' (fresh (dom (SLL.store self)) :: ls).
Proof.
  intros Hrep. pose proof (sll_fresh_not_in _ _ Hrep) as Hfresh.
  destruct Hrep as (Hnd & Hh & Ht & Hs & Hc).
  rewrite sll_prepend_eval.
  set (l := fresh (dom (SLL.store self))) in *.
  eexists. split; [done|]. split_and!; simpl.
    + by constructor.
    + done.
    + rewrite Ht. destruct ls as [|x ls]; [done|].
      change (last (l :: x :: ls)) with (last (x :: ls)).
      destruct (last (x :: ls)) eqn:E; [done|]. by apply last_None in E.
    + rewrite Hs. lia.
    + intros [|i] l' Hi; simpl in *.
      * simplify_eq. rewrite lookup_insert_eq. exists v.
        by rewrite Hh, head_lookup.
      * destruct (Hc _ _ Hi) as [v' Hv']. exists v'.
        rewrite lookup_insert_ne; [done|]. intros <-.
        apply Hfresh. by eapply list_elem_of_lookup_2.
Qed.

Lemma sll_append_rep self ls v :
  SLL.rep self ls →
  ∃ self', SLL.append v self = Py.Ok tt self' ∧
           SLL.rep self' (ls ++ [fresh (dom (SLL.store self))]).
Proof.
  intros Hrep. pose proof (sll_fresh_not_in _ _ Hrep) as Hfresh.
  destruct Hrep as (Hnd & Hh & Ht & Hs & Hc).
  rewrite sll_append_eval. simpl.
  set (l := fresh (dom (SLL.store self))) in *.
  destruct (SLL._tail self) as [tl|] eqn:Htl.
  - symmetry in Ht. pose proof Ht as Hlast.
    rewrite last_lookup in Hlast.
    destruct (Hc _ _ Hlast) as [vt Hvt].
    assert (tl ≠ l) as Hne.
    { intros ->. apply Hfresh. by eapply list_elem_of_lookup_2. }
    rewrite lookup_insert_ne, Hvt by done. eexists. split; [done|].
    split_and!; simpl.
    + apply NoDup_app. split_and!; [done| |apply NoDup_singleton].
      intros x Hx ->%list_elem_of_singleton. done.
    + rewrite Hh. destruct ls; [done|done].
    + by rewrite last_snoc.
    + rewrite length_app, Hs. simpl. lia.
    + intros i l' Hi.
      destruct (decide (i < length ls)%nat) as [Hlt|Hge].
      * rewrite lookup_app_l in Hi by done.
        destruct (Hc _ _ Hi) as [v' Hv'].
        destruct (decide (S i = length ls)) as [Heq|Hneq].
        -- assert (l' = tl) as ->.
           { replace (pred (length ls)) with i in Hlast by lia. congruence. }
           rewrite lookup_insert_eq. exists vt. simpl.
           rewrite Heq, list_lookup_middle; done.
        -- assert (l' ≠ tl) as Hne'.
           { intros ->. pose proof (NoDup_lookup _ _ _ _ Hnd Hi Hlast). lia. }
           assert (l' ≠ l) as Hne''.
           { intros ->. apply Hfresh. by eapply list_elem_of_lookup_2. }
           rewrite !lookup_insert_ne by done. exists v'.
           rewrite Hv'. rewrite lookup_app_l by lia. done.
      * assert (i = length ls) as ->.
        { apply lookup_lt_Some in Hi. rewrite length_app in Hi. simpl in Hi. lia. }
        rewrite list_lookup_middle in Hi by done. simplify_eq.
        rewrite lookup_insert_ne, lookup_insert_eq by done. exists v.
        rewrite lookup_ge_None_2; [done|]. rewrite length_app. simpl. lia.
  - symmetry in Ht. apply last_None in Ht. subst ls.
    eexists. split; [done|]. split_and!; simpl; try done.
    + apply NoDup_singleton.
    + simpl in Hs. lia.
    + intros [|i] l' Hi; simpl in *; [|done]. simplify_eq.
      rewrite lookup_insert_eq. eauto.
Qed.

Lemma sll_pop_front_rep self l ls :
  SLL.rep self (l :: ls) →
  ∃ v self', SLL.pop_front self = Py.Ok v self' ∧ SLL.rep self' ls.
Proof.
  intros (Hnd & Hh & Ht & Hs & Hc). rewrite sll_pop_front_eval, Hh. simpl.
  destruct (Hc 0%nat l eq_refl) as [v Hv]. rewrite Hv. simpl.
  eexists _, _. split; [done|]. apply NoDup_cons in Hnd as [Hl Hnd].
  split_and!; simpl.
  - done.
  - by rewrite head_lookup.
  - destruct ls as [|x ls]; [done|]. simpl. by rewrite Ht.
  - rewrite Hs. simpl length. lia.
  - intros i l' Hi. destruct (Hc (S i) l' Hi) as [v' Hv']. eauto.
Qed.

Lemma sll_pop_front_empty self :
  SLL._head self = None →
  SLL.pop_front self =
  Py.Raise (Py.IndexError "pop_front from empty SinglyLinkedList") self.
Proof. intros Hh. by rewrite sll_pop_front_eval, Hh. Qed.

(** Every call keeps the list well-formed. *)
Lemma sll_call_rep self ls o :
  SLL.rep self ls → ∃ ls', SLL.rep (Py.state_after (SLL.call o self) self) ls'.
Proof.
  intros Hrep. destruct o as [v|v|]; unfold SLL.call, Py.bind.
  - destruct (sll_prepend_rep _ _ v Hrep) as (self' & -> & Hrep'). eauto.
  - destruct (sll_append_rep _ _ v Hrep) as (self' & -> & Hrep'). eauto.
  - destruct ls as [|l ls].
    + rewrite sll_pop_front_empty by apply Hrep. eauto.
    + destruct (sll_pop_front_rep _ _ _ Hrep) as (v & self' & -> & Hrep'). eauto.
Qed.

Lemma sll_run_rep ops self ls :
  SLL.rep self ls → ∃ ls', SLL.rep (SLL.run self ops) ls'.
Proof.
  revert self ls. induction ops as [|o ops IH]; intros self ls Hrep; simpl.
  - eauto.
  - destruct (sll_call_rep _ _ o Hrep) as [ls' Hrep']. by eapply IH.
Qed.

Lemma sll_nodes_from_rep self ls :
  SLL.rep self ls →
  ∀ fuel k, (length ls - k < fuel)%nat →
    SLL.nodes_from (SLL.store self) fuel (ls !! k) = Some (drop k ls).
Proof.
  intros (Hnd & Hh & Ht & Hs & Hc).
  induction fuel as [|fuel IH]; intros k Hk; [lia|].
  destruct (ls !! k) as [l|] eqn:Hl; simpl.
  - destruct (Hc _ _ Hl) as [v ->]. simpl.
    pose proof (lookup_lt_Some _ _ _ Hl) as Hlt. rewrite IH by lia.
    simpl. by rewrite (drop_S _ _ _ Hl).
  - apply lookup_ge_None in Hl. by rewrite drop_ge.
Qed.

Lemma sll_rep_invariant self ls :
  SLL.rep self ls → SLL.structural_invariant self.
Proof.
  intros Hrep. pose proof Hrep as (Hnd & Hh & Ht & Hs & Hc).
  split_and!.
  - rewrite Hs, Hh, Ht. destruct ls as [|x ls]; simpl; [done|].
    split; [lia|]. intros [? _]. done.
  - rewrite Hs, Hh, Ht. destruct ls as [|x [|y ls]]; simpl; try done. lia.
  - exists ls. split_and!; [|done|done].
    intros fuel Hf. rewrite Hh, head_lookup.
    rewrite (sll_nodes_from_rep _ _ Hrep) by lia. done.
Qed.

(** ** DoublyLinkedList *)

Ltac dll_unfold :=
  unfold DLL.append, DLL.prepend, DLL.pop_front, DLL.pop_back, DLL.new_node,
    DLL.get_prev, DLL.get_next, DLL.get_value, DLL.set_prev, DLL.set_next,
    DLL.get_node, DLL.put_node, DLL.get_head, DLL.get_tail, DLL.get_size,
    DLL.set_head, DLL.set_tail, DLL.set_size,
    Py.bind, Py.get, Py.put, Py.ret, Py.raise, Py.stuck; simpl.

Example dll_scenario :
  let s := DLL.run DLL.empty
             [DLL.Append 2; DLL.Append 3; DLL.Prepend 1; DLL.Append 4] in
  ∃ s1 s2, DLL.pop_front s = Py.Ok 1 s1 ∧ DLL.pop_back s1 = Py.Ok 4 s2 ∧
           DLL.iter 3 s2 = Some [2; 3] ∧ DLL.len s2 = 2.
Proof. eexists _, _. split_and!; vm_compute; reflexivity. Qed.

Lemma dll_rep_in_store self ls l :
  DLL.rep self ls → l ∈ ls → is_Some (DLL.store self !! l).
Proof.
  intros (_ & _ & _ & _ & Hc) Hl. apply list_elem_of_lookup in Hl as [i Hi].
  destruct (Hc _ _ Hi) as [v Hv]. eauto.
Qed.

Lemma dll_fresh_not_in self ls :
  DLL.rep self ls → fresh (dom (DLL.store self)) ∉ ls.
Proof.
  intros Hrep Hin. apply (dll_rep_in_store _ _ _ Hrep) in Hin.
  apply elem_of_dom in Hin. by apply is_fresh in Hin.
Qed.

Lemma dll_empty_rep : DLL.rep DLL.empty [].
Proof. split_and!; try done. constructor. Qed.

Lemma dll_before_app_l (ls k : list DLL.loc) i :
  (i ≤ length ls)%nat → DLL.before (ls ++ k) i = DLL.before ls i.
Proof. destruct i as [|j]; simpl; [done|]. intros. by rewrite lookup_app_l by lia. Qed.

Lemma dll_before_last (ls : list DLL.loc) :
  DLL.before ls (length ls) = last ls.
Proof. rewrite last_lookup. by destruct ls. Qed.

Lemma dll_append_rep self ls v :
  DLL.rep self ls →
  ∃ self', DLL.append v self = Py.Ok tt self' ∧
           DLL.rep self' (ls ++ [fresh (dom (DLL.store self))]).
Proof.
  intros Hrep. pose proof (dll_fresh_not_in _ _ Hrep) as Hfresh.
  destruct Hrep as (Hnd & Hh & Ht & Hs & Hc). dll_unfold.
  set (l := fresh (dom (DLL.store self))) in *.
  destruct (DLL._tail self) as [tl|] eqn:Htl; simpl.
  - symmetry in Ht. pose proof Ht as Hlast. rewrite last_lookup in Hlast.
    destruct (Hc _ _ Hlast) as [vt Hvt].
    assert (tl ≠ l) as Hne.
    { intros ->. apply Hfresh. by eapply list_elem_of_lookup_2. }
    rewrite lookup_insert_eq. simpl.
    rewrite !lookup_insert_ne, Hvt by done. simpl.
    eexists. split; [done|]. split_and!; simpl.
    + apply NoDup_app. split_and!; [done| |apply NoDup_singleton].
      intros x Hx ->%list_elem_of_singleton. done.
    + rewrite Hh. by destruct ls.
    + by rewrite last_snoc.
    + rewrite length_app, Hs. simpl. lia.
    + intros i l' Hi.
      destruct (decide (i < length ls)%nat) as [Hlt|Hge].
      * rewrite lookup_app_l in Hi by done.
        destruct (Hc _ _ Hi) as [v' Hv'].
        rewrite dll_before_app_l by lia.
        destruct (decide (S i = length ls)) as [Heq|Hneq].
        -- assert (l' = tl) as ->.
           { replace (pred (length ls)) with i in Hlast by lia. congruence. }
           rewrite lookup_insert_eq. exists vt.
           replace (pred (length ls)) with i in * by lia.
           rewrite Heq, list_lookup_middle; done.
        -- assert (l' ≠ tl) as Hne'.
           { intros ->. pose proof (NoDup_lookup _ _ _ _ Hnd Hi Hlast). lia. }
           assert (l' ≠ l) as Hne''.
           { intros ->. apply Hfresh. by eapply list_elem_of_lookup_2. }
           rewrite !lookup_insert_ne by done. exists v'.
           rewrite Hv'. rewrite lookup_app_l by lia. done.
      * assert (i = length ls) as ->.
        { apply lookup_lt_Some in Hi. rewrite length_app in Hi. simpl in Hi. lia. }
        rewrite list_lookup_middle in Hi by done. simplify_eq.
        rewrite lookup_insert_ne, lookup_insert_eq by done. exists v.
        rewrite dll_before_app_l, dll_before_last, Ht by lia.
        rewrite lookup_ge_None_2; [done|]. rewrite length_app. simpl. lia.
  - symmetry in Ht. apply last_None in Ht. subst ls.
    eexists. split; [done|]. split_and!; simpl; try done.
    + apply NoDup_singleton.
    + simpl in Hs. lia.
    + intros [|i] l' Hi; simpl in *; [|done]. simplify_eq.
      rewrite lookup_insert_eq. eauto.
Qed.

Lemma dll_prepend_rep self ls v :
  DLL.rep self ls →
  ∃ self', DLL.prepend v self = Py.Ok tt self' ∧
           DLL.rep self' (fresh (dom (DLL.store self)) :: ls).
Proof.
  intros Hrep. pose proof (dll_fresh_not_in _ _ Hrep) as Hfresh.
  destruct Hrep as (Hnd & Hh & Ht & Hs & Hc). dll_unfold.
  set (l := fresh (dom (DLL.store self))) in *.
  destruct (DLL._head self) as [hd|] eqn:Hhd; simpl.
  - symmetry in Hh. pose proof Hh as Hfirst. rewrite head_lookup in Hfirst.
    destruct (Hc _ _ Hfirst) as [vh Hvh].
    assert (hd ≠ l) as Hne.
    { intros ->. apply Hfresh. by eapply list_elem_of_lookup_2. }
    rewrite lookup_insert_eq. simpl.
    rewrite !lookup_insert_ne, Hvh by done. simpl.
    eexists. split; [done|]. split_and!; simpl.
    + by constructor.
    + done.
    + rewrite Ht. destruct ls as [|x ls]; [done|].
      change (last (l :: x :: ls)) with (last (x :: ls)). done.
    + rewrite Hs. lia.
    + intros [|[|j]] l' Hi; simpl in *.
      * simplify_eq. rewrite lookup_insert_ne, lookup_insert_eq by done.
        exists v. by rewrite Hfirst.
      * assert (l' = hd) as -> by congruence.
        rewrite lookup_insert_eq. eauto.
      * destruct (Hc _ _ Hi) as [v' Hv'].
        assert (l' ≠ hd) as Hne'.
        { intros ->. pose proof (NoDup_lookup _ _ _ _ Hnd Hi Hfirst). lia. }
        assert (l' ≠ l) as Hne''.
        { intros ->. apply Hfresh. by eapply list_elem_of_lookup_2. }
        rewrite !lookup_insert_ne by done. eauto.
  - symmetry in Hh. destruct ls as [|x ls]; [|done].
    eexists. split; [done|]. split_and!; simpl; try done.
    + apply NoDup_singleton.
    + simpl in Hs. lia.
    + intros [|i] l' Hi; simpl in *; [|done]. simplify_eq.
      rewrite lookup_insert_eq. eauto.
Qed.

Lemma dll_pop_front_rep self l ls :
  DLL.rep self (l :: ls) →
  ∃ v self', DLL.pop_front self = Py.Ok v self' ∧ DLL.rep self' ls.
Proof.
  intros (Hnd & Hh & Ht & Hs & Hc). dll_unfold. rewrite Hh. simpl.
  destruct (Hc 0%nat l eq_refl) as [v Hv]. rewrite Hv. simpl.
  apply NoDup_cons in Hnd as [Hl Hnd].
  destruct ls as [|x ls]; simpl.
  - rewrite Hv. simpl. eexists _, _. split; [done|].
    split_and!; simpl; try done. simpl in Hs. lia.
  - destruct (Hc 1%nat x eq_refl) as [vx Hvx]. rewrite Hvx. simpl.
    assert (l ≠ x) as Hne by set_solver.
    rewrite lookup_insert_ne, Hv by done. simpl.
    eexists _, _. split; [done|]. split_and!; simpl; try done.
    + simpl in Hs. lia.
    + intros [|j] l' Hi; simpl in *.
      * simplify_eq. rewrite lookup_insert_eq. eauto.
      * destruct (Hc (S (S j)) l' Hi) as [v' Hv'].
        assert (l' ≠ x) as Hne'.
        { intros ->. apply NoDup_cons in Hnd as [Hx _]. apply Hx.
          by eapply list_elem_of_lookup_2. }
        rewrite lookup_insert_ne by done. eauto.
Qed.

Lemma dll_pop_back_rep self ls l :
  DLL.rep self (ls ++ [l]) →
  ∃ v self', DLL.pop_back self = Py.Ok v self' ∧ DLL.rep self' ls.
Proof.
  intros (Hnd & Hh & Ht & Hs & Hc). dll_unfold.
  rewrite Ht, last_snoc. simpl.
  destruct (Hc (length ls) l) as [v Hv]; [by rewrite list_lookup_middle|].
  rewrite Hv. simpl.
  rewrite dll_before_app_l, dll_before_last in * by lia.
  apply NoDup_app in Hnd as (Hnd & Hl & _).
  rewrite length_app in Hs. simpl in Hs.
  destruct (last ls) as [tl|] eqn:Hlast; simpl.
  - pose proof Hlast as Hlast'. rewrite last_lookup in Hlast'.
    pose proof (lookup_lt_Some _ _ _ Hlast') as Hlen.
    destruct (Hc (pred (length ls)) tl) as [vt Hvt]; [by rewrite lookup_app_l|].
    rewrite Hvt. simpl.
    assert (l ≠ tl) as Hne.
    { intros ->. eapply Hl; [by eapply list_elem_of_lookup_2|]. set_solver. }
    rewrite lookup_insert_ne, Hv by done. simpl.
    eexists _, _. split; [done|]. split_and!; simpl; try done.
    + rewrite Hh. by destruct ls.
    + lia.
    + intros i l' Hi. pose proof (lookup_lt_Some _ _ _ Hi) as Hi'.
      destruct (Hc i l') as [v' Hv']; [by rewrite lookup_app_l|].
      rewrite dll_before_app_l in Hv' by lia.
      destruct (decide (S i = length ls)) as [Heq|Hneq].
      * replace (pred (length ls)) with i in * by lia.
        assert (l' = tl) as -> by congruence.
        rewrite lookup_insert_eq. exists vt. simplify_eq.
        rewrite (lookup_ge_None_2 ls (S i)) by lia.
        by rewrite dll_before_app_l by lia.
      * assert (l' ≠ tl) as Hne'.
        { intros ->. pose proof (NoDup_lookup _ _ _ _ Hnd Hi Hlast'). lia. }
        rewrite lookup_insert_ne by done. exists v'.
        rewrite Hv'. by rewrite lookup_app_l by lia.
  - apply last_None in Hlast. subst ls. rewrite Hv. simpl.
    eexists _, _. split; [done|]. split_and!; simpl; try done.
    simpl in Hs. lia.
Qed.

Lemma dll_pop_front_empty self :
  DLL._head self = None →
  DLL.pop_front self =
  Py.Raise (Py.IndexError "pop_front from empty DoublyLinkedList") self.
Proof. intros Hh. dll_unfold. by rewrite Hh. Qed.

Lemma dll_pop_back_empty self :
  DLL._tail self = None →
  DLL.pop_back self =
  Py.Raise (Py.IndexError "pop_back from empty DoublyLinkedList") self.
Proof. intros Hh. dll_unfold. by rewrite Hh. Qed.

(** Every call keeps the list well-formed. *)
Lemma dll_call_rep self ls o :
  DLL.rep self ls → ∃ ls', DLL.rep (Py.state_after (DLL.call o self) self) ls'.
Proof.
  intros Hrep. destruct o as [v|v| |]; unfold DLL.call, Py.bind.
  - destruct (dll_append_rep _ _ v Hrep) as (self' & -> & Hrep'). eauto.
  - destruct (dll_prepend_rep _ _ v Hrep) as (self' & -> & Hrep'). eauto.
  - destruct ls as [|l ls].
    + rewrite dll_pop_front_empty by apply Hrep. eauto.
    + destruct (dll_pop_front_rep _ _ _ Hrep) as (v & self' & -> & Hrep'). eauto.
  - destruct (last ls) as [l|] eqn:Hlast.
    + apply last_Some in Hlast as [ls0 ->].
      destruct (dll_pop_back_rep _ _ _ Hrep) as (v & self' & -> & Hrep'). eauto.
    + rewrite dll_pop_back_empty; [eauto|].
      destruct Hrep as (_ & _ & -> & _). done.
Qed.

Lemma dll_run_rep ops self ls :
  DLL.rep self ls → ∃ ls', DLL.rep (DLL.run self ops) ls'.
Proof.
  revert self ls. induction ops as [|o ops IH]; intros self ls Hrep; simpl.
  - eauto.
  - destruct (dll_call_rep _ _ o Hrep) as [ls' Hrep']. by eapply IH.
Qed.

Lemma dll_nodes_from_rep self ls :
  DLL.rep self ls →
  ∀ fuel k, (length ls - k < fuel)%nat →
    DLL.nodes_from (DLL.store self) fuel (ls !! k) = Some (drop k ls).
Proof.
  intros (Hnd & Hh & Ht & Hs & Hc).
  induction fuel as [|fuel IH]; intros k Hk; [lia|].
  destruct (ls !! k) as [l|] eqn:Hl; simpl.
  - destruct (Hc _ _ Hl) as [v ->]. simpl.
    pose proof (lookup_lt_Some _ _ _ Hl) as Hlt. rewrite IH by lia.
    simpl. by rewrite (drop_S _ _ _ Hl).
  - apply lookup_ge_None in Hl. by rewrite drop_ge.
Qed.

Lemma dll_rep_invariant self ls :
  DLL.rep self ls → DLL.structural_invariant self.
Proof.
  intros Hrep. pose proof Hrep as (Hnd & Hh & Ht & Hs & Hc).
  split_and!.
  - rewrite Hs, Hh, Ht. destruct ls as [|x ls]; simpl; [done|].
    split; [lia|]. intros [? _]. done.
  - rewrite Hs, Hh, Ht. destruct ls as [|x [|y ls]]; simpl; try done. lia.
  - exists ls. split_and!; [|done|done].
    intros fuel Hf. rewrite Hh, head_lookup.
    rewrite (dll_nodes_from_rep _ _ Hrep) by lia. done.
Qed.

Lemma dll_rep_linkage self ls :
  DLL.rep self ls → DLL.symmetric_linkage self.
Proof.
  intros Hrep. pose proof Hrep as (Hnd & Hh & Ht & Hs & Hc).
  exists ls. split_and!.
  - intros fuel Hf. rewrite Hh, head_lookup.
    rewrite (dll_nodes_from_rep _ _ Hrep) by lia. done.
  - intros a b na Ha Hna Hnext.
    apply list_elem_of_lookup in Ha as [i Hi].
    destruct (Hc _ _ Hi) as [v Hv]. rewrite Hv in Hna. simplify_eq.
    simpl in Hnext. destruct (Hc _ _ Hnext) as [vb Hvb].
    eexists. split; [done|]. done.
  - intros h Hhd. rewrite Hh, head_lookup in Hhd.
    destruct (Hc _ _ Hhd) as [v Hv]. eauto.
  - intros tl Htl. rewrite Ht, last_lookup in Htl.
    destruct (Hc _ _ Htl) as [v Hv]. eexists. split; [done|]. simpl.
    apply lookup_ge_None_2. pose proof (lookup_lt_Some _ _ _ Htl). lia.
Qed.

(** C2: after any sequence of [append], [prepend], [pop_front] and
    [pop_back] calls on a [DoublyLinkedList], and hence after each single
    call of such a sequence, the links are symmetric: when the [next] of a
    node of the list is [b], the [prev] of [b] is that node; the [prev] of
    the head and the [next] of the tail are [None]. *)
Theorem dll_symmetric_linkage (ops : list DLL.op) :
  DLL.symmetric_linkage (DLL.run DLL.empty ops) ∧
  ∀ o : DLL.op,
    let self := DLL.run DLL.empty ops in
    DLL.symmetric_linkage (Py.state_after (DLL.call o self) self).
Proof.
  destruct (dll_run_rep ops _ _ dll_empty_rep) as [ls Hrep]. split.
  - by eapply dll_rep_linkage.
  - intros o self. destruct (dll_call_rep _ _ o Hrep) as [ls' Hrep'].
    by eapply dll_rep_linkage.
Qed.

(** C8: after any sequence of public mutating calls on a
    [SinglyLinkedList] or a [DoublyLinkedList], the size is 0 exactly when
    head and tail are both [None]; when the size is 1 head and tail are the
    same node; and the walk from the head along [next] ends, having met
    exactly [size] nodes, the last of which is the tail. *)
Theorem linked_list_structural_invariant :
  (∀ ops : list SLL.op, SLL.structural_invariant (SLL.run SLL.empty ops)) ∧
  (∀ ops : list DLL.op, DLL.structural_invariant (DLL.run DLL.empty ops)).
Proof.
  split; intros ops.
  - destruct (sll_run_rep ops _ _ sll_empty_rep) as [ls Hrep].
    by eapply sll_rep_invariant.
  - destruct (dll_run_rep ops _ _ dll_empty_rep) as [ls Hrep].
    by eapply dll_rep_invariant.
Qed.



(** ** The array-backed containers, maps, heaps and graph *)

Ltac py_unfold :=
  unfold PyList.getitem, PyList.setitem, PyList.insert, PyList.remove,
    PyList.modulo,
    Py.bind, Py.get, Py.put, Py.ret, Py.raise in *; simpl in *.

(** Closes [call o self = Raise e self' → self' = self] when every
    [raise] of the method comes before its first write. *)
Ltac raise_before_write :=
  py_unfold; repeat (case_match; py_unfold; simplify_eq); try done.
















Lemma circular_queue_call_capacity (self : CircularQueue.t) o :
  CircularQueue._capacity (Py.state_after (CircularQueue.call o self) self) =
  CircularQueue._capacity self.
Proof.
  destruct o;
    unfold CircularQueue.call, CircularQueue.enqueue, CircularQueue.dequeue,
      CircularQueue.set_data, CircularQueue.set_front, CircularQueue.set_size;
    raise_before_write.
Qed.

Lemma circular_queue_run_capacity ops (self : CircularQueue.t) :
  CircularQueue._capacity (CircularQueue.run self ops) =
  CircularQueue._capacity self.
Proof.
  revert self. induction ops as [|o ops IH]; intros self; simpl; [done|].
  unfold CircularQueue.run in IH. by rewrite IH, circular_queue_call_capacity.
Qed.

Lemma circular_queue_init capacity :
  match CircularQueue.init capacity with
  | inl e => capacity ≤ 0 ∧ Py.kind_of e = Some Py.InvalidArgument
  | inr self => 0 < capacity ∧ CircularQueue._capacity self = capacity
  end.
Proof. unfold CircularQueue.init. case_decide; simpl; split; (done || lia). Qed.

Example dynamic_array_insert_overflow :
  let self := DynamicArray.init (Some [1; 2; 3]) in
  DynamicArray.insert (2 ^ 63) 5 self
  = Py.Raise (Py.Builtin "OverflowError") self ∧
  DynamicArray.insert (2 ^ 63 - 1) 5 self
  = Py.Ok tt (DynamicArray.init (Some [1; 2; 3; 5])) ∧
  DynamicArray.insert (- 2 ^ 63) 5 self
  = Py.Ok tt (DynamicArray.init (Some [5; 1; 2; 3])).
Proof. vm_compute. done. Qed.

Example sll_pop_front_empty_example :
  SLL.pop_front SLL.empty =
  Py.Raise (Py.IndexError "pop_front from empty SinglyLinkedList") SLL.empty ∧
  SLL.len SLL.empty = 0.
Proof. done. Qed.


(* ===================================================================== *)
(** * Part III: further properties of the code                           *)
(* ===================================================================== *)

(** ** BinarySearchTree: membership, traversals, shape *)

Lemma bst_contains_walk_ordered value node :
  BST.ordered node →
  BST.contains_walk value node = true ↔ value ∈ BST.in_order_values node.
Proof.
  induction node as [|v l IHl r IHr]; simpl.
  - intros _. split; [done|]. by intros ?%elem_of_nil.
  - intros (Hl & Hr & Ol & Or). rewrite elem_of_app, elem_of_cons.
    rewrite Forall_forall in Hl. rewrite Forall_forall in Hr.
    repeat case_decide.
    + rewrite (IHl Ol). split; [auto|]. intros [?|[->|Hx]]; [done|lia|].
      apply Hr in Hx. lia.
    + rewrite (IHr Or). split; [auto|]. intros [Hx|[->|?]]; [|lia|done].
      apply Hl in Hx. lia.
    + split; [|done]. intros _. right. left. lia.
Qed.

(** X1: [contains] finds exactly the values that were inserted. *)
Theorem bst_contains_iff_inserted (values : list Z) (x : Z) :
  BST.contains (BST.insert_all BST.empty values) x = true ↔ x ∈ values.
Proof.
  destruct (bst_insert_all_built BST.empty [] values bst_empty_built)
    as (Ho & He & _). simpl in He.
  unfold BST.contains. rewrite (bst_contains_walk_ordered _ _ Ho). apply He.
Qed.

Lemma bst_pre_order_walk_perm node :
  BST.pre_order_values node ≡ₚ BST.in_order_values node.
Proof.
  induction node as [|v l IHl r IHr]; simpl; [done|].
  rewrite IHl, IHr. by rewrite Permutation_middle.
Qed.

Lemma bst_post_order_walk_perm node :
  BST.post_order_values node ≡ₚ BST.in_order_values node.
Proof.
  induction node as [|v l IHl r IHr]; simpl; [done|].
  rewrite IHl, IHr. apply Permutation_app_head.
  rewrite <- Permutation_cons_append. done.
Qed.

Lemma bst_pre_order_walk_complete (frames : nat) (node : BST.tree) :
  (BST.height node < frames)%nat →
  BST.pre_order_walk frames node = (BST.pre_order_values node, None).
Proof.
  revert frames. induction node as [|v l IHl r IHr]; intros [|frames] H;
    simpl in *; try lia; [done|].
  rewrite IHl, IHr by lia. done.
Qed.

Lemma bst_post_order_walk_complete (frames : nat) (node : BST.tree) :
  (BST.height node < frames)%nat →
  BST.post_order_walk frames node = (BST.post_order_values node, None).
Proof.
  revert frames. induction node as [|v l IHl r IHr]; intros [|frames] H;
    simpl in *; try lia; [done|].
  rewrite IHl, IHr by lia. done.
Qed.

Lemma bst_pre_order_walk_raises (frames : nat) (node : BST.tree) :
  (frames ≤ BST.height node)%nat →
  ∃ ys, BST.pre_order_walk frames node = (ys, Some Py.RecursionError) ∧
        ys `prefix_of` BST.pre_order_values node.
Proof.
  revert frames. induction node as [|v l IHl r IHr]; intros [|frames] H;
    simpl in *; try lia.
  - exists []. split; [done|apply prefix_nil].
  - exists []. split; [done|apply prefix_nil].
  - destruct (decide (frames ≤ BST.height l)%nat) as [Hl|Hl].
    + destruct (IHl frames Hl) as (ys & -> & Hp). simpl.
      exists (v :: ys). split; [done|]. by apply prefix_cons, prefix_app_r.
    + rewrite bst_pre_order_walk_complete by lia.
      destruct (IHr frames ltac:(lia)) as (ys & -> & Hp). simpl.
      exists (v :: BST.pre_order_values l ++ ys). split; [done|].
      by apply prefix_cons, prefix_app.
Qed.

Lemma removelast_prefix {A} (l : list A) : removelast l `prefix_of` l.
Proof.
  destruct l as [|x l _] using rev_ind; [done|].
  rewrite removelast_last. by apply prefix_app_r.
Qed.

Lemma bst_post_order_walk_raises (frames : nat) (node : BST.tree) :
  (frames ≤ BST.height node)%nat →
  ∃ ys, BST.post_order_walk frames node = (ys, Some Py.RecursionError) ∧
        ys `prefix_of` removelast (BST.post_order_values node).
Proof.
  revert frames. induction node as [|v l IHl r IHr]; intros [|frames] H;
    simpl in *; try lia.
  - exists []. split; [done|apply prefix_nil].
  - exists []. split; [done|apply prefix_nil].
  - rewrite app_assoc, removelast_last.
    destruct (decide (frames ≤ BST.height l)%nat) as [Hl|Hl].
    + destruct (IHl frames Hl) as (ys & -> & Hp). simpl.
      exists ys. split; [done|]. apply prefix_app_r.
      etrans; [done|]. apply removelast_prefix.
    + rewrite bst_post_order_walk_complete by lia.
      destruct (IHr frames ltac:(lia)) as (ys & -> & Hp). simpl.
      exists (BST.post_order_values l ++ ys). split; [done|].
      apply prefix_app. etrans; [done|]. apply removelast_prefix.
Qed.

(** X2: the three traversals stand and fall together.  With more frames
    left than the height of the tree plus one, each yields every value of
    the tree, the same values up to order, and on a tree built by
    insertions exactly [len()] of them; with fewer, each ends in
    [RecursionError]. *)
Theorem bst_traversals_same_values (self : BST.t) (frames : nat) :
  ((BST.height (BST._root self) + 1 < frames)%nat →
   ∃ ins pre post,
     BST.in_order frames self = (ins, None) ∧
     BST.pre_order frames self = (pre, None) ∧
     BST.post_order frames self = (post, None) ∧
     pre ≡ₚ ins ∧ post ≡ₚ ins ∧
     (∀ values, self = BST.insert_all BST.empty values →
        Z.of_nat (length ins) = BST.len self ∧
        Z.of_nat (length pre) = BST.len self ∧
        Z.of_nat (length post) = BST.len self)) ∧
  ((frames ≤ BST.height (BST._root self) + 1)%nat →
   ∃ ins pre post,
     BST.in_order frames self = (ins, Some Py.RecursionError) ∧
     BST.pre_order frames self = (pre, Some Py.RecursionError) ∧
     BST.post_order frames self = (post, Some Py.RecursionError)).
Proof.
  split; intros H.
  - destruct frames as [|frames]; [lia|].
    exists (BST.in_order_values (BST._root self)),
      (BST.pre_order_values (BST._root self)),
      (BST.post_order_values (BST._root self)). simpl.
    rewrite bst_in_order_walk_complete, bst_pre_order_walk_complete,
      bst_post_order_walk_complete by lia.
    split_and!; try done;
      [apply bst_pre_order_walk_perm|apply bst_post_order_walk_perm|].
    intros values ->.
    destruct (bst_insert_all_built BST.empty [] values bst_empty_built)
      as (_ & _ & Hs). unfold BST.len.
    rewrite bst_pre_order_walk_perm, bst_post_order_walk_perm.
    by rewrite Hs.
  - destruct frames as [|frames]; [by exists [], [], []|]. simpl.
    destruct (bst_in_order_walk_raises frames (BST._root self))
      as (ins & -> & _); [lia|].
    destruct (bst_pre_order_walk_raises frames (BST._root self))
      as (pre & -> & _); [lia|].
    destruct (bst_post_order_walk_raises frames (BST._root self))
      as (post & -> & _); [lia|].
    by exists ins, pre, post.
Qed.

Lemma bst_traversals_same_values_witness :
  let self := BST.insert_all BST.empty [10; 5; 15; 12; 18; 5] in
  ∃ ins pre post,
    BST.in_order 1000 self = (ins, None) ∧
    BST.pre_order 1000 self = (pre, None) ∧
    BST.post_order 1000 self = (post, None) ∧
    pre ≡ₚ ins ∧ post ≡ₚ ins ∧ Z.of_nat (length ins) = BST.len self.
Proof.
  intros self.
  destruct (bst_traversals_same_values self 1000) as [Hdone _].
  destruct Hdone as (ins & pre & post & Hi & Hp & Hq & Hpi & Hqi & Hlen);
    [vm_compute; lia|].
  exists ins, pre, post. split_and!; try done.
  by destruct (Hlen [10; 5; 15; 12; 18; 5] eq_refl).
Defined.

Lemma bst_insert_walk_root value v l r :
  ∃ l' r', (BST.insert_walk value (BST.BSTNode v l r)).1 = BST.BSTNode v l' r'.
Proof.
  simpl. repeat case_decide.
  - destruct (BST.insert_walk value l). by eexists _, _.
  - destruct (BST.insert_walk value r). by eexists _, _.
  - by eexists _, _.
Qed.

Lemma bst_insert_all_root self v l r more :
  BST._root self = BST.BSTNode v l r →
  ∃ l' r', BST._root (BST.insert_all self more) = BST.BSTNode v l' r'.
Proof.
  revert self l r. induction more as [|x more IH]; intros self l r Hroot; simpl.
  - eauto.
  - destruct (bst_insert_walk_root x v l r) as (l' & r' & Hw).
    eapply (IH _ l' r'). unfold BST.insert. rewrite Hroot.
    by destruct (BST.insert_walk x (BST.BSTNode v l r)).
Qed.

(** X3: the first value inserted into an empty tree stays at the root,
    whatever is inserted afterwards.  It is the first value [pre_order]
    yields, as soon as there are frames for the generator and its first
    walk; it is the last value [post_order] yields when [post_order] runs
    to its end, and is not yielded at all when that ends in
    [RecursionError]. *)
Theorem bst_first_inserted_is_root (v : Z) (more : list Z) (frames : nat) :
  let self := BST.insert_all BST.empty (v :: more) in
  ((2 ≤ frames)%nat → head (BST.pre_order frames self).1 = Some v) ∧
  ((BST.height (BST._root self) + 1 < frames)%nat →
   ∃ post, BST.post_order frames self = (post, None) ∧ last post = Some v) ∧
  ((frames ≤ BST.height (BST._root self) + 1)%nat →
   ∃ post, BST.post_order frames self = (post, Some Py.RecursionError) ∧
           v ∉ post).
Proof.
  intros self.
  destruct (bst_insert_all_root (BST.insert BST.empty v) v BST.Nil BST.Nil more)
    as (l & r & Hroot); [done|].
  change (BST.insert_all (BST.insert BST.empty v) more) with self in Hroot.
  split_and!; intros H.
  - destruct frames as [|[|frames]]; [lia|lia|]. simpl. rewrite Hroot. simpl.
    by destruct (Py.gen_seq _ _).
  - destruct frames as [|frames]; [lia|]. simpl.
    rewrite bst_post_order_walk_complete by lia.
    eexists. split; [done|]. rewrite Hroot. simpl.
    by rewrite app_assoc, last_snoc.
  - destruct frames as [|frames].
    { exists []. split; [done|]. by intros ?%elem_of_nil. }
    simpl.
    destruct (bst_post_order_walk_raises frames (BST._root self))
      as (post & -> & Hp); [lia|].
    exists post. split; [done|]. intros Hv.
    destruct (bst_insert_all_built BST.empty [] (v :: more) bst_empty_built)
      as (Ho & _). fold self in Ho.
    rewrite Hroot in Hp, Ho. simpl in Hp, Ho.
    rewrite app_assoc, removelast_last in Hp.
    destruct Ho as (Hl & Hr & _).
    destruct Hp as [k Hk].
    assert (v ∈ BST.post_order_values l ++ BST.post_order_values r) as Hin.
    { rewrite Hk. set_solver. }
    rewrite bst_post_order_walk_perm, bst_post_order_walk_perm in Hin.
    apply elem_of_app in Hin as [Hin|Hin].
    + eapply Forall_forall in Hl; [|done]. lia.
    + eapply Forall_forall in Hr; [|done]. lia.
Qed.

Lemma bst_first_inserted_is_root_witness :
  let self := BST.insert_all BST.empty [10; 5; 15; 12; 18; 5] in
  head (BST.pre_order 2 self).1 = Some 10 ∧
  (∃ post, BST.post_order 5 self = (post, None) ∧ last post = Some 10) ∧
  (∃ post, BST.post_order 4 self = (post, Some Py.RecursionError) ∧
           10 ∉ post).
Proof.
  intros self. split_and!.
  - apply (bst_first_inserted_is_root 10 [5; 15; 12; 18; 5] 2). lia.
  - apply (bst_first_inserted_is_root 10 [5; 15; 12; 18; 5] 5).
    vm_compute. lia.
  - apply (bst_first_inserted_is_root 10 [5; 15; 12; 18; 5] 4).
    vm_compute. lia.
Defined.

Lemma bst_insert_walk_spine (values : list Z) v :
  Forall (λ x, x < v) values →
  BST.insert_walk v (BSTShape.right_spine values) =
  (BSTShape.right_spine (values ++ [v]), true).
Proof.
  induction values as [|x values IH]; simpl; [done|].
  intros [Hx Hall]%Forall_cons. rewrite decide_False, decide_True by lia.
  by rewrite (IH Hall).
Qed.

Lemma bst_insert_all_snoc self values v :
  BST.insert_all self (values ++ [v]) =
  BST.insert (BST.insert_all self values) v.
Proof. unfold BST.insert_all. by rewrite foldl_app. Qed.

Lemma bst_insert_all_increasing (values : list Z) :
  StronglySorted Z.lt values →
  BST.insert_all BST.empty values =
  {| BST._root := BSTShape.right_spine values;
     BST._size := Z.of_nat (length values) |}.
Proof.
  induction values as [|v values IH] using rev_ind; [done|].
  intros [Hlt [Hs _]]%StronglySorted_app.
  rewrite bst_insert_all_snoc, (IH Hs). unfold BST.insert. simpl.
  rewrite bst_insert_walk_spine.
  - f_equal. rewrite length_app. simpl. lia.
  - apply Forall_forall. intros x Hx. apply Hlt; [done|]. set_solver.
Qed.

Lemma bst_right_spine_height values :
  BST.height (BSTShape.right_spine values) = length values.
Proof. induction values as [|v values IH]; simpl; by rewrite ?IH. Qed.

Lemma bst_right_spine_in_order_walk values frames :
  BST.in_order_walk frames (BSTShape.right_spine values) =
  if decide (length values < frames)%nat then (values, None)
  else (take (frames - 1) values, Some Py.RecursionError).
Proof.
  revert frames. induction values as [|v values IH]; intros [|frames];
    try (simpl; repeat case_decide; (done || lia)).
  change (BST.in_order_walk (S frames) (BSTShape.right_spine (v :: values)))
    with (Py.gen_seq (BST.in_order_walk frames BST.Nil)
            (Py.gen_seq (Py.yield v)
               (BST.in_order_walk frames (BSTShape.right_spine values)))).
  rewrite IH. destruct frames as [|frames]; simpl; rewrite ?Nat.sub_0_r;
    repeat case_decide; (done || lia).
Qed.

Lemma bst_right_spine_pre_order_walk values frames :
  BST.pre_order_walk frames (BSTShape.right_spine values) =
  if decide (length values < frames)%nat then (values, None)
  else (take frames values, Some Py.RecursionError).
Proof.
  revert frames. induction values as [|v values IH]; intros [|frames];
    try (simpl; repeat case_decide; (done || lia)).
  change (BST.pre_order_walk (S frames) (BSTShape.right_spine (v :: values)))
    with (Py.gen_seq (Py.yield v)
            (Py.gen_seq (BST.pre_order_walk frames BST.Nil)
               (BST.pre_order_walk frames (BSTShape.right_spine values)))).
  rewrite IH. destruct frames as [|frames]; simpl;
    repeat case_decide; (done || lia).
Qed.

Lemma bst_right_spine_post_order_walk values frames :
  BST.post_order_walk frames (BSTShape.right_spine values) =
  if decide (length values < frames)%nat then (reverse values, None)
  else ([], Some Py.RecursionError).
Proof.
  revert frames. induction values as [|v values IH]; intros [|frames];
    try (simpl; repeat case_decide; (done || lia)).
  change (BST.post_order_walk (S frames) (BSTShape.right_spine (v :: values)))
    with (Py.gen_seq (BST.post_order_walk frames BST.Nil)
            (Py.gen_seq
               (BST.post_order_walk frames (BSTShape.right_spine values))
               (Py.yield v))).
  rewrite IH, reverse_cons. destruct frames as [|frames]; simpl;
    repeat case_decide; (done || lia).
Qed.

(** X4: the tree is not balanced, and the recursion of the traversals is
    as deep as the tree.  Inserting strictly increasing values into an
    empty tree gives the chain of right children, as high as there are
    values.  With more frames left than values plus one, [in_order] and
    [pre_order] yield the values in insertion order and [post_order] in
    reverse; with fewer, all three end in [RecursionError]: [in_order]
    after the first [frames - 2] values, [pre_order] after the first
    [frames - 1], [post_order] before it yields anything. *)
Theorem bst_increasing_input_degenerates (values : list Z) (frames : nat) :
  StronglySorted Z.lt values →
  let self := BST.insert_all BST.empty values in
  BST._root self = BSTShape.right_spine values ∧
  BST.height (BST._root self) = length values ∧
  ((length values + 1 < frames)%nat →
   BST.in_order frames self = (values, None) ∧
   BST.pre_order frames self = (values, None) ∧
   BST.post_order frames self = (reverse values, None)) ∧
  ((frames ≤ length values + 1)%nat →
   BST.in_order frames self
   = (take (frames - 2) values, Some Py.RecursionError) ∧
   BST.pre_order frames self
   = (take (frames - 1) values, Some Py.RecursionError) ∧
   BST.post_order frames self = ([], Some Py.RecursionError)).
Proof.
  intros Hs self. unfold self.
  rewrite (bst_insert_all_increasing _ Hs).
  unfold BST.in_order, BST.pre_order, BST.post_order. simpl.
  split_and!; [done|apply bst_right_spine_height| |]; intros H.
  - destruct frames as [|frames]; [lia|].
    rewrite bst_right_spine_in_order_walk, bst_right_spine_pre_order_walk,
      bst_right_spine_post_order_walk.
    rewrite !decide_True by lia. done.
  - destruct frames as [|frames]; [done|].
    rewrite bst_right_spine_in_order_walk, bst_right_spine_pre_order_walk,
      bst_right_spine_post_order_walk.
    rewrite !decide_False by lia. simpl. rewrite Nat.sub_0_r.
    replace (frames - 1)%nat with (S frames - 2)%nat by lia. done.
Qed.

Lemma bst_increasing_input_degenerates_witness :
  let self := BST.insert_all BST.empty [1; 2; 3; 5] in
  BST._root self = BSTShape.right_spine [1; 2; 3; 5] ∧
  BST.height (BST._root self) = 4%nat ∧
  BST.pre_order 6 self = ([1; 2; 3; 5], None) ∧
  BST.in_order 4 self = ([1; 2], Some Py.RecursionError).
Proof.
  assert (StronglySorted Z.lt [1; 2; 3; 5]) as Hs.
  { repeat (constructor; [|repeat constructor; lia]). constructor. }
  intros self.
  destruct (bst_increasing_input_degenerates [1; 2; 3; 5] 6 Hs)
    as (Hroot & Hheight & Hdone & _).
  destruct (bst_increasing_input_degenerates [1; 2; 3; 5] 4 Hs)
    as (_ & _ & _ & Hraise).
  split_and!; [exact Hroot|exact Hheight| |].
  - apply Hdone. simpl. lia.
  - apply Hraise. simpl. lia.
Defined.

(** ** Trie: word count and prefixes *)

Lemma trie_insert_walk_marked word node :
  (Trie.insert_walk word node).2 = negb (Trie.search_walk word node).
Proof.
  revert node. induction word as [|ch rest IH]; intros node; simpl.
  - by destruct (Trie.is_end node).
  - specialize (IH (default Trie.new_node (Trie.children node !! ch))).
    destruct (Trie.insert_walk rest _) as [child' m]; simpl in *.
    rewrite IH. destruct (Trie.children node !! ch); simpl; [done|].
    by rewrite trie_search_walk_new.
Qed.

Lemma trie_insert_len self word :
  Trie.len (Trie.insert self word) =
  if Trie.search self word then Trie.len self else Trie.len self + 1.
Proof.
  unfold Trie.len, Trie.insert, Trie.search.
  pose proof (trie_insert_walk_marked word (Trie._root self)) as Hm.
  destruct (Trie.insert_walk word (Trie._root self)) as [root' m]; simpl in *.
  rewrite Hm. by destruct (Trie.search_walk word (Trie._root self)).
Qed.

Lemma remove_dups_snoc_length {A} `{EqDecision A} (l : list A) (w : A) :
  length (remove_dups (l ++ [w])) =
  if decide (w ∈ l) then length (remove_dups l) else S (length (remove_dups l)).
Proof.
  induction l as [|x l IH]; simpl.
  - destruct (decide (w ∈ [])) as [Hin|_]; [by apply elem_of_nil in Hin|done].
  - repeat case_decide; simpl; rewrite ?IH; repeat case_decide;
      try done; set_solver.
Qed.

Lemma trie_insert_all_snoc self words w :
  Trie.insert_all self (words ++ [w]) =
  Trie.insert (Trie.insert_all self words) w.
Proof. unfold Trie.insert_all. by rewrite foldl_app. Qed.

(** X5: [len()] of a trie is the number of distinct words inserted, not
    the number of [insert] calls or of nodes. *)
Theorem trie_len_counts_distinct_words (words : list (list ascii)) :
  Trie.len (Trie.insert_all Trie.empty words) =
  Z.of_nat (length (remove_dups words)).
Proof.
  induction words as [|w words IH] using rev_ind; [done|].
  rewrite trie_insert_all_snoc, trie_insert_len, IH, remove_dups_snoc_length.
  pose proof (trie_search_insert_all Trie.empty words w) as Hsearch.
  destruct (Trie.search (Trie.insert_all Trie.empty words) w) eqn:Hs.
  - rewrite decide_True; [done|].
    destruct (proj1 Hsearch eq_refl) as [Hin|He]; [done|].
    unfold Trie.search in He. simpl in He.
    by rewrite trie_search_walk_new in He.
  - rewrite decide_False; [lia|]. intros Hin.
    by pose proof (proj2 Hsearch (or_introl Hin)).
Qed.

(** X6: [starts_with] accepts exactly the empty prefix and the prefixes
    of the inserted words; in particular every word [search] finds is also
    accepted by [starts_with]. *)
Theorem trie_starts_with_iff_prefix (words : list (list ascii)) (p : list ascii) :
  let self := Trie.insert_all Trie.empty words in
  (Trie.starts_with self p = true ↔ p = [] ∨ ∃ w, w ∈ words ∧ p `prefix_of` w) ∧
  (Trie.search self p = true → Trie.starts_with self p = true).
Proof.
  intros self.
  assert (Trie.starts_with self p = true ↔
          p = [] ∨ ∃ w, w ∈ words ∧ p `prefix_of` w) as Hiff.
  { unfold self. rewrite trie_starts_with_insert_all. split.
    - intros [?|He]; [by right|]. left.
      by apply trie_starts_with_walk_new in He.
    - intros [->|?]; [by right|by left]. }
  split; [done|]. intros Hs. apply Hiff. right. exists p. split; [|done].
  apply trie_search_insert_all in Hs as [?|He]; [done|].
  unfold Trie.search in He. simpl in He. by rewrite trie_search_walk_new in He.
Qed.

(** ** DisjointSet: the forest, roots and connectivity *)

Lemma dsu_on_chain_same_root self i x r r' :
  DSU.on_chain self i x → DSU.root_of self i r → DSU.root_of self x r' → r' = r.
Proof.
  induction 1 as [i|i p x Hi Hne _ IH]; intros Hr Hr'.
  - by eapply dsu_root_of_det.
  - inversion Hr; simplify_eq. by apply IH.
Qed.

(** Path compression does not move any item to another root. *)
Lemma dsu_find_keeps_roots self fuel item r self' :
  DSU.wf self → DSU.find fuel item self = Py.Ok r self' →
  ∀ x rx, DSU.root_of (DSU.registered self item) x rx → DSU.root_of self' x rx.
Proof.
  intros Hwf Hf.
  destruct (dsu_find_result _ _ _ _ _ Hwf Hf)
    as (Hroot & _ & _ & Hon & Hoff & Hdec).
  assert (DSU._parent self' !! r = Some r) as Hr.
  { apply Hon. by apply dsu_root_of_on_chain. }
  intros x rx. induction 1 as [x Hx|x p rx Hx Hne Hp IH].
  - constructor. destruct (Hdec x) as [Hc|Hc].
    + rewrite (Hon _ Hc). f_equal. symmetry. by eapply dsu_on_chain_root.
    + by rewrite (Hoff _ Hc).
  - destruct (Hdec x) as [Hc|Hc].
    + assert (rx = r) as ->.
      { eapply dsu_on_chain_same_root; [done|done|]. by econstructor. }
      destruct (decide (x = r)) as [->|Hxr].
      * apply dsu_root_of_root in Hroot. congruence.
      * eapply DSU.root_up; [by apply Hon|done|by constructor].
    + eapply DSU.root_up; [|done|done]. by rewrite (Hoff _ Hc).
Qed.

Lemma dsu_root_of_known self x r :
  DSU.root_of self x r → is_Some (DSU._parent self !! x).
Proof. destruct 1; eauto. Qed.

(** On a well-formed state every known item has a root. *)
Lemma dsu_wf_has_root self x :
  DSU.wf self → is_Some (DSU._parent self !! x) → ∃ r, DSU.root_of self x r.
Proof.
  intros Hwf [p Hp].
  destruct (dsu_find_spec self x Hwf) as (r & _ & _ & _ & Hroot & _).
  rewrite (dsu_registered_id _ _ _ Hp) in Hroot. eauto.
Qed.

Lemma dsu_find_dom self fuel item r self' x :
  DSU.wf self → DSU.find fuel item self = Py.Ok r self' →
  is_Some (DSU._parent self' !! x) ↔
  is_Some (DSU._parent (DSU.registered self item) !! x).
Proof.
  intros Hwf Hf.
  destruct (dsu_find_result _ _ _ _ _ Hwf Hf) as (_ & Hwf' & Hrank & _).
  pose proof (dsu_registered_wf self item Hwf) as Hwf0.
  rewrite (proj1 Hwf' x), (proj1 Hwf0 x), Hrank. done.
Qed.

(** The converse: a root after [find] was the root before. *)
Lemma dsu_find_roots_back self fuel item r self' :
  DSU.wf self → DSU.find fuel item self = Py.Ok r self' →
  ∀ x rx, DSU.root_of self' x rx → DSU.root_of (DSU.registered self item) x rx.
Proof.
  intros Hwf Hf x rx Hrx.
  pose proof (dsu_registered_wf self item Hwf) as Hwf0.
  destruct (dsu_wf_has_root (DSU.registered self item) x Hwf0) as [r0 Hr0].
  { apply (dsu_find_dom self fuel item r self' x Hwf Hf).
    by eapply dsu_root_of_known. }
  pose proof (dsu_find_keeps_roots _ _ _ _ _ Hwf Hf _ _ Hr0) as Hr0'.
  by rewrite (dsu_root_of_det _ _ _ _ Hrx Hr0').
Qed.

Lemma dsu_registered_rank_nonneg self item :
  (∀ x rx, DSU._rank self !! x = Some rx → 0 ≤ rx) →
  ∀ x rx, DSU._rank (DSU.registered self item) !! x = Some rx → 0 ≤ rx.
Proof.
  intros Hnn x rx. unfold DSU.registered.
  destruct (DSU._parent self !! item); simpl; [apply Hnn|].
  rewrite lookup_insert. case_decide; [intros [= <-]; lia|apply Hnn].
Qed.

Lemma dsu_find_rank_nonneg self fuel item r self' :
  DSU.wf self → DSU.find fuel item self = Py.Ok r self' →
  (∀ x rx, DSU._rank self !! x = Some rx → 0 ≤ rx) →
  ∀ x rx, DSU._rank self' !! x = Some rx → 0 ≤ rx.
Proof.
  intros Hwf Hf Hnn.
  destruct (dsu_find_result _ _ _ _ _ Hwf Hf) as (_ & _ & -> & _).
  by apply dsu_registered_rank_nonneg.
Qed.

Lemma dsu_reachable_rank_nonneg self :
  DSU.reachable self → ∀ x rx, DSU._rank self !! x = Some rx → 0 ≤ rx.
Proof.
  induction 1 as [|self item u self' Hr IH Hm|self fuel item r self' Hr IH Hf
                  |self fuel a b u self' Hr IH Hu|self fuel a b c self' Hr IH Hc];
    try (apply dsu_reachable_wf in Hr as Hwf).
  - intros x rx. simpl. by rewrite lookup_empty.
  - rewrite dsu_make_set_registered in Hm. injection Hm as Hm. subst self'.
    by apply dsu_registered_rank_nonneg.
  - by eapply dsu_find_rank_nonneg.
  - pose proof Hu as Hu'. unfold DSU.union, Py.bind at 1 in Hu'.
    destruct (DSU.find fuel a self) as [ra s1| | |] eqn:Ha; try done.
    unfold Py.bind at 1 in Hu'.
    destruct (DSU.find fuel b s1) as [rb s2| | |] eqn:Hb; try done. clear Hu'.
    destruct (dsu_find_result _ _ _ _ _ Hwf Ha) as (_ & Hwf1 & _).
    pose proof (dsu_find_rank_nonneg _ _ _ _ _ Hwf Ha IH) as Hnn1.
    pose proof (dsu_find_rank_nonneg _ _ _ _ _ Hwf1 Hb Hnn1) as Hnn2.
    destruct (dsu_union_finds _ _ _ _ _ _ _ _ Hwf Ha Hb)
      as (_ & _ & _ & rka & rkb & Hra & Hrb).
    rewrite (dsu_union_eval _ _ _ _ _ _ _ _ _ _ Ha Hb Hra Hrb) in Hu.
    injection Hu as _ Hu. subst self'.
    repeat case_decide; simpl; try done.
    intros x rx. rewrite lookup_insert. case_decide; [|apply Hnn2].
    intros [= <-]. apply Hnn2 in Hra. lia.
  - unfold DSU.connected, Py.bind at 1 in Hc.
    destruct (DSU.find fuel a self) as [ra s1| | |] eqn:Ha; try done.
    unfold Py.bind at 1 in Hc.
    destruct (DSU.find fuel b s1) as [rb s2| | |] eqn:Hb; try done.
    injection Hc as _ Hc. subst self'.
    destruct (dsu_find_result _ _ _ _ _ Hwf Ha) as (_ & Hwf1 & _).
    pose proof (dsu_find_rank_nonneg _ _ _ _ _ Hwf Ha IH) as Hnn1.
    by apply (dsu_find_rank_nonneg _ _ _ _ _ Hwf1 Hb Hnn1).
Qed.

(** X7: every state of a [DisjointSet] is a forest.  The two dictionaries
    have the same keys; following the parent links from a known item ends
    at a self-parented root; ranks are non-negative and strictly increase
    from an item to its parent, so the only cycles are the self-loops of
    the roots. *)
Theorem dsu_reachable_forest self :
  DSU.reachable self →
  (∀ x, is_Some (DSU._parent self !! x) ↔ is_Some (DSU._rank self !! x)) ∧
  (∀ x, is_Some (DSU._parent self !! x) →
     ∃ r, DSU.root_of self x r ∧ DSU._parent self !! r = Some r) ∧
  (∀ x p, DSU._parent self !! x = Some p → p ≠ x →
     ∃ rx rp, DSU._rank self !! x = Some rx ∧ DSU._rank self !! p = Some rp ∧
              rx < rp) ∧
  (∀ x rx, DSU._rank self !! x = Some rx → 0 ≤ rx).
Proof.
  intros Hreach. pose proof (dsu_reachable_wf _ Hreach) as Hwf.
  split_and!.
  - apply Hwf.
  - intros x Hx. destruct (dsu_wf_has_root _ _ Hwf Hx) as [r Hr].
    exists r. split; [done|]. by eapply dsu_root_of_root.
  - apply Hwf.
  - by apply dsu_reachable_rank_nonneg.
Qed.

Lemma dsu_reachable_forest_witness :
  (∀ x, is_Some (DSU._parent DSU.example !! x) ↔
        is_Some (DSU._rank DSU.example !! x)) ∧
  (∀ x, is_Some (DSU._parent DSU.example !! x) →
     ∃ r, DSU.root_of DSU.example x r ∧ DSU._parent DSU.example !! r = Some r) ∧
  (∀ x p, DSU._parent DSU.example !! x = Some p → p ≠ x →
     ∃ rx rp, DSU._rank DSU.example !! x = Some rx ∧
              DSU._rank DSU.example !! p = Some rp ∧ rx < rp) ∧
  (∀ x rx, DSU._rank DSU.example !! x = Some rx → 0 ≤ rx).
Proof.
  apply (dsu_reachable_forest DSU.example). dsu_example_reachable.
Defined.

(** X8: [find] returns the root of its argument, and path compression
    changes no root: every item has after the call the root it had before
    it (after the registration of the argument). *)
Theorem dsu_find_keeps_partition self fuel item r self' :
  DSU.reachable self → DSU.find fuel item self = Py.Ok r self' →
  let self0 := DSU.registered self item in
  DSU.root_of self0 item r ∧
  ∀ x rx, DSU.root_of self0 x rx ↔ DSU.root_of self' x rx.
Proof.
  intros Hwf%dsu_reachable_wf Hf self0. split.
  - by destruct (dsu_find_result _ _ _ _ _ Hwf Hf) as (? & _).
  - intros x rx. split.
    + by eapply dsu_find_keeps_roots.
    + by eapply dsu_find_roots_back.
Qed.

Lemma dsu_find_keeps_partition_witness :
  let self' := Py.state_after (DSU.find 3 4 DSU.example) DSU.example in
  let self0 := DSU.registered DSU.example 4 in
  DSU.root_of self0 4 1 ∧
  ∀ x rx, DSU.root_of self0 x rx ↔ DSU.root_of self' x rx.
Proof.
  apply (dsu_find_keeps_partition DSU.example 3 4 1).
  - dsu_example_reachable.
  - vm_compute. reflexivity.
Defined.

(** X9: a second [find] of the same item is answered from the compressed
    link: it returns the same root and changes nothing. *)
Theorem dsu_find_again self fuel item r self' :
  DSU.reachable self → DSU.find fuel item self = Py.Ok r self' →
  ∀ n, (2 ≤ n)%nat → DSU.find n item self' = Py.Ok r self'.
Proof.
  intros Hwf%dsu_reachable_wf Hf n Hn.
  destruct (dsu_find_result _ _ _ _ _ Hwf Hf) as (Hroot & _ & _ & Hon & _).
  assert (DSU._parent self' !! item = Some r) as Hitem.
  { apply Hon. constructor. }
  assert (DSU._parent self' !! r = Some r) as Hr.
  { apply Hon. by apply dsu_root_of_on_chain. }
  destruct n as [|[|m]]; [lia|lia|].
  destruct (dsu_find_S (S m) item self') as (p & Hp & ->).
  rewrite (dsu_registered_id _ _ _ Hitem) in *. simplify_eq.
  case_decide; [|done].
  destruct (dsu_find_S m r self') as (p' & Hp' & ->).
  rewrite (dsu_registered_id _ _ _ Hr) in *. simplify_eq.
  rewrite decide_False by naive_solver.
  rewrite insert_id by done. by destruct self'.
Qed.

Lemma dsu_find_again_witness :
  let self' := Py.state_after (DSU.find 3 4 DSU.example) DSU.example in
  DSU.find 2 4 self' = Py.Ok 1 self'.
Proof.
  intros self'. apply (dsu_find_again DSU.example 3 4 1 self').
  - dsu_example_reachable.
  - vm_compute. reflexivity.
  - lia.
Defined.

Lemma dsu_root_of_registered self item x rx :
  DSU.root_of self x rx → DSU.root_of (DSU.registered self item) x rx.
Proof.
  induction 1 as [x Hx|x p rx Hx Hne _ IH].
  - constructor. by apply dsu_registered_parent.
  - eapply DSU.root_up; [by apply dsu_registered_parent|done|done].
Qed.

(** Attaching the root [child] under the root [top] sends the items of
    [child] to [top] and leaves the other roots as they are. *)
Lemma dsu_link_root s2 s' child top :
  DSU._parent s2 !! child = Some child → DSU._parent s2 !! top = Some top →
  child ≠ top → DSU._parent s' = <[child := top]> (DSU._parent s2) →
  ∀ x rx, DSU.root_of s2 x rx →
          DSU.root_of s' x (if decide (rx = child) then top else rx).
Proof.
  intros Hc Ht Hne Hs'.
  assert (DSU.root_of s' top top) as Htop.
  { constructor. by rewrite Hs', lookup_insert_ne. }
  intros x rx. induction 1 as [x Hx|x p rx Hx Hnx _ IH].
  - case_decide as Hd.
    + subst x. eapply DSU.root_up; [|by apply not_eq_sym|done].
      by rewrite Hs', lookup_insert_eq.
    + constructor. by rewrite Hs', lookup_insert_ne by naive_solver.
  - eapply DSU.root_up; [|done|done].
    rewrite Hs', lookup_insert_ne; [done|]. intros <-. congruence.
Qed.

(** The roots of [a] and [b] after the two calls of [find] that [union] and
    [connected] begin with. *)
Lemma dsu_two_finds_roots self fuel a b ra s1 rb s2 :
  DSU.wf self →
  DSU.find fuel a self = Py.Ok ra s1 → DSU.find fuel b s1 = Py.Ok rb s2 →
  DSU.root_of s2 a ra ∧ DSU.root_of s2 b rb ∧
  ∀ x rx, DSU.root_of self x rx → DSU.root_of s2 x rx.
Proof.
  intros Hwf Ha Hb.
  destruct (dsu_find_result _ _ _ _ _ Hwf Ha) as (Hra & Hwf1 & _).
  destruct (dsu_find_result _ _ _ _ _ Hwf1 Hb) as (Hrb & _).
  pose proof (dsu_find_keeps_roots _ _ _ _ _ Hwf Ha) as K1.
  pose proof (dsu_find_keeps_roots _ _ _ _ _ Hwf1 Hb) as K2.
  split_and!.
  - by apply K2, dsu_root_of_registered, K1.
  - by apply K2.
  - intros x rx Hx. by apply K2, dsu_root_of_registered, K1, dsu_root_of_registered.
Qed.

Lemma dsu_connected_result self fuel a b c self' :
  DSU.wf self → DSU.connected fuel a b self = Py.Ok c self' →
  DSU.wf self' ∧
  (∃ ra rb, DSU.root_of self' a ra ∧ DSU.root_of self' b rb ∧
            c = bool_decide (ra = rb)) ∧
  ∀ x rx, DSU.root_of self x rx → DSU.root_of self' x rx.
Proof.
  intros Hwf Hc. unfold DSU.connected, Py.bind at 1 in Hc.
  destruct (DSU.find fuel a self) as [ra s1| | |] eqn:Ha; try done.
  unfold Py.bind at 1 in Hc.
  destruct (DSU.find fuel b s1) as [rb s2| | |] eqn:Hb; try done.
  injection Hc as Hc Hs. subst self' c.
  destruct (dsu_union_finds _ _ _ _ _ _ _ _ Hwf Ha Hb) as (Hwf2 & _).
  destruct (dsu_two_finds_roots _ _ _ _ _ _ _ _ Hwf Ha Hb) as (Hra & Hrb & K).
  split_and!; [done| |done]. by exists ra, rb.
Qed.

Lemma dsu_connected_returns self a b :
  DSU.wf self →
  ∃ n0 c self', ∀ n, (n0 ≤ n)%nat → DSU.connected n a b self = Py.Ok c self'.
Proof.
  intros Hwf.
  destruct (dsu_find_spec self a Hwf) as (ra & s1 & na & Ha & _ & Hwf1 & _).
  destruct (dsu_find_spec s1 b Hwf1) as (rb & s2 & nb & Hb & _).
  exists (Nat.max na nb), (bool_decide (ra = rb)), s2. intros n Hn.
  unfold DSU.connected, Py.bind at 1. rewrite Ha by lia.
  unfold Py.bind at 1. rewrite Hb by lia. done.
Qed.

Lemma dsu_union_result self fuel a b u self' :
  DSU.wf self → DSU.union fuel a b self = Py.Ok u self' →
  (∃ r, DSU.root_of self' a r ∧ DSU.root_of self' b r) ∧
  ∀ x y r, DSU.root_of self x r → DSU.root_of self y r →
           ∃ r', DSU.root_of self' x r' ∧ DSU.root_of self' y r'.
Proof.
  intros Hwf Hu. pose proof Hu as Hu'. unfold DSU.union, Py.bind at 1 in Hu'.
  destruct (DSU.find fuel a self) as [ra s1| | |] eqn:Ha; try done.
  unfold Py.bind at 1 in Hu'.
  destruct (DSU.find fuel b s1) as [rb s2| | |] eqn:Hb; try done. clear Hu'.
  destruct (dsu_union_finds _ _ _ _ _ _ _ _ Hwf Ha Hb)
    as (Hwf2 & Hpa & Hpb & rka & rkb & Hrka & Hrkb).
  destruct (dsu_two_finds_roots _ _ _ _ _ _ _ _ Hwf Ha Hb) as (Hra & Hrb & K).
  rewrite (dsu_union_eval _ _ _ _ _ _ _ _ _ _ Ha Hb Hrka Hrkb) in Hu.
  injection Hu as _ Hu. subst self'.
  destruct (decide (ra = rb)) as [->|Hne].
  - split; [by exists rb|]. intros x y r Hx Hy. exists r. auto.
  - assert (∃ child top s', child ≠ top ∧
              DSU._parent s2 !! child = Some child ∧
              DSU._parent s2 !! top = Some top ∧
              (child = ra ∧ top = rb ∨ child = rb ∧ top = ra) ∧
              DSU._parent s' = <[child := top]> (DSU._parent s2) ∧
              s' = (if decide (rka < rkb) then
                      {| DSU._parent := <[ra := rb]> (DSU._parent s2);
                         DSU._rank := DSU._rank s2 |}
                    else if decide (rka > rkb) then
                      {| DSU._parent := <[rb := ra]> (DSU._parent s2);
                         DSU._rank := DSU._rank s2 |}
                    else
                      {| DSU._parent := <[rb := ra]> (DSU._parent s2);
                         DSU._rank := <[ra := rka + 1]> (DSU._rank s2) |}))
      as (child & top & s' & Hct & Hc & Ht & Hwhich & Hs' & <-).
    { repeat case_decide.
      - exists ra, rb. eexists. split_and!; [done|done|done|by left| |done]. done.
      - exists rb, ra. eexists.
        split_and!; [by apply not_eq_sym|done|done|by right| |done]. done.
      - exists rb, ra. eexists.
        split_and!; [by apply not_eq_sym|done|done|by right| |done]. done. }
    pose proof (dsu_link_root s2 s' child top Hc Ht Hct Hs') as L.
    split.
    + exists top. apply L in Hra, Hrb.
      destruct Hwhich as [[-> ->]|[-> ->]].
      * rewrite decide_True in Hra by done.
        rewrite decide_False in Hrb by done. done.
      * rewrite decide_False in Hra by done.
        rewrite decide_True in Hrb by done. done.
    + intros x y r Hx Hy. apply K, L in Hx. apply K, L in Hy. eauto.
Qed.

(** X10: [union(a, b)] puts [a] and [b] under one root, so that
    [connected(a, b)] afterwards returns [True], and it never separates two
    items that had the same root before. *)
Theorem dsu_union_connects self fuel a b u self' :
  DSU.reachable self → DSU.union fuel a b self = Py.Ok u self' →
  (∃ r, DSU.root_of self' a r ∧ DSU.root_of self' b r) ∧
  (∃ n0 s'', ∀ n, (n0 ≤ n)%nat → DSU.connected n a b self' = Py.Ok true s'') ∧
  (∀ x y r, DSU.root_of self x r → DSU.root_of self y r →
            ∃ r', DSU.root_of self' x r' ∧ DSU.root_of self' y r').
Proof.
  intros Hwf%dsu_reachable_wf Hu.
  destruct (dsu_union_result _ _ _ _ _ _ Hwf Hu) as [(r & Ha & Hb) Hkeep].
  pose proof (dsu_union_wf _ _ _ _ _ _ Hwf Hu) as Hwf'.
  split_and!; [by exists r| |done].
  destruct (dsu_connected_returns self' a b Hwf') as (n0 & c & s'' & Hc).
  destruct (dsu_connected_result _ _ _ _ _ _ Hwf' (Hc n0 ltac:(lia)))
    as (_ & (ra & rb & Hra & Hrb & ->) & K).
  apply K in Ha, Hb.
  rewrite (dsu_root_of_det _ _ _ _ Hra Ha), (dsu_root_of_det _ _ _ _ Hrb Hb) in Hc.
  rewrite bool_decide_eq_true_2 in Hc by done. by exists n0, s''.
Qed.

Lemma dsu_union_connects_witness :
  (∃ r, DSU.root_of DSU.example 1 r ∧ DSU.root_of DSU.example 3 r) ∧
  (∃ n0 s'', ∀ n, (n0 ≤ n)%nat →
     DSU.connected n 1 3 DSU.example = Py.Ok true s'') ∧
  (∀ x y r, DSU.root_of DSU.example2 x r → DSU.root_of DSU.example2 y r →
            ∃ r', DSU.root_of DSU.example x r' ∧ DSU.root_of DSU.example y r').
Proof.
  apply (dsu_union_connects DSU.example2 3 1 3 tt DSU.example).
  - apply (DSU.reach_union DSU.example1 3 3 4 tt); [|vm_compute; reflexivity].
    apply (DSU.reach_union DSU.empty 3 1 2 tt); [|vm_compute; reflexivity].
    apply DSU.reach_init.
  - vm_compute. reflexivity.
Defined.

(** X11: connectivity is transitive: when [connected(a, b)] and then
    [connected(b, c)] return [True], [connected(a, c)] returns [True]. *)
Theorem dsu_connected_transitive self n1 n2 a b c s1 s2 :
  DSU.reachable self →
  DSU.connected n1 a b self = Py.Ok true s1 →
  DSU.connected n2 b c s1 = Py.Ok true s2 →
  ∃ n0 s3, ∀ n, (n0 ≤ n)%nat → DSU.connected n a c s2 = Py.Ok true s3.
Proof.
  intros Hwf%dsu_reachable_wf H1 H2.
  destruct (dsu_connected_result _ _ _ _ _ _ Hwf H1)
    as (Hwf1 & (ra & rb & Hra & Hrb & Heq1) & _).
  destruct (dsu_connected_result _ _ _ _ _ _ Hwf1 H2)
    as (Hwf2 & (rb' & rc & Hrb' & Hrc & Heq2) & K2).
  symmetry in Heq1, Heq2.
  apply bool_decide_eq_true in Heq1, Heq2. subst rb rc.
  apply K2 in Hra, Hrb.
  pose proof (dsu_root_of_det _ _ _ _ Hrb Hrb'). subst rb'.
  destruct (dsu_connected_returns s2 a c Hwf2) as (n0 & r & s3 & Hc).
  destruct (dsu_connected_result _ _ _ _ _ _ Hwf2 (Hc n0 ltac:(lia)))
    as (_ & (xa & xc & Hxa & Hxc & ->) & K3).
  apply K3 in Hra, Hrc.
  rewrite (dsu_root_of_det _ _ _ _ Hxa Hra), (dsu_root_of_det _ _ _ _ Hxc Hrc) in Hc.
  rewrite bool_decide_eq_true_2 in Hc by done. by exists n0, s3.
Qed.

Lemma dsu_connected_transitive_witness :
  let s1 := Py.state_after (DSU.connected 3 2 4 DSU.example) DSU.example in
  let s2 := Py.state_after (DSU.connected 3 4 3 s1) s1 in
  ∃ n0 s3, ∀ n, (n0 ≤ n)%nat → DSU.connected n 2 3 s2 = Py.Ok true s3.
Proof.
  intros s1 s2.
  apply (dsu_connected_transitive DSU.example 3 3 2 4 3 s1 s2).
  - dsu_example_reachable.
  - vm_compute. reflexivity.
  - vm_compute. reflexivity.
Defined.

(** X12: an item the structure has never seen is in a set of its own:
    [connected(a, b)] returns [False] when [b] is unknown and differs from
    [a] (and both are known afterwards). *)
Theorem dsu_unseen_item_not_connected self fuel a b c self' :
  DSU.reachable self → DSU._parent self !! b = None → a ≠ b →
  DSU.connected fuel a b self = Py.Ok c self' →
  c = false ∧
  is_Some (DSU._parent self' !! a) ∧ is_Some (DSU._parent self' !! b).
Proof.
  intros Hwf%dsu_reachable_wf Hb Hne Hc.
  pose proof (dsu_connected_result _ _ _ _ _ _ Hwf Hc)
    as (_ & (xa & xb & Hxa & Hxb & _) & _).
  unfold DSU.connected, Py.bind at 1 in Hc.
  destruct (DSU.find fuel a self) as [ra s1| | |] eqn:Ha; try done.
  unfold Py.bind at 1 in Hc.
  destruct (DSU.find fuel b s1) as [rb s2| | |] eqn:Hfb; try done.
  injection Hc as Hc Hs. subst self' c.
  destruct (dsu_find_result _ _ _ _ _ Hwf Ha) as (_ & Hwf1 & _).
  destruct (dsu_find_roots _ _ _ _ _ Hwf Ha) as [Hra _].
  assert (DSU._parent s1 !! b = None) as Hb1.
  { apply eq_None_not_Some. rewrite (dsu_find_dom _ _ _ _ _ b Hwf Ha).
    unfold DSU.registered. destruct (DSU._parent self !! a); simpl.
    - rewrite Hb. by intros [? ?].
    - rewrite lookup_insert_ne, Hb by done. by intros [? ?]. }
  destruct (dsu_find_result _ _ _ _ _ Hwf1 Hfb) as (Hrb & _).
  assert (rb = b) as ->.
  { eapply dsu_root_of_det; [done|]. constructor.
    unfold DSU.registered. rewrite Hb1. simpl. by rewrite lookup_insert_eq. }
  split_and!.
  - apply bool_decide_eq_false. intros ->. congruence.
  - by eapply dsu_root_of_known.
  - by eapply dsu_root_of_known.
Qed.

Lemma dsu_unseen_item_not_connected_witness :
  let self' := Py.state_after (DSU.connected 3 1 9 DSU.example) DSU.example in
  false = false ∧
  is_Some (DSU._parent self' !! 1) ∧ is_Some (DSU._parent self' !! 9).
Proof.
  apply (dsu_unseen_item_not_connected DSU.example 3 1 9 false).
  - dsu_example_reachable.
  - vm_compute. reflexivity.
  - lia.
  - vm_compute. reflexivity.
Defined.

(** ** SinglyLinkedList: the sequence of values *)

Lemma Forall2_frame {A B} (P Q : A → B → Prop) (l : list A) (k : list B) :
  Forall2 P l k → (∀ x y, x ∈ l → P x y → Q x y) → Forall2 Q l k.
Proof.
  induction 1 as [|x y l k Hxy _ IH]; intros HPQ; constructor.
  - apply HPQ; [by left|done].
  - apply IH. intros x' y' Hx'. apply HPQ. by right.
Qed.

Lemma sll_holds_empty : SLLSeq.holds SLL.empty [] [].
Proof. split; [apply sll_empty_rep|constructor]. Qed.

Lemma sll_holds_prepend self ls vs v :
  SLLSeq.holds self ls vs →
  ∃ self' ls', SLL.prepend v self = Py.Ok tt self' ∧
               SLLSeq.holds self' ls' (v :: vs).
Proof.
  intros [Hrep Hvs]. pose proof (sll_fresh_not_in _ _ Hrep) as Hfresh.
  destruct (sll_prepend_rep _ _ v Hrep) as (self' & E & Hrep').
  exists self', (fresh (dom (SLL.store self)) :: ls). split; [done|].
  split; [done|]. rewrite sll_prepend_eval in E. injection E as <-. simpl.
  constructor; [by rewrite lookup_insert_eq|].
  eapply Forall2_frame; [done|]. intros l x Hin Hl. simpl in *.
  rewrite lookup_insert_ne; [done|]. by intros <-.
Qed.

Lemma sll_holds_append self ls vs v :
  SLLSeq.holds self ls vs →
  ∃ self' ls', SLL.append v self = Py.Ok tt self' ∧
               SLLSeq.holds self' ls' (vs ++ [v]).
Proof.
  intros [Hrep Hvs]. pose proof (sll_fresh_not_in _ _ Hrep) as Hfresh.
  destruct (sll_append_rep _ _ v Hrep) as (self' & E & Hrep').
  exists self', (ls ++ [fresh (dom (SLL.store self))]). split; [done|].
  split; [done|]. rewrite sll_append_eval in E. simpl in E.
  set (l := fresh (dom (SLL.store self))) in *.
  destruct (SLL._tail self) as [tl|] eqn:Htl.
  - destruct (<[l:=_]> (SLL.store self) !! tl) as [n|] eqn:Hn; [|done].
    injection E as <-. simpl.
    assert (tl ≠ l) as Hne.
    { intros ->. apply Hfresh. destruct Hrep as (_ & _ & Ht & _).
      rewrite Htl in Ht. symmetry in Ht. rewrite last_lookup in Ht.
      by eapply list_elem_of_lookup_2. }
    rewrite lookup_insert_ne in Hn by done.
    apply Forall2_app.
    + eapply Forall2_frame; [done|]. intros x y Hin Hx. simpl in *.
      destruct (decide (x = tl)) as [->|Hxt].
      * rewrite lookup_insert_eq. rewrite Hn in Hx. done.
      * rewrite !lookup_insert_ne; [done| |done]. by intros <-.
    + constructor; [|constructor].
      by rewrite lookup_insert_ne, lookup_insert_eq by done.
  - injection E as <-. simpl.
    apply Forall2_app.
    + eapply Forall2_frame; [done|]. intros x y Hin Hx. simpl in *.
      rewrite lookup_insert_ne; [done|]. by intros <-.
    + constructor; [|constructor]. by rewrite lookup_insert_eq.
Qed.

Lemma sll_holds_pop_front self l ls v vs :
  SLLSeq.holds self (l :: ls) (v :: vs) →
  ∃ self', SLL.pop_front self = Py.Ok v self' ∧ SLLSeq.holds self' ls vs.
Proof.
  intros [Hrep Hvs].
  destruct (sll_pop_front_rep _ _ _ Hrep) as (v' & self' & E & Hrep').
  apply Forall2_cons in Hvs as [Hv Hvs].
  pose proof E as E'. rewrite sll_pop_front_eval in E'.
  destruct Hrep as (_ & Hh & _). rewrite Hh in E'. simpl in E'.
  destruct (SLL.store self !! l) as [n|] eqn:Hn; [|done].
  injection E' as <- <-. simpl in Hv. simplify_eq.
  eexists. split; [done|]. split; [done|]. done.
Qed.

Lemma sll_holds_length self ls vs :
  SLLSeq.holds self ls vs → SLL.len self = Z.of_nat (length vs).
Proof.
  intros [(_ & _ & _ & Hs & _) Hvs]. unfold SLL.len.
  by rewrite Hs, (Forall2_length _ _ _ Hvs).
Qed.

Lemma sll_holds_call self ls vs o :
  SLLSeq.holds self ls vs →
  ∃ ls', SLLSeq.holds (Py.state_after (SLL.call o self) self) ls'
           (SLLSeq.step vs o).
Proof.
  intros Hh. destruct o as [v|v|]; unfold SLL.call, Py.bind; simpl.
  - destruct (sll_holds_prepend _ _ _ v Hh) as (self' & ls' & -> & Hh'). eauto.
  - destruct (sll_holds_append _ _ _ v Hh) as (self' & ls' & -> & Hh'). eauto.
  - destruct Hh as [Hrep Hvs]. destruct Hvs as [|l v ls vs Hv Hvs].
    + rewrite sll_pop_front_empty by apply Hrep. simpl. exists []. by split.
    + destruct (sll_holds_pop_front self l ls v vs) as (self' & -> & Hh').
      { split; [done|by constructor]. }
      simpl. eauto.
Qed.

Lemma sll_holds_run ops self ls vs :
  SLLSeq.holds self ls vs →
  ∃ ls', SLLSeq.holds (SLL.run self ops) ls' (foldl SLLSeq.step vs ops).
Proof.
  revert self ls vs. induction ops as [|o ops IH]; intros self ls vs Hh; simpl.
  - eauto.
  - destruct (sll_holds_call _ _ _ o Hh) as [ls' Hh']. by eapply IH.
Qed.

Lemma sll_holds_iter self ls vs fuel :
  SLLSeq.holds self ls vs → (length vs < fuel)%nat →
  SLL.iter fuel self = Some vs.
Proof.
  intros [Hrep Hvs] Hf. unfold SLL.iter.
  pose proof (sll_nodes_from_rep _ _ Hrep fuel 0%nat) as Hn.
  rewrite <- head_lookup in Hn. destruct Hrep as (_ & Hh & _).
  rewrite Hh, Hn; [|rewrite (Forall2_length _ _ _ Hvs); lia].
  simpl. by apply mapM_Some.
Qed.

(** X13: a [SinglyLinkedList] behaves as the sequence of its values.
    After any calls, [len()] is the length of the sequence obtained by
    putting each prepended value in front, each appended value at the end
    and dropping the first value at each successful [pop_front];
    iteration yields that sequence; and [pop_front] returns its first
    value, or raises [IndexError] when it is empty. *)
Theorem sll_behaves_as_sequence (ops : list SLL.op) :
  let self := SLL.run SLL.empty ops in
  let vs := foldl SLLSeq.step [] ops in
  SLL.len self = Z.of_nat (length vs) ∧
  (∀ fuel, (length vs < fuel)%nat → SLL.iter fuel self = Some vs) ∧
  SLL.pop_front self =
  match vs with
  | [] => Py.Raise (Py.IndexError "pop_front from empty SinglyLinkedList") self
  | v :: _ => Py.Ok v (SLL.run SLL.empty (ops ++ [SLL.PopFront]))
  end.
Proof.
  intros self vs.
  destruct (sll_holds_run ops _ _ _ sll_holds_empty) as [ls Hh].
  fold self vs in Hh. split_and!.
  - by eapply sll_holds_length.
  - intros fuel Hf. by eapply sll_holds_iter.
  - unfold SLL.run. rewrite foldl_app. simpl. fold (SLL.run SLL.empty ops).
    fold self. destruct Hh as [Hrep Hvs].
    destruct Hvs as [|l v ls vs' Hv Hvs].
    + apply sll_pop_front_empty, Hrep.
    + destruct (sll_holds_pop_front self l ls v vs') as (self' & E & _).
      { split; [done|by constructor]. }
      unfold Py.bind. by rewrite E.
Qed.

Lemma sll_holds_appends values self ls vs :
  SLLSeq.holds self ls vs →
  ∃ ls', SLLSeq.holds
           (foldl (λ s v, Py.state_after (SLL.append v s) s) self values)
           ls' (vs ++ values).
Proof.
  revert self ls vs. induction values as [|v values IH]; intros self ls vs Hh.
  - rewrite app_nil_r. eauto.
  - simpl. destruct (sll_holds_append _ _ _ v Hh) as (self' & ls' & E & Hh').
    rewrite E. simpl. destruct (IH _ _ _ Hh') as [ls'' Hh''].
    exists ls''. by rewrite <- app_assoc in Hh''.
Qed.

Lemma sll_init_holds values :
  ∃ ls, SLLSeq.holds (SLLSeq.init values) ls (default [] values).
Proof.
  destruct values as [[|v vs]|]; simpl; try (eexists; apply sll_holds_empty).
  apply (sll_holds_appends (v :: vs) _ _ _ sll_holds_empty).
Qed.

(** ** DoublyLinkedList: the sequence of values *)

(** What each method does to the values held by the node objects. *)
Lemma dll_append_values self v self' :
  DLL.append v self = Py.Ok tt self' →
  let l := fresh (dom (DLL.store self)) in
  DLL.value <$> DLL.store self' !! l = Some v ∧
  ∀ x, x ≠ l → DLL.value <$> DLL.store self' !! x =
               DLL.value <$> DLL.store self !! x.
Proof.
  dll_unfold. set (l := fresh (dom (DLL.store self))).
  destruct (DLL._tail self) as [tl|]; simpl.
  - rewrite lookup_insert_eq. simpl.
    destruct (<[l:=_]> (<[l:=_]> (DLL.store self)) !! tl) as [n|] eqn:Hn;
      simpl; [|done].
    intros [= <-]. simpl. split.
    + destruct (decide (tl = l)) as [->|Hne].
      * rewrite lookup_insert_eq. rewrite lookup_insert_eq in Hn. by simplify_eq.
      * by rewrite lookup_insert_ne, lookup_insert_eq.
    + intros x Hx. destruct (decide (x = tl)) as [->|Hxt].
      * rewrite lookup_insert_eq. rewrite !lookup_insert_ne in Hn by done.
        by rewrite Hn.
      * by rewrite !lookup_insert_ne.
  - intros [= <-]. simpl. split; [by rewrite lookup_insert_eq|].
    intros x Hx. by rewrite lookup_insert_ne.
Qed.

Lemma dll_prepend_values self v self' :
  DLL.prepend v self = Py.Ok tt self' →
  let l := fresh (dom (DLL.store self)) in
  DLL.value <$> DLL.store self' !! l = Some v ∧
  ∀ x, x ≠ l → DLL.value <$> DLL.store self' !! x =
               DLL.value <$> DLL.store self !! x.
Proof.
  dll_unfold. set (l := fresh (dom (DLL.store self))).
  destruct (DLL._head self) as [hd|]; simpl.
  - rewrite lookup_insert_eq. simpl.
    destruct (<[l:=_]> (<[l:=_]> (DLL.store self)) !! hd) as [n|] eqn:Hn;
      simpl; [|done].
    intros [= <-]. simpl. split.
    + destruct (decide (hd = l)) as [->|Hne].
      * rewrite lookup_insert_eq. rewrite lookup_insert_eq in Hn. by simplify_eq.
      * by rewrite lookup_insert_ne, lookup_insert_eq.
    + intros x Hx. destruct (decide (x = hd)) as [->|Hxt].
      * rewrite lookup_insert_eq. rewrite !lookup_insert_ne in Hn by done.
        by rewrite Hn.
      * by rewrite !lookup_insert_ne.
  - intros [= <-]. simpl. split; [by rewrite lookup_insert_eq|].
    intros x Hx. by rewrite lookup_insert_ne.
Qed.

Lemma dll_pop_front_values self v self' :
  DLL.pop_front self = Py.Ok v self' →
  (∃ h, DLL._head self = Some h ∧
        DLL.value <$> DLL.store self !! h = Some v) ∧
  ∀ x, DLL.value <$> DLL.store self' !! x = DLL.value <$> DLL.store self !! x.
Proof.
  dll_unfold. destruct (DLL._head self) as [hd|]; simpl; [|done].
  destruct (DLL.store self !! hd) as [n|] eqn:Hn; simpl; [|done].
  destruct (DLL.next n) as [y|]; simpl.
  - destruct (DLL.store self !! y) as [ny|] eqn:Hy; simpl; [|done].
    destruct (<[y:=_]> (DLL.store self) !! hd) as [n'|] eqn:Hn'; simpl; [|done].
    intros [= <- <-]. simpl. split.
    + exists hd. split; [done|]. rewrite Hn. simpl.
      rewrite lookup_insert in Hn'. case_decide; simplify_eq; done.
    + intros x. rewrite lookup_insert. case_decide; [|done].
      subst x. by rewrite Hy.
  - rewrite Hn. simpl. intros [= <- <-]. simpl. split; [|done].
    exists hd. by rewrite Hn.
Qed.

Lemma dll_pop_back_values self v self' :
  DLL.pop_back self = Py.Ok v self' →
  (∃ tl, DLL._tail self = Some tl ∧
         DLL.value <$> DLL.store self !! tl = Some v) ∧
  ∀ x, DLL.value <$> DLL.store self' !! x = DLL.value <$> DLL.store self !! x.
Proof.
  dll_unfold. destruct (DLL._tail self) as [tl|]; simpl; [|done].
  destruct (DLL.store self !! tl) as [n|] eqn:Hn; simpl; [|done].
  destruct (DLL.prev n) as [y|]; simpl.
  - destruct (DLL.store self !! y) as [ny|] eqn:Hy; simpl; [|done].
    destruct (<[y:=_]> (DLL.store self) !! tl) as [n'|] eqn:Hn'; simpl; [|done].
    intros [= <- <-]. simpl. split.
    + exists tl. split; [done|]. rewrite Hn. simpl.
      rewrite lookup_insert in Hn'. case_decide; simplify_eq; done.
    + intros x. rewrite lookup_insert. case_decide; [|done].
      subst x. by rewrite Hy.
  - rewrite Hn. simpl. intros [= <- <-]. simpl. split; [|done].
    exists tl. by rewrite Hn.
Qed.

Lemma dll_holds_empty : DLLSeq.holds DLL.empty [] [].
Proof. split; [apply dll_empty_rep|constructor]. Qed.

Lemma dll_holds_append self ls vs v :
  DLLSeq.holds self ls vs →
  ∃ self' ls', DLL.append v self = Py.Ok tt self' ∧
               DLLSeq.holds self' ls' (vs ++ [v]).
Proof.
  intros [Hrep Hvs]. pose proof (dll_fresh_not_in _ _ Hrep) as Hfresh.
  destruct (dll_append_rep _ _ v Hrep) as (self' & E & Hrep').
  destruct (dll_append_values _ _ _ E) as [Hnew Hold].
  exists self', (ls ++ [fresh (dom (DLL.store self))]). split; [done|].
  split; [done|]. apply Forall2_app.
  - eapply Forall2_frame; [done|]. intros x y Hin Hx. simpl in *.
    rewrite Hold; [done|]. by intros ->.
  - by repeat constructor.
Qed.

Lemma dll_holds_prepend self ls vs v :
  DLLSeq.holds self ls vs →
  ∃ self' ls', DLL.prepend v self = Py.Ok tt self' ∧
               DLLSeq.holds self' ls' (v :: vs).
Proof.
  intros [Hrep Hvs]. pose proof (dll_fresh_not_in _ _ Hrep) as Hfresh.
  destruct (dll_prepend_rep _ _ v Hrep) as (self' & E & Hrep').
  destruct (dll_prepend_values _ _ _ E) as [Hnew Hold].
  exists self', (fresh (dom (DLL.store self)) :: ls). split; [done|].
  split; [done|]. constructor; [done|].
  eapply Forall2_frame; [done|]. intros x y Hin Hx. simpl in *.
  rewrite Hold; [done|]. by intros ->.
Qed.

Lemma dll_holds_pop_front self l ls v vs :
  DLLSeq.holds self (l :: ls) (v :: vs) →
  ∃ self', DLL.pop_front self = Py.Ok v self' ∧ DLLSeq.holds self' ls vs.
Proof.
  intros [Hrep Hvs].
  destruct (dll_pop_front_rep _ _ _ Hrep) as (v' & self' & E & Hrep').
  destruct (dll_pop_front_values _ _ _ E) as [(h & Hh & Hv') Hold].
  apply Forall2_cons in Hvs as [Hv Hvs].
  destruct Hrep as (_ & Hhead & _). rewrite Hhead in Hh. simpl in Hh.
  simplify_eq. exists self'. split; [done|]. split; [done|].
  eapply Forall2_frame; [done|]. intros x y Hin Hx. simpl in *.
  by rewrite Hold.
Qed.

Lemma dll_holds_pop_back self l ls v vs :
  DLLSeq.holds self (ls ++ [l]) (vs ++ [v]) →
  ∃ self', DLL.pop_back self = Py.Ok v self' ∧ DLLSeq.holds self' ls vs.
Proof.
  intros [Hrep Hvs].
  destruct (dll_pop_back_rep _ _ _ Hrep) as (v' & self' & E & Hrep').
  destruct (dll_pop_back_values _ _ _ E) as [(tl & Htl & Hv') Hold].
  apply Forall2_app_inv in Hvs as [Hvs Hv].
  2: { apply Forall2_length in Hvs. rewrite !length_app in Hvs. simpl in Hvs. lia. }
  apply Forall2_cons in Hv as [Hv _].
  destruct Hrep as (_ & _ & Htail & _). rewrite Htail, last_snoc in Htl.
  simplify_eq. exists self'. split; [done|]. split; [done|].
  eapply Forall2_frame; [done|]. intros x y Hin Hx. simpl in *.
  by rewrite Hold.
Qed.

Lemma dll_holds_length self ls vs :
  DLLSeq.holds self ls vs → DLL.len self = Z.of_nat (length vs).
Proof.
  intros [(_ & _ & _ & Hs & _) Hvs]. unfold DLL.len.
  by rewrite Hs, (Forall2_length _ _ _ Hvs).
Qed.

Lemma dll_holds_call self ls vs o :
  DLLSeq.holds self ls vs →
  ∃ ls', DLLSeq.holds (Py.state_after (DLL.call o self) self) ls'
           (DLLSeq.step vs o).
Proof.
  intros Hh. destruct o as [v|v| |]; unfold DLL.call, Py.bind; simpl.
  - destruct (dll_holds_append _ _ _ v Hh) as (self' & ls' & -> & Hh'). eauto.
  - destruct (dll_holds_prepend _ _ _ v Hh) as (self' & ls' & -> & Hh'). eauto.
  - destruct Hh as [Hrep Hvs]. destruct Hvs as [|l v ls vs Hv Hvs].
    + rewrite dll_pop_front_empty by apply Hrep. simpl. exists []. by split.
    + destruct (dll_holds_pop_front self l ls v vs) as (self' & -> & Hh').
      { split; [done|by constructor]. }
      simpl. eauto.
  - destruct (decide (vs = [])) as [->|Hne].
    + destruct Hh as [Hrep Hvs]. apply Forall2_nil_inv_r in Hvs as ->.
      rewrite dll_pop_back_empty by apply Hrep. simpl. exists []. by split.
    + destruct (exists_last Hne) as (vs' & v & ->).
      pose proof Hh as [Hrep Hvs].
      assert (ls ≠ []) as Hls.
      { intros ->. apply Forall2_length in Hvs. rewrite length_app in Hvs.
        simpl in Hvs. lia. }
      destruct (exists_last Hls) as (ls' & l & ->).
      destruct (dll_holds_pop_back self l ls' v vs' Hh) as (self' & -> & Hh').
      simpl. rewrite removelast_last. eauto.
Qed.

Lemma dll_holds_run ops self ls vs :
  DLLSeq.holds self ls vs →
  ∃ ls', DLLSeq.holds (DLL.run self ops) ls' (foldl DLLSeq.step vs ops).
Proof.
  revert self ls vs. induction ops as [|o ops IH]; intros self ls vs Hh; simpl.
  - eauto.
  - destruct (dll_holds_call _ _ _ o Hh) as [ls' Hh']. by eapply IH.
Qed.

Lemma dll_holds_iter self ls vs fuel :
  DLLSeq.holds self ls vs → (length vs < fuel)%nat →
  DLL.iter fuel self = Some vs.
Proof.
  intros [Hrep Hvs] Hf. unfold DLL.iter.
  pose proof (dll_nodes_from_rep _ _ Hrep fuel 0%nat) as Hn.
  rewrite <- head_lookup in Hn. destruct Hrep as (_ & Hh & _).
  rewrite Hh, Hn; [|rewrite (Forall2_length _ _ _ Hvs); lia].
  simpl. by apply mapM_Some.
Qed.

(** X14: a [DoublyLinkedList] behaves as the sequence of its values, at
    both ends: [len()] and iteration follow the sequence built by the
    calls; [pop_front] returns its first value and [pop_back] its last, and
    each raises [IndexError] exactly when the sequence is empty. *)
Theorem dll_behaves_as_sequence (ops : list DLL.op) :
  let self := DLL.run DLL.empty ops in
  let vs := foldl DLLSeq.step [] ops in
  DLL.len self = Z.of_nat (length vs) ∧
  (∀ fuel, (length vs < fuel)%nat → DLL.iter fuel self = Some vs) ∧
  DLL.pop_front self =
  match head vs with
  | None => Py.Raise (Py.IndexError "pop_front from empty DoublyLinkedList") self
  | Some v => Py.Ok v (DLL.run DLL.empty (ops ++ [DLL.PopFront]))
  end ∧
  DLL.pop_back self =
  match last vs with
  | None => Py.Raise (Py.IndexError "pop_back from empty DoublyLinkedList") self
  | Some v => Py.Ok v (DLL.run DLL.empty (ops ++ [DLL.PopBack]))
  end.
Proof.
  intros self vs.
  destruct (dll_holds_run ops _ _ _ dll_holds_empty) as [ls Hh].
  fold self vs in Hh. split_and!.
  - by eapply dll_holds_length.
  - intros fuel Hf. by eapply dll_holds_iter.
  - unfold DLL.run. rewrite foldl_app. simpl. fold (DLL.run DLL.empty ops).
    fold self. pose proof Hh as [Hrep Hvs].
    destruct Hvs as [|l v ls vs' Hv Hvs]; simpl.
    + apply dll_pop_front_empty, Hrep.
    + destruct (dll_holds_pop_front self l ls v vs' Hh) as (self' & E & _).
      unfold Py.bind. by rewrite E.
  - unfold DLL.run. rewrite foldl_app. simpl. fold (DLL.run DLL.empty ops).
    fold self. pose proof Hh as [Hrep Hvs].
    destruct (decide (vs = [])) as [Hnil|Hne].
    + rewrite Hnil in *. apply Forall2_nil_inv_r in Hvs as ->. simpl.
      apply dll_pop_back_empty, Hrep.
    + destruct (exists_last Hne) as (vs' & v & Hvs').
      rewrite Hvs' in *. rewrite last_snoc.
      assert (ls ≠ []) as Hls.
      { intros ->. apply Forall2_length in Hvs. rewrite length_app in Hvs.
        simpl in Hvs. lia. }
      destruct (exists_last Hls) as (ls' & l & ->).
      destruct (dll_holds_pop_back self l ls' v vs' Hh) as (self' & E & _).
      unfold Py.bind. by rewrite E.
Qed.

Lemma dll_init_holds values :
  ∃ ls, DLLSeq.holds (DLLSeq.init values) ls (default [] values).
Proof.
  assert (∀ values self ls vs, DLLSeq.holds self ls vs →
    ∃ ls', DLLSeq.holds
             (foldl (λ s v, Py.state_after (DLL.append v s) s) self values)
             ls' (vs ++ values)) as Happ.
  { clear. induction values as [|v values IH]; intros self ls vs Hh.
    - rewrite app_nil_r. eauto.
    - simpl. destruct (dll_holds_append _ _ _ v Hh) as (self' & ls' & E & Hh').
      rewrite E. simpl. destruct (IH _ _ _ Hh') as [ls'' Hh''].
      exists ls''. by rewrite <- app_assoc in Hh''. }
  destruct values as [[|v vs]|]; simpl; try (eexists; apply dll_holds_empty).
  apply (Happ (v :: vs) _ _ _ dll_holds_empty).
Qed.

Lemma sll_init_run values :
  SLLSeq.init values = SLL.run SLL.empty (SLL.Append <$> default [] values).
Proof.
  assert (∀ vs self,
    foldl (λ s v, Py.state_after (SLL.append v s) s) self vs =
    SLL.run self (SLL.Append <$> vs)) as H.
  { induction vs as [|v vs IH]; intros self; simpl; [done|].
    rewrite IH. f_equal. unfold Py.bind. by destruct (SLL.append v self). }
  destruct values as [[|v vs]|]; try done. apply H.
Qed.

Lemma dll_init_run values :
  DLLSeq.init values = DLL.run DLL.empty (DLL.Append <$> default [] values).
Proof.
  assert (∀ vs self,
    foldl (λ s v, Py.state_after (DLL.append v s) s) self vs =
    DLL.run self (DLL.Append <$> vs)) as H.
  { induction vs as [|v vs IH]; intros self; simpl; [done|].
    rewrite IH. f_equal. unfold Py.bind. by destruct (DLL.append v self). }
  destruct values as [[|v vs]|]; try done. apply H.
Qed.

(** X15: the constructors of the two linked lists keep the given values:
    a list built from [values] has their number as [len()] and yields
    them, in order, when iterated; without values, or with none, it is the
    empty list.  The constructed state is the one reached by appending the
    values one by one. *)
Theorem linked_list_init_round_trip (values : option (list Z)) :
  let vs := default [] values in
  (SLL.len (SLLSeq.init values) = Z.of_nat (length vs) ∧
   (∀ fuel, (length vs < fuel)%nat →
      SLL.iter fuel (SLLSeq.init values) = Some vs) ∧
   SLLSeq.init values = SLL.run SLL.empty (SLL.Append <$> vs)) ∧
  (DLL.len (DLLSeq.init values) = Z.of_nat (length vs) ∧
   (∀ fuel, (length vs < fuel)%nat →
      DLL.iter fuel (DLLSeq.init values) = Some vs) ∧
   DLLSeq.init values = DLL.run DLL.empty (DLL.Append <$> vs)).
Proof.
  intros vs. split.
  - destruct (sll_init_holds values) as [ls Hh]. split_and!.
    + by eapply sll_holds_length.
    + intros fuel Hf. by eapply sll_holds_iter.
    + apply sll_init_run.
  - destruct (dll_init_holds values) as [ls Hh]. split_and!.
    + by eapply dll_holds_length.
    + intros fuel Hf. by eapply dll_holds_iter.
    + apply dll_init_run.
Qed.

(** X16: in a [DoublyLinkedList] the backward links mirror the forward
    ones.  After any calls, the nodes met from the head are pairwise
    distinct (the list has no cycle), and when the [prev] of a node of the
    list is [b], then [b] is a node of the list whose [next] is that
    node. *)
Theorem dll_backward_links (ops : list DLL.op) :
  let self := DLL.run DLL.empty ops in
  ∃ ls,
    (∀ fuel, (length ls < fuel)%nat →
       DLL.nodes_from (DLL.store self) fuel (DLL._head self) = Some ls) ∧
    NoDup ls ∧
    ∀ a b na, a ∈ ls → DLL.store self !! a = Some na → DLL.prev na = Some b →
      b ∈ ls ∧ ∃ nb, DLL.store self !! b = Some nb ∧ DLL.next nb = Some a.
Proof.
  intros self. destruct (dll_run_rep ops _ _ dll_empty_rep) as [ls Hrep].
  fold self in Hrep. pose proof Hrep as (Hnd & Hh & Ht & Hs & Hc).
  exists ls. split_and!; [|done|].
  - intros fuel Hf. rewrite Hh, head_lookup.
    rewrite (dll_nodes_from_rep _ _ Hrep) by lia. done.
  - intros a b na Ha Hna Hprev.
    apply list_elem_of_lookup in Ha as [i Hi].
    destruct (Hc _ _ Hi) as [v Hv]. rewrite Hv in Hna. simplify_eq.
    simpl in Hprev. destruct i as [|j]; [done|]. simpl in Hprev.
    split; [by eapply list_elem_of_lookup_2|].
    destruct (Hc _ _ Hprev) as [vb Hvb]. eexists. split; [done|]. done.
Qed.

(** ** CircularQueue: the ring buffer *)

Ltac cq_unfold :=
  unfold CircularQueue.call, CircularQueue.enqueue, CircularQueue.dequeue,
    CircularQueue.set_data, CircularQueue.set_front, CircularQueue.set_size,
    PyList.getitem, PyList.setitem, PyList.modulo, PyList.position,
    Py.bind, Py.get, Py.put, Py.ret, Py.raise; simpl.

Lemma mod_offset_inj (f i j c : Z) :
  0 < c → 0 ≤ i < c → 0 ≤ j < c →
  (f + i) `mod` c = (f + j) `mod` c → i = j.
Proof.
  intros Hc Hi Hj Heq.
  assert ((i - j) `mod` c = 0) as Hz.
  { replace (i - j) with ((f + i) - (f + j)) by lia.
    rewrite Zminus_mod, Heq, Z.sub_diag. by apply Z.mod_0_l, Z.neq_sym, Z.lt_neq. }
  pose proof (Z.div_mod (i - j) c ltac:(lia)) as Hd. rewrite Hz in Hd.
  set (q := (i - j) `div` c) in *.
  destruct (Z.lt_trichotomy q 0) as [Hq|[Hq|Hq]]; [|lia|].
  - assert (c * q ≤ c * (-1)) by (apply Z.mul_le_mono_nonneg_l; lia). lia.
  - assert (c * 1 ≤ c * q) by (apply Z.mul_le_mono_nonneg_l; lia). lia.
Qed.

Lemma cq_init_holds capacity self :
  CircularQueue.init capacity = inr self → CQSeq.holds self [].
Proof.
  unfold CircularQueue.init. case_decide; [done|]. intros [= <-].
  split_and!; simpl; try lia.
  - rewrite length_replicate. lia.
  - intros i v. by rewrite lookup_nil.
Qed.

Lemma cq_enqueue_full self q v :
  CQSeq.holds self q → Z.of_nat (length q) = CircularQueue._capacity self →
  CircularQueue.enqueue v self =
  Py.Raise (Py.OverflowError "enqueue to full CircularQueue") self.
Proof.
  intros (Hc & Hl & Hf & Hs & Hsc & Hq) Hfull. cq_unfold.
  rewrite decide_True by lia. done.
Qed.

Lemma cq_enqueue_holds self q v :
  CQSeq.holds self q → Z.of_nat (length q) ≠ CircularQueue._capacity self →
  ∃ self', CircularQueue.enqueue v self = Py.Ok tt self' ∧
           CQSeq.holds self' (q ++ [v]).
Proof.
  intros (Hc & Hl & Hf & Hs & Hsc & Hq) Hfull. cq_unfold.
  rewrite (decide_False (P := CircularQueue._size self =
                               CircularQueue._capacity self)) by lia.
  rewrite (decide_False (P := CircularQueue._capacity self = 0)) by lia. simpl.
  set (idx := (CircularQueue._front self + CircularQueue._size self)
                `mod` CircularQueue._capacity self).
  assert (0 ≤ idx < CircularQueue._capacity self) as Hidx
    by (apply Z.mod_pos_bound; lia).
  rewrite (decide_False (P := idx < 0)) by lia.
  rewrite decide_True by lia. simpl.
  eexists. split; [done|]. split_and!; simpl; try lia.
  - rewrite length_insert. lia.
  - rewrite length_app. simpl. lia.
  - intros i x Hi. destruct (decide (i < length q)%nat) as [Hlt|Hge].
    + rewrite lookup_app_l in Hi by done.
      rewrite list_lookup_insert_ne; [by apply Hq|].
      intros Heq. apply Z2Nat.inj in Heq; [|lia|apply Z.mod_pos_bound; lia].
      unfold idx in Heq. apply mod_offset_inj in Heq; lia.
    + assert (i = length q) as ->.
      { apply lookup_lt_Some in Hi. rewrite length_app in Hi. simpl in Hi. lia. }
      rewrite list_lookup_middle in Hi by done. simplify_eq.
      rewrite <- Hs. fold idx. apply list_lookup_insert_eq. lia.
Qed.

Lemma cq_dequeue_empty self :
  CQSeq.holds self [] →
  CircularQueue.dequeue self =
  Py.Raise (Py.IndexError "dequeue from empty CircularQueue") self.
Proof.
  intros (Hc & Hl & Hf & Hs & Hsc & Hq). cq_unfold.
  by rewrite decide_True by (simpl in Hs; lia).
Qed.

Lemma cq_dequeue_holds self v q :
  CQSeq.holds self (v :: q) →
  ∃ self', CircularQueue.dequeue self = Py.Ok (Some v) self' ∧
           CQSeq.holds self' q.
Proof.
  intros (Hc & Hl & Hf & Hs & Hsc & Hq). cq_unfold. simpl in Hs.
  rewrite (decide_False (P := CircularQueue._size self = 0)) by lia.
  rewrite !(decide_False (P := CircularQueue._front self < 0)) by lia.
  rewrite !decide_True by lia. simpl.
  pose proof (Hq 0%nat v eq_refl) as H0. simpl in H0.
  rewrite Z.add_0_r, Z.mod_small in H0 by lia. rewrite H0. simpl.
  rewrite (decide_False (P := CircularQueue._capacity self = 0)) by lia. simpl.
  set (front' := (CircularQueue._front self + 1)
                   `mod` CircularQueue._capacity self).
  assert (0 ≤ front' < CircularQueue._capacity self) as Hfront
    by (apply Z.mod_pos_bound; lia).
  eexists. split; [done|]. split_and!; simpl; try lia.
  - rewrite length_insert. lia.
  - intros i x Hi. pose proof (lookup_lt_Some _ _ _ Hi) as Hlen.
    assert ((front' + Z.of_nat i) `mod` CircularQueue._capacity self =
            (CircularQueue._front self + Z.of_nat (S i))
              `mod` CircularQueue._capacity self) as ->.
    { unfold front'. rewrite Zplus_mod_idemp_l. f_equal. lia. }
    rewrite list_lookup_insert_ne; [by apply (Hq (S i))|].
    intros Heq. apply Z2Nat.inj in Heq; [|lia|apply Z.mod_pos_bound; lia].
    rewrite <- (Z.mod_small (CircularQueue._front self)
                  (CircularQueue._capacity self)) in Heq at 1 by lia.
    replace (CircularQueue._front self) with (CircularQueue._front self + 0)
      in Heq at 1 by lia.
    apply mod_offset_inj in Heq; lia.
Qed.

Lemma cq_holds_call self q o :
  CQSeq.holds self q →
  CQSeq.holds (Py.state_after (CircularQueue.call o self) self)
    (CQSeq.step (CircularQueue._capacity self) q o).
Proof.
  intros Hh. destruct o as [v|]; unfold CircularQueue.call, CQSeq.step.
  - case_decide as Hfull.
    + unfold Py.bind. by rewrite (cq_enqueue_full _ _ v Hh Hfull).
    + destruct (cq_enqueue_holds _ _ v Hh Hfull) as (self' & E & Hh').
      unfold Py.bind. by rewrite E.
  - destruct q as [|v q].
    + by rewrite (cq_dequeue_empty _ Hh).
    + destruct (cq_dequeue_holds _ _ _ Hh) as (self' & E & Hh'). by rewrite E.
Qed.

Lemma cq_holds_run ops self q :
  CQSeq.holds self q →
  CQSeq.holds (CircularQueue.run self ops)
    (foldl (CQSeq.step (CircularQueue._capacity self)) q ops).
Proof.
  revert self q. induction ops as [|o ops IH]; intros self q Hh; simpl; [done|].
  pose proof (cq_holds_call _ _ o Hh) as Hh'. apply IH in Hh'.
  by rewrite circular_queue_call_capacity in Hh'.
Qed.

Lemma cq_item_at self q (i : nat) v :
  CQSeq.holds self q → q !! i = Some v →
  CQSeq.item_at self (Z.of_nat i) self = Py.Ok (Some v) self.
Proof.
  intros (Hc & Hl & Hf & Hs & Hsc & Hq) Hi. specialize (Hq _ _ Hi).
  unfold CQSeq.item_at. cq_unfold.
  rewrite (decide_False (P := CircularQueue._capacity self = 0)) by lia. simpl.
  set (k := (CircularQueue._front self + Z.of_nat i)
              `mod` CircularQueue._capacity self) in *.
  assert (0 ≤ k < CircularQueue._capacity self) as Hk
    by (apply Z.mod_pos_bound; lia).
  rewrite (decide_False (P := k < 0)) by lia.
  rewrite decide_True by lia. simpl. by rewrite Hq.
Qed.

Lemma cq_collect self q n k :
  CQSeq.holds self q →
  CQSeq.collect (CQSeq.item_at self) (Z.of_nat <$> seq k n) self =
  if decide (k + n ≤ length q)%nat
  then Py.Ok (Some <$> take n (drop k q)) self
  else CQSeq.collect (CQSeq.item_at self) (Z.of_nat <$> seq k n) self.
Proof.
  intros Hh. case_decide as Hle; [|done]. revert k Hle.
  induction n as [|n IH]; intros k Hle; simpl.
  - done.
  - destruct (lookup_lt_is_Some_2 q k) as [v Hv]; [lia|].
    unfold Py.bind at 1. rewrite (cq_item_at _ _ _ _ Hh Hv).
    unfold Py.bind at 1. rewrite IH by lia. unfold Py.ret.
    by rewrite (drop_S _ _ _ Hv).
Qed.

Lemma cq_items self q :
  CQSeq.holds self q → CQSeq.items self = Py.Ok (Some <$> q) self.
Proof.
  intros Hh. pose proof Hh as (_ & _ & _ & Hs & _).
  unfold CQSeq.items, Py.bind, Py.get. rewrite Hs. unfold seqZ.
  rewrite Nat2Z.id.
  assert ((λ i : nat, Z.of_nat i + 0) <$> seq 0 (length q) =
          Z.of_nat <$> seq 0 (length q)) as ->.
  { apply list_fmap_ext. intros i x _. lia. }
  rewrite (cq_collect _ _ _ _ Hh), decide_True by lia.
  by rewrite drop_0, firstn_all.
Qed.

(** X17: a [CircularQueue] is a first-in first-out queue of bounded
    length.  After any calls on a queue constructed with [capacity], the
    values it holds are those of the sequence the calls build ([enqueue] on
    a full queue adds nothing): [len()] is its length, never above the
    capacity; [__repr__] lists it from front to rear; [enqueue] raises
    [OverflowError] exactly when it is full; [dequeue] returns its oldest
    value, or raises [IndexError] when it is empty. *)
Theorem circular_queue_fifo capacity self0 (ops : list CircularQueue.op) :
  CircularQueue.init capacity = inr self0 →
  let self := CircularQueue.run self0 ops in
  let q := foldl (CQSeq.step capacity) [] ops in
  CircularQueue.len self = Z.of_nat (length q) ∧
  Z.of_nat (length q) ≤ capacity ∧
  CQSeq.items self = Py.Ok (Some <$> q) self ∧
  (∀ v, CircularQueue.enqueue v self =
        if decide (Z.of_nat (length q) = capacity)
        then Py.Raise (Py.OverflowError "enqueue to full CircularQueue") self
        else Py.Ok tt (CircularQueue.run self0 (ops ++ [CircularQueue.Enqueue v]))) ∧
  CircularQueue.dequeue self =
  match q with
  | [] => Py.Raise (Py.IndexError "dequeue from empty CircularQueue") self
  | v :: _ => Py.Ok (Some v) (CircularQueue.run self0 (ops ++ [CircularQueue.Dequeue]))
  end.
Proof.
  intros Hinit self q.
  pose proof (circular_queue_init capacity) as Hi. rewrite Hinit in Hi.
  destruct Hi as [Hpos Hcap].
  pose proof (cq_holds_run ops _ _ (cq_init_holds _ _ Hinit)) as Hh.
  rewrite Hcap in Hh. fold self q in Hh.
  assert (CircularQueue._capacity self = capacity) as Hcs.
  { unfold self. by rewrite circular_queue_run_capacity. }
  pose proof Hh as (_ & _ & _ & Hs & Hsc & _).
  split_and!.
  - done.
  - lia.
  - by apply cq_items.
  - intros v. unfold CircularQueue.run. rewrite foldl_app. simpl.
    fold (CircularQueue.run self0 ops). fold self. case_decide as Hfull.
    + apply (cq_enqueue_full _ _ v Hh). lia.
    + destruct (cq_enqueue_holds _ _ v Hh) as (self' & E & _); [lia|].
      unfold Py.bind. by rewrite E.
  - unfold CircularQueue.run. rewrite foldl_app. simpl.
    fold (CircularQueue.run self0 ops). fold self. destruct q as [|v q'].
    + by apply cq_dequeue_empty.
    + destruct (cq_dequeue_holds _ _ _ Hh) as (self' & E & _). by rewrite E.
Qed.

Lemma circular_queue_fifo_witness :
  let self0 := {| CircularQueue._capacity := 2;
                  CircularQueue._data := [None; None];
                  CircularQueue._front := 0; CircularQueue._size := 0 |} in
  let ops := [CircularQueue.Enqueue 1; CircularQueue.Enqueue 2;
              CircularQueue.Dequeue; CircularQueue.Enqueue 3;
              CircularQueue.Enqueue 4] in
  let self := CircularQueue.run self0 ops in
  let q := foldl (CQSeq.step 2) [] ops in
  CircularQueue.len self = Z.of_nat (length q) ∧
  Z.of_nat (length q) ≤ 2 ∧
  CQSeq.items self = Py.Ok (Some <$> q) self ∧
  (∀ v, CircularQueue.enqueue v self =
        if decide (Z.of_nat (length q) = 2)
        then Py.Raise (Py.OverflowError "enqueue to full CircularQueue") self
        else Py.Ok tt (CircularQueue.run self0 (ops ++ [CircularQueue.Enqueue v]))) ∧
  CircularQueue.dequeue self =
  match q with
  | [] => Py.Raise (Py.IndexError "dequeue from empty CircularQueue") self
  | v :: _ => Py.Ok (Some v) (CircularQueue.run self0 (ops ++ [CircularQueue.Dequeue]))
  end.
Proof.
  intros self0 ops.
  apply (circular_queue_fifo 2 self0 ops). reflexivity.
Defined.

Example circular_queue_wraps :
  let self0 := {| CircularQueue._capacity := 2;
                  CircularQueue._data := [None; None];
                  CircularQueue._front := 0; CircularQueue._size := 0 |} in
  let self := CircularQueue.run self0
                [CircularQueue.Enqueue 1; CircularQueue.Enqueue 2;
                 CircularQueue.Dequeue; CircularQueue.Enqueue 3] in
  CircularQueue._data self = [Some 3; Some 2] ∧
  CircularQueue._front self = 1 ∧
  CQSeq.items self = Py.Ok [Some 2; Some 3] self.
Proof. vm_compute. done. Qed.

(** ** Graph: vertices and edges *)

Ltac graph_unfold :=
  unfold Graph.call, Graph.add_edge, Graph.add_vertex, Graph.add_neighbor,
    Graph.neighbors, Graph.set_adjacency,
    Py.bind, Py.get, Py.put, Py.ret, Py.raise; simpl.

Lemma graph_add_vertex_lookup (self : Graph.t) v :
  ∃ self', Graph.add_vertex v self = Py.Ok tt self' ∧
    Graph._directed self' = Graph._directed self ∧
    ∀ u, Graph._adjacency self' !! u =
         if decide (u = v) then Some (default ∅ (Graph._adjacency self !! u))
         else Graph._adjacency self !! u.
Proof.
  graph_unfold. destruct (Graph._adjacency self !! v) as [ns|] eqn:Hv; simpl.
  - eexists. split_and!; [done|done|]. intros u. case_decide; [|done].
    subst u. by rewrite Hv.
  - eexists. split_and!; [done|done|]. simpl. intros u.
    rewrite lookup_insert. case_decide; simplify_eq.
    + by rewrite decide_True, Hv.
    + by rewrite decide_False by naive_solver.
Qed.

Lemma graph_add_neighbor_lookup (self : Graph.t) a b ns :
  Graph._adjacency self !! a = Some ns →
  ∃ self', Graph.add_neighbor a b self = Py.Ok tt self' ∧
    Graph._directed self' = Graph._directed self ∧
    ∀ u, Graph._adjacency self' !! u =
         if decide (u = a) then Some ({[b]} ∪ ns)
         else Graph._adjacency self !! u.
Proof.
  intros Ha. graph_unfold. rewrite Ha. simpl.
  eexists. split_and!; [done|done|]. simpl. intros u.
  rewrite lookup_insert. case_decide; simplify_eq.
  - by rewrite decide_True.
  - by rewrite decide_False by naive_solver.
Qed.

(** [add_edge] in closed form: the neighbour set of each vertex after the
    call. *)
Lemma graph_add_edge_lookup (self : Graph.t) src dst :
  ∃ self', Graph.add_edge src dst self = Py.Ok tt self' ∧
    Graph._directed self' = Graph._directed self ∧
    ∀ u, Graph._adjacency self' !! u =
      if decide (u = src ∨ u = dst ∨ is_Some (Graph._adjacency self !! u)) then
        Some (default ∅ (Graph._adjacency self !! u) ∪
              (if decide (u = src) then {[dst]} else ∅) ∪
              (if decide (u = dst ∧ Graph._directed self = false)
               then {[src]} else ∅))
      else None.
Proof.
  unfold Graph.add_edge.
  destruct (graph_add_vertex_lookup self src) as (s1 & E1 & D1 & L1).
  destruct (graph_add_vertex_lookup s1 dst) as (s2 & E2 & D2 & L2).
  destruct (graph_add_neighbor_lookup s2 src dst
              (default ∅ (Graph._adjacency self !! src)))
    as (s3 & E3 & D3 & L3).
  { rewrite L2. destruct (decide (src = dst)) as [<-|Hne];
      rewrite L1, decide_True by done; done. }
  unfold Py.bind at 1. rewrite E1. unfold Py.bind at 1. rewrite E2.
  unfold Py.bind at 1. rewrite E3. unfold Py.bind at 1. simpl.
  assert (∀ u, Graph._adjacency s3 !! u =
    if decide (u = src ∨ u = dst ∨ is_Some (Graph._adjacency self !! u)) then
      Some (default ∅ (Graph._adjacency self !! u) ∪
            (if decide (u = src) then {[dst]} else ∅))
    else None) as L3'.
  { intros u. rewrite L3, L2, L1.
    destruct (Graph._adjacency self !! u) as [nu|] eqn:Hu; simpl;
      repeat case_decide; simplify_eq; simpl; rewrite ?Hu; simpl;
      try done; try (f_equal; set_solver); try naive_solver.
    all: exfalso; naive_solver. }
  rewrite D3, D2, D1. destruct (Graph._directed self) eqn:Hdir.
  - exists s3. split_and!; [done|congruence|]. intros u. rewrite L3'.
    case_decide; [|done]. f_equal.
    rewrite (decide_False (P := u = dst ∧ true = false)) by naive_solver.
    set_solver.
  - destruct (graph_add_neighbor_lookup s3 dst src
                (default ∅ (Graph._adjacency self !! dst) ∪
                 (if decide (dst = src) then {[dst]} else ∅)))
      as (s4 & E4 & D4 & L4).
    { rewrite L3', decide_True by auto. done. }
    rewrite E4. exists s4. split_and!; [done|congruence|]. intros u.
    rewrite L4, L3'. repeat case_decide; simplify_eq; try done;
      try (f_equal; set_solver); try naive_solver.
    all: exfalso; naive_solver.
Qed.

Lemma graph_call_invariants (self : Graph.t) o :
  let self' := Py.state_after (Graph.call o self) self in
  Graph._directed self' = Graph._directed self ∧
  (GraphInv.closed self → GraphInv.closed self') ∧
  (Graph._directed self = false → GraphInv.symmetric self →
   GraphInv.symmetric self').
Proof.
  destruct o as [v|src dst|v]; unfold Graph.call.
  - destruct (graph_add_vertex_lookup self v) as (s1 & E & D & L).
    unfold Py.bind. rewrite E. simpl. split_and!; [done| |].
    + intros Hc u ns w. rewrite !L. intros Hu Hw.
      assert (is_Some (Graph._adjacency self !! w)) as [nw Hnw].
      { case_decide; [|by eapply Hc].
        destruct (Graph._adjacency self !! u) eqn:Hu'; simplify_eq; simpl in *;
          [by eapply Hc|set_solver]. }
      rewrite Hnw. destruct (decide (w = v)); by eexists.
    + intros _ Hsym u ns w. rewrite !L. intros Hu Hw.
      assert (∃ ns0, Graph._adjacency self !! u = Some ns0 ∧ w ∈ ns0)
        as (ns0 & Hu0 & Hw0).
      { case_decide; [|eauto].
        destruct (Graph._adjacency self !! u) eqn:Hu'; simplify_eq; simpl in *;
          [eauto|set_solver]. }
      destruct (Hsym _ _ _ Hu0 Hw0) as (nw & Hnw & Huw).
      rewrite Hnw. simpl. destruct (decide (w = v)); eauto.
  - destruct (graph_add_edge_lookup self src dst) as (s1 & E & D & L).
    unfold Py.bind. rewrite E. simpl. split_and!; [done| |].
    + intros Hc u ns w. rewrite !L.
      destruct (decide (u = src ∨ u = dst ∨
                        is_Some (Graph._adjacency self !! u))) as [Hu|Hu]; [|done].
      intros [= <-] Hw.
      rewrite (decide_True (P := w = src ∨ w = dst ∨
                 is_Some (Graph._adjacency self !! w))); [by eexists|].
      apply elem_of_union in Hw as [Hw|Hw];
        [apply elem_of_union in Hw as [Hw|Hw]|].
      * destruct (Graph._adjacency self !! u) eqn:Hu'; simpl in Hw;
          [|set_solver]. right. right. by eapply Hc.
      * case_decide; set_solver.
      * case_decide; set_solver.
    + intros Hdir Hsym u ns w. rewrite !L.
      destruct (decide (u = src ∨ u = dst ∨
                        is_Some (Graph._adjacency self !! u))) as [Hu|Hu]; [|done].
      intros [= <-] Hw. rewrite Hdir in *.
      apply elem_of_union in Hw as [Hw|Hw];
        [apply elem_of_union in Hw as [Hw|Hw]|].
      * destruct (Graph._adjacency self !! u) as [nu|] eqn:Hu'; simpl in Hw;
          [|set_solver].
        destruct (Hsym _ _ _ Hu' Hw) as (nw & Hnw & Huw).
        rewrite decide_True by eauto. rewrite Hnw. simpl.
        eexists. split; [done|]. set_solver.
      * case_decide; [|set_solver]. apply elem_of_singleton in Hw. subst.
        rewrite decide_True by auto. eexists. split; [done|].
        rewrite (decide_True (P := dst = dst ∧ false = false)) by done.
        set_solver.
      * case_decide as Hud; [|set_solver]. destruct Hud as [-> _].
        apply elem_of_singleton in Hw. subst.
        rewrite decide_True by auto. eexists. split; [done|].
        rewrite (decide_True (P := src = src)) by done. set_solver.
  - unfold Graph.neighbors. graph_unfold.
    destruct (Graph._adjacency self !! v); simpl; done.
Qed.

(** X18: the adjacency structure stays consistent.  After any calls of
    [add_vertex], [add_edge] and [neighbors] on a new graph, every
    neighbour of a vertex is itself a vertex (so the traversals never look
    up an absent key), the [directed] flag is as constructed, and in an
    undirected graph every edge is stored in both directions. *)
Theorem graph_adjacency_invariants (directed : bool) (ops : list Graph.op) :
  let self := GraphInv.run (Graph.init directed) ops in
  Graph._directed self = directed ∧
  GraphInv.closed self ∧
  (directed = false → GraphInv.symmetric self).
Proof.
  assert (∀ ops self,
    let self' := GraphInv.run self ops in
    Graph._directed self' = Graph._directed self ∧
    (GraphInv.closed self → GraphInv.closed self') ∧
    (Graph._directed self = false → GraphInv.symmetric self →
     GraphInv.symmetric self')) as Hrun.
  { clear. induction ops as [|o ops IH]; intros self; simpl; [done|].
    destruct (graph_call_invariants self o) as (D & C & S).
    destruct (IH (Py.state_after (Graph.call o self) self)) as (D' & C' & S').
    split_and!; [congruence|auto|].
    intros Hd Hs. apply S'; [congruence|auto]. }
  intros self. destruct (Hrun ops (Graph.init directed)) as (D & C & S).
  split_and!; [done| |].
  - apply C. intros u ns v. simpl. by rewrite lookup_empty.
  - intros ->. apply S; [done|]. intros u ns v. simpl. by rewrite lookup_empty.
Qed.

(** X19: what [add_edge] does.  It never raises; afterwards both
    endpoints are vertices and [neighbors(source)] contains
    [destination]; in an undirected graph [neighbors(destination)]
    contains [source] as well; no vertex or edge is lost, and no edge other
    than this one is added.  [neighbors] of an absent vertex raises
    [KeyError]. *)
Theorem graph_add_edge_effect (self : Graph.t) (src dst : Z) :
  ∃ self', Graph.add_edge src dst self = Py.Ok tt self' ∧
    (∃ ns, Graph.neighbors src self' = Py.Ok ns self' ∧ dst ∈ ns) ∧
    (∃ ns, Graph.neighbors dst self' = Py.Ok ns self' ∧
           (Graph._directed self = false → src ∈ ns)) ∧
    (∀ u ns, Graph._adjacency self !! u = Some ns →
       ∃ ns', Graph._adjacency self' !! u = Some ns' ∧ ns ⊆ ns') ∧
    (∀ u ns' v, Graph._adjacency self' !! u = Some ns' → v ∈ ns' →
       (∃ ns, Graph._adjacency self !! u = Some ns ∧ v ∈ ns) ∨
       (u = src ∧ v = dst) ∨
       (Graph._directed self = false ∧ u = dst ∧ v = src)) ∧
    (∀ u, is_Some (Graph._adjacency self' !! u) ↔
          u = src ∨ u = dst ∨ is_Some (Graph._adjacency self !! u)) ∧
    (∀ v, Graph._adjacency self' !! v = None →
       ∃ e, Graph.neighbors v self' = Py.Raise e self' ∧
            Py.kind_of e = Some Py.KeyNotFound).
Proof.
  destruct (graph_add_edge_lookup self src dst) as (s1 & E & D & L).
  exists s1. split_and!; [done| | | | | |].
  - unfold Graph.neighbors. graph_unfold. rewrite L, decide_True by auto.
    simpl. eexists. split; [done|]. rewrite decide_True by done. set_solver.
  - unfold Graph.neighbors. graph_unfold. rewrite L, decide_True by auto.
    simpl. eexists. split; [done|]. intros Hd.
    rewrite (decide_True (P := dst = dst ∧ _)) by done. set_solver.
  - intros u ns Hu. rewrite L, decide_True by eauto. rewrite Hu. simpl.
    eexists. split; [done|]. set_solver.
  - intros u ns' v. rewrite L.
    destruct (decide (u = src ∨ u = dst ∨
                      is_Some (Graph._adjacency self !! u))) as [Hu|Hu]; [|done].
    intros [= <-] Hv.
    apply elem_of_union in Hv as [Hv|Hv];
      [apply elem_of_union in Hv as [Hv|Hv]|].
    + destruct (Graph._adjacency self !! u) eqn:Hu'; simpl in Hv; [|set_solver].
      left. eauto.
    + destruct (decide (u = src)); [|set_solver]. right. left. set_solver.
    + destruct (decide (u = dst ∧ Graph._directed self = false)) as [[? ?]|];
        [|set_solver]. right. right. set_solver.
  - intros u. rewrite L.
    destruct (decide (u = src ∨ u = dst ∨
                      is_Some (Graph._adjacency self !! u))) as [Hu|Hu].
    + split; [done|]. by eexists.
    + split; [by intros [? ?]|done].
  - intros v Hv. unfold Graph.neighbors. graph_unfold. rewrite Hv. simpl.
    eexists. split; done.
Qed.
